(** * Scheduler, task lifecycle manager and merge coordinator

    A shallow embedding of
      - libs/task_manager/src/task_manager.py        (Module TaskManager)
      - apps/brain/src/agents/enhanced_orchestrator.py (Module Orchestrator)
      - apps/brain/src/agents/orchestrator.py        (Module Sequential)
      - apps/brain/src/agents/merging_agent.py       (Module Merging)
    and the properties of the written specification checked against it. *)

From Stdlib Require Import ZArith Lia.
From stdpp Require Import gmap strings list fin_maps sets sorting.

#[local] Set Warnings "-register-all,-clear-no-such-hyp".
#[local] Open Scope Z_scope.

(* ===================================================================== *)
(** ** libs/task_manager/src/task_manager.py *)
(* ===================================================================== *)

Module TaskManager.

(** [class TaskStatus(Enum)] *)
Inductive TaskStatus :=
  | PENDING | RUNNING | COMPLETED | FAILED | CANCELLED | TIMEOUT.

#[global] Instance TaskStatus_eq_dec : EqDecision TaskStatus.
Proof. solve_decision. Defined.

(** The exception objects stored in [task.error]. *)
Inductive Error :=
  | MaxConcurrentReached                 (* Exception("Max concurrent tasks reached") *)
  | TaskTimeout (timeout : option nat)   (* Exception(f"Task timeout after {timeout}s") *)
  | CancelledByUser                      (* Exception("Task cancelled by user") *)
  | Raised (e : string).                 (* the exception raised by the unit of work *)

#[global] Instance Error_eq_dec : EqDecision Error.
Proof. solve_decision. Defined.

(** [@dataclass BackgroundTask].  [coro] is an opaque callable: what it does
    when awaited is supplied by the environment (see [Outcome]).  Cleanup
    handlers are opaque callables too, identified here by a name; calling one
    is recorded in the manager's [cleanup_calls] trace.  Time stamps are
    seconds ([datetime.now()] is an input of every operation that reads the
    clock).  The psutil figures of [resource] play no part below. *)
Record BackgroundTask := mkTask {
  task_id : string;
  name : string;
  status : TaskStatus;
  result : option string;
  error : option Error;
  created_at : Z;
  started_at : option Z;
  completed_at : option Z;
  cleanup_handlers : list string
}.

(** What [await task.coro()] (or [asyncio.wait_for] around it) does.  The
    value of a normal return is [None] when the unit of work returns Python's
    [None]. *)
Inductive Outcome :=
  | Returned (v : option string) (* normal return *)
  | RaisedTimeoutError           (* asyncio.TimeoutError *)
  | RaisedException (e : string) (* any other [Exception] *)
  | RaisedBaseException.         (* CancelledError and the like: no [except] clause matches *)

(** Control point of the coroutine [_execute_task(task, timeout)] that
    [create_task] hands to the event loop. *)
Inductive Phase :=
  | Scheduled (timeout : option nat)  (* created by asyncio.create_task, not started *)
  | Awaiting (timeout : option nat)   (* admitted, suspended at [await task.coro()] *)
  | Ended.                            (* returned *)

#[global] Instance Phase_eq_dec : EqDecision Phase.
Proof. solve_decision. Defined.

(** [class TaskManager].  Python's task objects are shared between the
    registry [self.tasks] and the running [_execute_task] coroutines, which
    keep their object after the registry dropped it: [objects] is the store of
    all task objects (keyed by their uuid), [tasks] the keys of the registry
    dict in insertion order, [executions] the coroutines. *)
Record TaskManager := mkManager {
  objects : gmap string BackgroundTask;
  executions : gmap string Phase;
  tasks : list string;
  max_concurrent_tasks : Z;
  running_tasks : Z;
  shutdown_requested : bool;
  cleanup_calls : list (string * string)
}.

(** [TaskManager.__init__] *)
Definition init (max_concurrent_tasks : Z) : TaskManager :=
  mkManager ∅ ∅ [] max_concurrent_tasks 0 false [].

Definition set_status (s : TaskStatus) (t : BackgroundTask) : BackgroundTask :=
  mkTask (task_id t) (name t) s (result t) (error t)
         (created_at t) (started_at t) (completed_at t) (cleanup_handlers t).
Definition set_result (r : option string) (t : BackgroundTask) : BackgroundTask :=
  mkTask (task_id t) (name t) (status t) r (error t)
         (created_at t) (started_at t) (completed_at t) (cleanup_handlers t).
Definition set_error (e : option Error) (t : BackgroundTask) : BackgroundTask :=
  mkTask (task_id t) (name t) (status t) (result t) e
         (created_at t) (started_at t) (completed_at t) (cleanup_handlers t).
Definition set_started_at (x : option Z) (t : BackgroundTask) : BackgroundTask :=
  mkTask (task_id t) (name t) (status t) (result t) (error t)
         (created_at t) x (completed_at t) (cleanup_handlers t).
Definition set_completed_at (x : option Z) (t : BackgroundTask) : BackgroundTask :=
  mkTask (task_id t) (name t) (status t) (result t) (error t)
         (created_at t) (started_at t) x (cleanup_handlers t).

Definition with_objects (o : gmap string BackgroundTask) (m : TaskManager) : TaskManager :=
  mkManager o (executions m) (tasks m) (max_concurrent_tasks m) (running_tasks m)
            (shutdown_requested m) (cleanup_calls m).
Definition with_executions (e : gmap string Phase) (m : TaskManager) : TaskManager :=
  mkManager (objects m) e (tasks m) (max_concurrent_tasks m) (running_tasks m)
            (shutdown_requested m) (cleanup_calls m).
Definition with_tasks (l : list string) (m : TaskManager) : TaskManager :=
  mkManager (objects m) (executions m) l (max_concurrent_tasks m) (running_tasks m)
            (shutdown_requested m) (cleanup_calls m).
Definition with_running_tasks (n : Z) (m : TaskManager) : TaskManager :=
  mkManager (objects m) (executions m) (tasks m) (max_concurrent_tasks m) n
            (shutdown_requested m) (cleanup_calls m).
Definition with_shutdown_requested (b : bool) (m : TaskManager) : TaskManager :=
  mkManager (objects m) (executions m) (tasks m) (max_concurrent_tasks m) (running_tasks m)
            b (cleanup_calls m).
Definition with_cleanup_calls (c : list (string * string)) (m : TaskManager) : TaskManager :=
  mkManager (objects m) (executions m) (tasks m) (max_concurrent_tasks m) (running_tasks m)
            (shutdown_requested m) c.

(** [self.tasks.get(task_id)] *)
Definition tasks_get (m : TaskManager) (id : string) : option BackgroundTask :=
  if decide (id ∈ tasks m) then objects m !! id else None.

(** [self.tasks[task_id] = task]: a key already present keeps its place. *)
Definition dict_keys_set (id : string) (keys : list string) : list string :=
  if decide (id ∈ keys) then keys else keys ++ [id].

(** [create_task]: builds the record in state PENDING, registers it, hands
    [_execute_task(task, timeout)] to the event loop and returns the id.  The
    id is the fresh uuid4 drawn by the call. *)
Definition create_task (id nm : string) (handlers : list string)
    (timeout : option nat) (now : Z) (m : TaskManager) : string * TaskManager :=
  let task := mkTask id nm PENDING None None now None None handlers in
  (id, with_executions (<[id := Scheduled timeout]> (executions m))
         (with_tasks (dict_keys_set id (tasks m))
            (with_objects (<[id := task]> (objects m)) m))).

(** [_cleanup_task]: every handler is called, one after the other; a handler
    that raises is logged and the loop goes on. *)
Definition _cleanup_task (t : BackgroundTask) (m : TaskManager) : TaskManager :=
  with_cleanup_calls
    (cleanup_calls m ++ ((λ h, (task_id t, h)) <$> cleanup_handlers t)) m.

(** [_execute_task], up to the first suspension: the admission section under
    the lock.  At the ceiling the record is failed and the coroutine returns;
    otherwise the counter is incremented and the record becomes RUNNING. *)
Definition execute_task_admit (t : BackgroundTask) (timeout : option nat)
    (now : Z) (m : TaskManager) : TaskManager :=
  let id := task_id t in
  if decide (max_concurrent_tasks m ≤ running_tasks m) then
    with_executions (<[id := Ended]> (executions m))
      (with_objects
         (<[id := set_error (Some MaxConcurrentReached) (set_status FAILED t)]> (objects m)) m)
  else
    with_executions (<[id := Awaiting timeout]> (executions m))
      (with_objects
         (<[id := set_started_at (Some now) (set_status RUNNING t)]> (objects m))
         (with_running_tasks (running_tasks m + 1) m)).

(** The [try]/[except] part of [_execute_task], once the awaited unit of work
    is over. *)
Definition apply_outcome (timeout : option nat) (o : Outcome)
    (t : BackgroundTask) : BackgroundTask :=
  match o with
  | Returned v => set_status COMPLETED (set_result v t)
  | RaisedTimeoutError => set_error (Some (TaskTimeout timeout)) (set_status TIMEOUT t)
  | RaisedException e => set_error (Some (Raised e)) (set_status FAILED t)
  | RaisedBaseException => t
  end.

(** [_execute_task], from the resumption after the await to its end: outcome,
    then the [finally] block (counter, time stamp, cleanup handlers). *)
Definition execute_task_finish (t : BackgroundTask) (timeout : option nat)
    (o : Outcome) (now : Z) (m : TaskManager) : TaskManager :=
  let id := task_id t in
  let t' := set_completed_at (Some now) (apply_outcome timeout o t) in
  _cleanup_task t'
    (with_executions (<[id := Ended]> (executions m))
       (with_objects (<[id := t']> (objects m))
          (with_running_tasks (running_tasks m - 1) m))).

(** [cancel_task] *)
Definition cancel_task (id : string) (m : TaskManager) : bool * TaskManager :=
  match tasks_get m id with
  | None => (false, m)
  | Some task =>
      if decide (status task ≠ RUNNING) then (false, m)
      else (true,
            with_objects
              (<[id := set_error (Some CancelledByUser) (set_status CANCELLED task)]>
                 (objects m)) m)
  end.

(** [_cleanup_stale_tasks]: the registry forgets the records that are
    COMPLETED, FAILED or CANCELLED and were completed more than an hour ago. *)
Definition is_stale (now : Z) (t : BackgroundTask) : bool :=
  bool_decide (status t ∈ [COMPLETED; FAILED; CANCELLED]) &&
  match completed_at t with
  | Some c => bool_decide (c < now - 3600)
  | None => false
  end.

Definition _cleanup_stale_tasks (now : Z) (m : TaskManager) : TaskManager :=
  let stale_tasks :=
    filter (λ id, from_option (is_stale now) false (objects m !! id) = true) (tasks m) in
  with_tasks (filter (λ id, id ∉ stale_tasks) (tasks m)) m.

(** [shutdown], first loop: [for task in self.tasks.values(): if task.status
    == TaskStatus.RUNNING: self.cancel_task(task.task_id)]. *)
Definition cancel_running (m : TaskManager) (ids : list string) : TaskManager :=
  foldl (λ acc id,
           match objects acc !! id with
           | Some t => if decide (status t = RUNNING)
                       then (cancel_task (task_id t) acc).2 else acc
           | None => acc
           end) m ids.

(** [shutdown], second loop: [for task in list(self.tasks.values()): await
    self._cleanup_task(task)]. *)
Definition cleanup_all (m : TaskManager) (ids : list string) : TaskManager :=
  foldl (λ acc id,
           match objects acc !! id with
           | Some t => _cleanup_task t acc
           | None => acc
           end) m ids.

(** [shutdown] *)
Definition shutdown (m : TaskManager) : TaskManager :=
  (* Cancel all running tasks *)
  let m1 := cancel_running m (tasks m) in
  (* Stop monitoring *)
  let m2 := with_shutdown_requested true m1 in
  (* Cleanup all tasks *)
  let m3 := cleanup_all m2 (tasks m2) in
  with_tasks [] m3.

(** *** The manager under the event loop

    asyncio runs one callback at a time; between two suspension points an
    operation is atomic.  An [Event] is one such atomic piece. *)
Inductive Event :=
  | EvCreate (id nm : string) (handlers : list string) (timeout : option nat) (now : Z)
  | EvAdmit (id : string) (now : Z)
  | EvFinish (id : string) (o : Outcome) (now : Z)
  | EvCancel (id : string)
  | EvReap (now : Z)
  | EvShutdown.

(** [None]: the event cannot happen in this state (a uuid drawn twice, a
    coroutine resumed at a point where it is not). *)
Definition exec_event (ev : Event) (m : TaskManager) : option TaskManager :=
  match ev with
  | EvCreate id nm handlers timeout now =>
      if decide (id ∈ dom (objects m)) then None
      else Some (create_task id nm handlers timeout now m).2
  | EvAdmit id now =>
      match executions m !! id, objects m !! id with
      | Some (Scheduled timeout), Some t =>
          if decide (task_id t = id) then Some (execute_task_admit t timeout now m) else None
      | _, _ => None
      end
  | EvFinish id o now =>
      match executions m !! id, objects m !! id with
      | Some (Awaiting timeout), Some t =>
          if decide (task_id t = id) then Some (execute_task_finish t timeout o now m) else None
      | _, _ => None
      end
  | EvCancel id => Some (cancel_task id m).2
  | EvReap now => Some (_cleanup_stale_tasks now m)
  | EvShutdown => Some (shutdown m)
  end.

Fixpoint run_events (evs : list Event) (m : TaskManager) : option TaskManager :=
  match evs with
  | [] => Some m
  | ev :: evs' =>
      match exec_event ev m with
      | Some m' => run_events evs' m'
      | None => None
      end
  end.

Definition reachable (ceiling : Z) (m : TaskManager) : Prop :=
  ∃ evs, run_events evs (init ceiling) = Some m.

Definition status_of (m : TaskManager) (id : string) : option TaskStatus :=
  status <$> objects m !! id.

Definition is_terminal (s : TaskStatus) : bool :=
  match s with
  | COMPLETED | FAILED | CANCELLED | TIMEOUT => true
  | PENDING | RUNNING => false
  end.

(** Number of handler calls made so far for task [id]. *)
Definition calls_for (id : string) (m : TaskManager) : nat :=
  length (filter (λ c, c.1 = id) (cleanup_calls m)).

(** *** The module-level singleton

    [_global_task_manager] holds a reference; managers live in a store so that
    "the same instance" is the same address. *)
Record Process := mkProcess {
  managers : list TaskManager;
  _global_task_manager : option nat
}.

Definition process_start : Process := mkProcess [] None.

(** [get_task_manager(max_concurrent)] *)
Definition get_task_manager (max_concurrent : Z) (p : Process) : nat * Process :=
  match _global_task_manager p with
  | None =>
      let addr := length (managers p) in
      (addr, mkProcess (managers p ++ [init max_concurrent]) (Some addr))
  | Some addr => (addr, p)
  end.

(** A sequence of calls, each with its own argument; the addresses returned. *)
Fixpoint get_task_manager_calls (args : list Z) (p : Process) : list nat * Process :=
  match args with
  | [] => ([], p)
  | a :: args' =>
      let '(r, p1) := get_task_manager a p in
      let '(rs, p2) := get_task_manager_calls args' p1 in
      (r :: rs, p2)
  end.

(** [task.status.value] *)
Definition status_value (s : TaskStatus) : string :=
  match s with
  | PENDING => "pending"
  | RUNNING => "running"
  | COMPLETED => "completed"
  | FAILED => "failed"
  | CANCELLED => "cancelled"
  | TIMEOUT => "timeout"
  end.

(** The dict returned by [get_stats]. *)
Record Stats := mkStats {
  stat_total_tasks : nat;
  stat_running_tasks : Z;
  stat_max_concurrent : Z;
  stat_status_counts : gmap string nat
}.

(** [get_stats]: [status_counts[status] = status_counts.get(status, 0) + 1]
    for every record of the registry. *)
Definition get_stats (m : TaskManager) : Stats :=
  let status_counts :=
    foldl (λ counts id,
             match objects m !! id with
             | Some t =>
                 let st := status_value (status t) in
                 <[st := (default 0%nat (counts !! st) + 1)%nat]> counts
             | None => counts
             end) (∅ : gmap string nat) (tasks m) in
  mkStats (length (tasks m)) (running_tasks m) (max_concurrent_tasks m) status_counts.

End TaskManager.

(* ===================================================================== *)
(** ** Python dicts whose order is observed *)
(* ===================================================================== *)

Module PyDict.
Section dict.
Context {V : Type}.

(** [d[k] = v]: a key already present keeps its place in the iteration
    order, a new key goes last. *)
Fixpoint set (k : string) (v : V) (d : list (string * V)) : list (string * V) :=
  match d with
  | [] => [(k, v)]
  | (k', v') :: d' => if decide (k' = k) then (k, v) :: d' else (k', v') :: set k v d'
  end.

(** [d.get(k)] *)
Fixpoint get (k : string) (d : list (string * V)) : option V :=
  match d with
  | [] => None
  | (k', v') :: d' => if decide (k' = k) then Some v' else get k d'
  end.

(** [list(d.keys())] *)
Definition keys (d : list (string * V)) : list string := d.*1.
End dict.
End PyDict.

(* ===================================================================== *)
(** ** apps/brain/src/agents/enhanced_orchestrator.py *)
(* ===================================================================== *)

Module Orchestrator.

(** One entry of the planner's ["tasks"] list, a JSON object; an absent key
    is [None]. *)
Record Task := mkTask {
  task_id : option string;
  agent : option string;
  task : option string;
  priority : option Z;
  dependencies : option (list string)
}.

(** A Python [str] that the code slices: the list of its code points. *)
Definition text : Type := list N.

(** The text of a string of ASCII characters. *)
Definition text_of (s : string) : text :=
  Ascii.N_of_ascii <$> String.list_ascii_of_string s.

(** The dict returned by [_run_agent_task_async]. *)
Record ResultDict := mkResult {
  r_agent : option string;
  r_task : option string;
  r_success : bool;
  r_result : option text;
  r_error : option string;
  r_task_id : option string
}.

(** An object that [asyncio.gather(..., return_exceptions=True)] returns and
    that is no instance of [Exception]: the dict that a coroutine returned, or
    the [BaseException] that ended it ([asyncio.CancelledError], which
    [gather] puts into its result list like any other exception). *)
Inductive Completed :=
  | Dict (r : ResultDict)
  | BaseExceptionObject (e : string).

(** [result.get(key)] on an entry of [completed_tests] that is a dict. *)
Definition dict_get {A} (field : ResultDict → A) (v : Completed) : option A :=
  match v with
  | Dict r => Some (field r)
  | BaseExceptionObject _ => None
  end.

(** An entry of [context["failed_tests"]]. *)
Record FailedEntry := mkFailed { f_task_id : string; f_error : string }.

(** The part of [context] that the scheduler writes. *)
Record Context := mkContext {
  completed_tests : list Completed;
  failed_tests : list FailedEntry
}.

(** An element of what [asyncio.gather(..., return_exceptions=True)] returns:
    an object that is no [Exception] (the coroutine's value, or the
    [BaseException] that ended it), or the [Exception] it raised. *)
Inductive GatherResult :=
  | GReturned (r : Completed)
  | GException (e : string).

(** What an agent's [think]/[execute]/[learn] sequence, followed by
    [str(result)], does. *)
Inductive AgentOutcome :=
  | AgentOk (result : text)      (* all returned; [str(result)] *)
  | AgentRaised (e : string)     (* one of them raised an [Exception]; [str(e)] *)
  | AgentRaisedBase (e : string).
      (* a [BaseException] that is no [Exception] came out of an [await], as
         [asyncio.CancelledError] does: no [except] clause matches *)

(** An agent, seen through [agent_context]: context, task description, task id. *)
Definition Agent : Type := Context → string → string → AgentOutcome.

(** [f"{agent_name}"] for [task.get("agent")] *)
Definition show_agent (agent_name : option string) : string :=
  default "None" agent_name.

(** [_run_agent_task_async], for a task whose ["agent"] is a string or
    absent, as [Task] has it: what [gather] reports for the coroutine, and the
    lines the coroutine logs with [logger.error].  The membership test comes
    before the [try]; inside it every [Exception] of the agent is caught and
    turned into a dict with ["success": False], and a [BaseException] leaves
    the coroutine. *)
Definition _run_agent_task_async (agents : gmap string Agent)
    (t : Task) (context : Context) : GatherResult * list string :=
  let id := default "unknown" (task_id t) in
  let agent_name := agent t in
  let task_desc := default "" (task t) in
  match agent_name ≫= (λ n, agents !! n) with
  | None =>
      (GReturned (Dict (mkResult agent_name None false None (Some "Agent not found") None)),
       ["Unknown agent: " +:+ show_agent agent_name])
  | Some a =>
      match a context task_desc id with
      | AgentOk result =>
          (GReturned (Dict (mkResult agent_name (Some task_desc) true
                              (Some (take 200 result)) None (Some id))),
           [])
      | AgentRaised e =>
          (GReturned (Dict (mkResult agent_name (Some task_desc) false None (Some e)
                              (Some id))),
           ["Agent " +:+ show_agent agent_name +:+ " task " +:+ id +:+ " error: " +:+ e])
      | AgentRaisedBase e => (GReturned (BaseExceptionObject e), [])
      end
  end.

(** [self._run_agent_task_async(task, context)] as an element of the result
    list of [gather]. *)
Definition gathered (agents : gmap string Agent) (t : Task) (context : Context)
    : GatherResult :=
  (_run_agent_task_async agents t context).1.

(** [l[:stop]] *)
Definition py_slice_to {A} (l : list A) (stop : Z) : list A :=
  if decide (0 ≤ stop) then take (Z.to_nat stop) l
  else take (Z.to_nat (Z.of_nat (length l) + stop)) l.

(** The variables of the [while pending] loop, and what the loop itself
    logs with [logger.error]. *)
Record LoopState := mkLoop {
  executed : gset string;
  pending : list string;     (* the set [pending], in its iteration order *)
  context : Context;
  log : list string
}.

(** How a run of [_execute_tasks_with_parallel] ends. *)
Inductive Run :=
  | OutOfFuel                 (* the loop is still going *)
  | KeyError                  (* [task_map[task_id]] or [dependencies[task_id]] missing *)
  | Drained (st : LoopState)  (* [while pending] found [pending] empty *)
  | Stalled (st : LoopState). (* [break]: no ready task *)

Definition no_ready_msg : string :=
  "No ready tasks found - possible circular dependency".

Section scheduler.
(** [set_iter keys] is the order in which Python iterates over
    [set(keys)]: some enumeration of the keys, fixed by the hash values.
    Discarding an element leaves the order of the others as it is. *)
Variable set_iter : list string → list string.
(** [self._run_agent_task_async(task, context)] as [gather] reports it. *)
Variable run_task : Task → Context → GatherResult.
(** [self.max_parallel] *)
Variable max_parallel : Z.

Definition get_task_id (t : Task) : string := default "" (task_id t).

(** [{task.get("task_id", ""): task for task in tasks}] *)
Definition build_task_map (tasks : list Task) : list (string * Task) :=
  foldl (λ d t, PyDict.set (get_task_id t) t d) ([] : list (string * Task)) tasks.

(** The first [for] loop: [dependencies[task_id] = set(task.get("dependencies", []))].
    ([reverse_deps], filled by the same loop, is never read.) *)
Definition build_dependencies (tasks : list Task) : gmap string (gset string) :=
  foldl (λ d t, <[get_task_id t := list_to_set (default [] (dependencies t))]> d) ∅ tasks.

Section loop.
Variable task_map : list (string * Task).
Variable deps : gmap string (gset string).

(** [dependencies[task_id].issubset(executed)] *)
Definition is_ready (executed : gset string) (id : string) : option bool :=
  d ← deps !! id; Some (bool_decide (d ⊆ executed)).

(** [[task_id for task_id in pending if dependencies[task_id].issubset(executed)]] *)
Fixpoint ready_tasks (executed : gset string) (pending : list string)
    : option (list string) :=
  match pending with
  | [] => Some []
  | id :: rest =>
      match is_ready executed id, ready_tasks executed rest with
      | Some true, Some r => Some (id :: r)
      | Some false, Some r => Some r
      | _, _ => None
      end
  end.

(** The body of [for task_id, result in zip(batch, results)]. *)
Definition process_result (st : LoopState) (x : string * GatherResult) : LoopState :=
  let '(id, result) := x in
  let '(ctx, lg) :=
    match result with
    | GException e =>
        (mkContext (completed_tests (context st))
                   (failed_tests (context st) ++ [mkFailed id e]),
         log st ++ ["Task " +:+ id +:+ " failed: " +:+ e])
    | GReturned r =>
        (mkContext (completed_tests (context st) ++ [r]) (failed_tests (context st)),
         log st)
    end in
  mkLoop (executed st ∪ {[id]}) (filter (λ p, p ≠ id) (pending st)) ctx lg.

(** The batch of one round: [ready_tasks[:min(len(ready_tasks), max_parallel)]]. *)
Definition select_batch (ready : list string) : list string :=
  py_slice_to ready (Z.min (Z.of_nat (length ready)) max_parallel).

(** One iteration of the loop body, when [ready_tasks] is not empty. *)
Definition round (st : LoopState) (ready : list string) : option LoopState :=
  let batch := select_batch ready in
  results ← mapM (λ id, t ← PyDict.get id task_map;
                        Some (run_task t (context st))) batch;
  Some (foldl process_result st (zip batch results)).

Fixpoint loop (fuel : nat) (st : LoopState) : Run :=
  match fuel with
  | O => OutOfFuel
  | S fuel' =>
      match pending st with
      | [] => Drained st
      | _ :: _ =>
          match ready_tasks (executed st) (pending st) with
          | None => KeyError
          | Some [] =>
              Stalled (mkLoop (executed st) (pending st) (context st)
                              (log st ++ [no_ready_msg]))
          | Some ready =>
              match round st ready with
              | None => KeyError
              | Some st' => loop fuel' st'
              end
          end
      end
  end.
End loop.

(** [_execute_tasks_with_parallel(tasks, context)] *)
Definition _execute_tasks_with_parallel (fuel : nat) (tasks : list Task)
    (ctx : Context) : Run :=
  let task_map := build_task_map tasks in
  let deps := build_dependencies tasks in
  loop task_map deps fuel
       (mkLoop ∅ (set_iter (PyDict.keys task_map)) ctx []).

(** The batch of the first round: what [ready_tasks[:batch_size]] is when the
    loop is entered. *)
Definition first_batch (tasks : list Task) : option (list string) :=
  ready ← ready_tasks (build_dependencies tasks) ∅
             (set_iter (PyDict.keys (build_task_map tasks)));
  Some (select_batch ready).
End scheduler.

(** The state in which a run ended, if it ended. *)
Definition final_state (r : Run) : option LoopState :=
  match r with
  | Drained st | Stalled st => Some st
  | OutOfFuel | KeyError => None
  end.

(** What the written specification asks of a batch: the ready tasks by
    ascending priority, ties in insertion order, cut at the ceiling. *)
Definition priority_of (tasks : list Task) (id : string) : Z :=
  default 0 (t ← PyDict.get id (build_task_map tasks); priority t).

Fixpoint insert_by (key : string → Z) (x : string) (l : list string) : list string :=
  match l with
  | [] => [x]
  | y :: l' => if decide (key x < key y) then x :: y :: l' else y :: insert_by key x l'
  end.

Definition spec_batch (tasks : list Task) (ceiling : nat) (ready_in_insertion_order : list string)
    : list string :=
  take ceiling (foldl (λ acc x, insert_by (priority_of tasks) x acc) []
                      ready_in_insertion_order).

(** [_execute_parallel_groups(groups, context)].  [context_tasks] is what
    [context.get("tasks")] finds: [None] when the context has no such key. *)
Section groups.
Variable run_task : Task → Context → GatherResult.
Variable context_tasks : option (list Task).

(** [next((t for t in context.get("tasks", []) if t.get("task_id") == task_id), None)] *)
Definition find_task (id : string) : option Task :=
  head (filter (λ t, task_id t = Some id) (default [] context_tasks)).

(** The body of [for task_id, result in zip(group, results)]. *)
Definition process_group_result (st : Context * list string)
    (x : string * GatherResult) : Context * list string :=
  let '(ctx, lg) := st in
  let '(id, result) := x in
  match result with
  | GException e =>
      (mkContext (completed_tests ctx) (failed_tests ctx ++ [mkFailed id e]),
       lg ++ ["Group task " +:+ id +:+ " failed: " +:+ e])
  | GReturned r =>
      (mkContext (completed_tests ctx ++ [r]) (failed_tests ctx), lg)
  end.

(** One group: the coroutines of the ids that name a task are gathered, and
    the results are zipped with the ids of the group. *)
Definition run_group (st : Context * list string) (group : list string)
    : Context * list string :=
  let found := omap find_task group in
  let results := (λ t, run_task t st.1) <$> found in
  foldl process_group_result st (zip group results).

Definition _execute_parallel_groups (groups : list (list string)) (ctx : Context)
    : Context * list string :=
  foldl run_group (ctx, []) groups.
End groups.

End Orchestrator.

(* ===================================================================== *)
(** ** apps/brain/src/agents/orchestrator.py *)
(* ===================================================================== *)

Module Sequential.

(** The part of [context] that [_execute_tasks] writes: here the failed
    tests are result dicts too. *)
Record Context := mkContext {
  completed_tests : list Orchestrator.ResultDict;
  failed_tests : list Orchestrator.ResultDict
}.

(** An agent, seen through [agent_context]: context and task description.
    Here [AgentOk result] stands for [think], [execute], [learn] and the slice
    [result[:200]] having returned, [result] being the string that [execute]
    gave. *)
Definition Agent : Type := Context → string → Orchestrator.AgentOutcome.

(** [t.get("priority", 0)] *)
Definition priority_key (t : Orchestrator.Task) : Z :=
  default 0 (Orchestrator.priority t).

(** [sorted(tasks, key=...)]: a stable sort, here by insertion from the right. *)
Fixpoint insert_task (t : Orchestrator.Task) (l : list Orchestrator.Task)
    : list Orchestrator.Task :=
  match l with
  | [] => [t]
  | u :: l' =>
      if decide (priority_key t ≤ priority_key u) then t :: u :: l'
      else u :: insert_task t l'
  end.

Definition sorted_by_priority (tasks : list Orchestrator.Task)
    : list Orchestrator.Task :=
  foldr insert_task [] tasks.

(** How a call ends: it returns a value, or a [BaseException] that no
    [except] clause matches leaves it. *)
Inductive Call (A : Type) :=
  | Returns (a : A)
  | Propagates (e : string).
Arguments Returns {A} a.
Arguments Propagates {A} e.

(** [_run_agent_task]; [name] is [agent.__class__.__name__], the key of the
    agent in [self.agents].  Beside the way the call ends, the lines it logs
    with [logger.error]. *)
Definition _run_agent_task (name : string) (a : Agent) (t : Orchestrator.Task)
    (context : Context) : Call Orchestrator.ResultDict * list string :=
  let task_desc := default "" (Orchestrator.task t) in
  match a context task_desc with
  | Orchestrator.AgentOk result =>
      (Returns (Orchestrator.mkResult (Some name) (Some task_desc) true
                  (Some (take 200 result)) None None),
       [])
  | Orchestrator.AgentRaised e =>
      (Returns (Orchestrator.mkResult (Some name) None false None (Some e) None),
       ["Agent " +:+ name +:+ " error: " +:+ e])
  | Orchestrator.AgentRaisedBase e => (Propagates e, [])
  end.

(** What a call of [_execute_tasks] leaves: the context, which it changes in
    place, the lines logged, and the [BaseException] that left it, if any. *)
Record Run := mkRun {
  final_context : Context;
  run_log : list string;
  propagated : option string
}.

(** The loop of [_execute_tasks] over the sorted tasks. *)
Fixpoint run_tasks (agents : gmap string Agent) (l : list Orchestrator.Task)
    (context : Context) (lg : list string) : Run :=
  match l with
  | [] => mkRun context lg None
  | t :: rest =>
      (* agent_name = task.get("agent"); if agent_name in self.agents: *)
      match Orchestrator.agent t with
      | Some agent_name =>
          match agents !! agent_name with
          | Some a =>
              match _run_agent_task agent_name a t context with
              | (Returns result, lines) =>
                  if Orchestrator.r_success result
                  then run_tasks agents rest
                         (mkContext (completed_tests context ++ [result])
                                    (failed_tests context))
                         (lg ++ lines)
                  else run_tasks agents rest
                         (mkContext (completed_tests context)
                                    (failed_tests context ++ [result]))
                         (lg ++ lines)
              | (Propagates e, lines) => mkRun context (lg ++ lines) (Some e)
              end
          | None => run_tasks agents rest context lg
          end
      | None => run_tasks agents rest context lg
      end
  end.

(** [_execute_tasks(tasks, context)] *)
Definition _execute_tasks (agents : gmap string Agent)
    (tasks : list Orchestrator.Task) (context : Context) : Run :=
  run_tasks agents (sorted_by_priority tasks) context [].

End Sequential.

(* ===================================================================== *)
(** ** apps/brain/src/agents/merging_agent.py *)
(* ===================================================================== *)

Module Merging.

(** The JSON-like values of a result payload.  Only a nested dict's content
    matters here ([update] and equality), so it is a finite map. *)
Inductive value :=
  | VNone
  | VBool (b : bool)
  | VInt (z : Z)
  | VStr (s : string)
  | VList (l : list value)
  | VDict (d : gmap string value).

(** An entry of [self.agent_results]; [results] is the payload dict, in its
    iteration order. *)
Record AgentData := mkAgentData {
  results : list (string * value);
  collected_at : Z;
  status : string
}.

(** An entry of [self.conflicts]. *)
Record Conflict := mkConflict {
  conflict_id : string;
  timestamp : Z;
  conflict_type : string;
  agents : list string;
  details : string;
  resolution : option string;
  resolved_by : option string
}.

(** The dict built by [merge_results]. *)
Record MergedResults := mkMerged {
  m_session_id : string;
  merged_at : Z;
  agents_participated : list string;
  total_agents : nat;
  merged_data : gmap string value;
  conflicts_resolved : nat;
  total_conflicts : nat
}.

(** [class MergingAgent]; [error_log] stands for what went to
    [self.error_logger.log_error]. *)
Record MergingAgent := mkAgent {
  session_id : string;
  agent_results : list (string * AgentData);
  conflicts : list Conflict;
  merged_results : option MergedResults;
  error_log : list (string * list string * string)
}.

(** [MergingAgent.__init__] *)
Definition new_agent (sid : string) : MergingAgent := mkAgent sid [] [] None [].

(** A call that returns, or raises [AttributeError]. *)
Inductive Result (A : Type) :=
  | Ok (a : A)
  | AttributeError.
Arguments Ok {A} a.
Arguments AttributeError {A}.

(** [collect_agent_results] *)
Definition collect_agent_results (agent_name : string) (res : list (string * value))
    (now : Z) (a : MergingAgent) : MergingAgent :=
  mkAgent (session_id a)
          (PyDict.set agent_name (mkAgentData res now "collected") (agent_results a))
          (conflicts a) (merged_results a) (error_log a).

(** [resolve_conflicts]: the one place where a conflict record is made.  The
    id (time stamp and uuid) is drawn by the call. *)
Definition resolve_conflicts (cid : string) (now : Z) (ctype agent1 agent2 dtl : string)
    (a : MergingAgent) : MergingAgent :=
  let conflict := mkConflict cid now ctype [agent1; agent2] dtl None None in
  mkAgent (session_id a) (agent_results a) (conflicts a ++ [conflict])
          (merged_results a)
          (error_log a ++ [("Agent conflict: " +:+ ctype, [agent1; agent2], dtl)]).

(** Truth value of [c["resolution"]]: [None] and the empty string are false. *)
Definition is_resolved (c : Conflict) : bool :=
  match resolution c with
  | None | Some EmptyString => false
  | Some _ => true
  end.

(** The body of [for key, value in results.items()]. *)
Definition merge_key (md : gmap string value) (key : string) (v : value)
    : Result (gmap string value) :=
  (* if key not in merged_data: merged_data[key] = [] *)
  let md1 := match md !! key with Some _ => md | None => <[key := VList []]> md end in
  match v with
  | VList l =>
      (* merged_data[key].extend(value) *)
      match md1 !! key with
      | Some (VList e) => Ok (<[key := VList (e ++ l)]> md1)
      | _ => AttributeError
      end
  | VDict d =>
      let md2 := match md1 !! key with
                 | Some (VDict _) => md1
                 | _ => <[key := VDict ∅]> md1
                 end in
      (* merged_data[key].update(value) *)
      match md2 !! key with
      | Some (VDict e) => Ok (<[key := VDict (d ∪ e)]> md2)
      | _ => AttributeError
      end
  | _ => Ok (<[key := v]> md1)
  end.

(** The inner loop over one agent's payload. *)
Fixpoint merge_payload (md : gmap string value) (items : list (string * value))
    : Result (gmap string value) :=
  match items with
  | [] => Ok md
  | (key, v) :: rest =>
      match merge_key md key v with
      | Ok md' => merge_payload md' rest
      | AttributeError => AttributeError
      end
  end.

(** The outer loop over [self.agent_results.items()]. *)
Fixpoint merge_agents (md : gmap string value) (ars : list (string * AgentData))
    : Result (gmap string value) :=
  match ars with
  | [] => Ok md
  | (_, agent_data) :: rest =>
      match merge_payload md (results agent_data) with
      | Ok md' => merge_agents md' rest
      | AttributeError => AttributeError
      end
  end.

(** [merge_results]: returns the merged dict and leaves it in
    [self.merged_results]. *)
Definition merge_results (now : Z) (a : MergingAgent)
    : Result (MergedResults * MergingAgent) :=
  match merge_agents ∅ (agent_results a) with
  | Ok md =>
      let r := mkMerged (session_id a) now (PyDict.keys (agent_results a))
                        (length (agent_results a)) md
                        (length (filter (λ c, is_resolved c = true) (conflicts a)))
                        (length (conflicts a)) in
      Ok (r, mkAgent (session_id a) (agent_results a) (conflicts a) (Some r) (error_log a))
  | AttributeError => AttributeError
  end.

(** The dict built by [prioritize_results]. *)
Record Prioritized := mkPrioritized {
  p_session_id : string;
  prioritized_at : Z;
  priority_order : list string;
  final_results : list (string * list (string * value))
}.

(** [prioritize_results(priority_order)] *)
Definition prioritize_results (order : list string) (now : Z) (a : MergingAgent)
    : Prioritized :=
  (* for agent in priority_order: if agent in self.agent_results: ... *)
  let first :=
    foldl (λ fr agent,
             match PyDict.get agent (agent_results a) with
             | Some data => PyDict.set agent (results data) fr
             | None => fr
             end) ([] : list (string * list (string * value))) order in
  (* for agent in self.agent_results: if agent not in priority_order: ... *)
  let all :=
    foldl (λ fr x,
             if decide (x.1 ∈ order) then fr
             else match PyDict.get x.1 (agent_results a) with
                  | Some data => PyDict.set x.1 (results data) fr
                  | None => fr
                  end) first (agent_results a) in
  mkPrioritized (session_id a) now order all.

(** A payload as a map from its keys. *)
Definition payload_map (p : list (string * value)) : gmap string value :=
  list_to_map p.

Definition both_list_like (e v : value) : Prop :=
  match e, v with VList _, VList _ => True | _, _ => False end.
Definition both_map_like (e v : value) : Prop :=
  match e, v with VDict _, VDict _ => True | _, _ => False end.
Definition list_like (v : value) : Prop :=
  match v with VList _ => True | _ => False end.

End Merging.

(* ===================================================================== *)
(** ** Properties of the task manager *)
(* ===================================================================== *)

Module TaskManagerSpec.
Import TaskManager.

(** Number of [_execute_task] coroutines admitted and not yet over. *)
Definition is_awaiting (kv : string * Phase) : Prop :=
  match kv.2 with Awaiting _ => True | _ => False end.

#[global] Instance is_awaiting_dec kv : Decision (is_awaiting kv).
Proof. unfold is_awaiting. destruct (kv.2); apply _. Defined.

Definition in_flight (m : TaskManager) : nat :=
  size (filter is_awaiting (executions m)).

(** Invariants of the store. *)
Record wf (m : TaskManager) : Prop := mkWf {
  wf_id : ∀ k t, objects m !! k = Some t → task_id t = k;
  wf_nodup : NoDup (tasks m);
  wf_exec : ∀ k, is_Some (executions m !! k) → is_Some (objects m !! k);
  wf_count : running_tasks m = Z.of_nat (in_flight m)
}.

Lemma run_events_ind (P : TaskManager → Prop) :
  (∀ m ev m', P m → exec_event ev m = Some m' → P m') →
  ∀ evs m m', P m → run_events evs m = Some m' → P m'.
Proof.
  intros Hstep evs. induction evs as [|ev evs IH]; intros m m' Hm Hrun; simpl in Hrun.
  - by inversion Hrun; subst.
  - destruct (exec_event ev m) as [m1|] eqn:E; [|done]. eauto.
Qed.

Lemma reachable_ind (c : Z) (P : TaskManager → Prop) :
  P (init c) →
  (∀ m ev m', P m → exec_event ev m = Some m' → P m') →
  ∀ m, reachable c m → P m.
Proof. intros H0 Hstep m [evs Hevs]. eapply run_events_ind; eauto. Qed.

(** What [cancel_task] and the loops of [shutdown] may do to a task object:
    only a RUNNING one changes, and neither its id nor its handlers do. *)
Definition obj_rel (t t' : BackgroundTask) : Prop :=
  task_id t' = task_id t ∧ cleanup_handlers t' = cleanup_handlers t ∧
  (status t ≠ RUNNING → t' = t).

Definition objs_rel (o o' : gmap string BackgroundTask) : Prop :=
  ∀ k, match o !! k, o' !! k with
       | Some t, Some t' => obj_rel t t'
       | None, None => True
       | _, _ => False
       end.

Lemma objs_rel_refl o : objs_rel o o.
Proof. intros k. destruct (o !! k); [|done]. by repeat split. Qed.

Lemma objs_rel_trans o1 o2 o3 : objs_rel o1 o2 → objs_rel o2 o3 → objs_rel o1 o3.
Proof.
  intros H12 H23 k. specialize (H12 k). specialize (H23 k).
  destruct (o1 !! k) as [t1|], (o2 !! k) as [t2|], (o3 !! k) as [t3|]; try done.
  destruct H12 as (Ha & Hb & Hc), H23 as (Ha' & Hb' & Hc').
  split; [congruence|]. split; [congruence|].
  intros Hs. rewrite (Hc Hs) in *. auto.
Qed.

Lemma cancel_task_frame id m :
  let m' := (cancel_task id m).2 in
  executions m' = executions m ∧ tasks m' = tasks m ∧
  max_concurrent_tasks m' = max_concurrent_tasks m ∧
  running_tasks m' = running_tasks m ∧ cleanup_calls m' = cleanup_calls m.
Proof.
  unfold cancel_task. destruct (tasks_get m id) as [t|]; [|done].
  destruct (decide (status t ≠ RUNNING)); done.
Qed.

Lemma cancel_task_objs id m :
  (∀ k t, objects m !! k = Some t → task_id t = k) →
  objs_rel (objects m) (objects (cancel_task id m).2).
Proof.
  intros Hid. unfold cancel_task, tasks_get.
  destruct (decide (id ∈ tasks m)); [|apply objs_rel_refl].
  destruct (objects m !! id) as [t|] eqn:E; [|apply objs_rel_refl].
  destruct (decide (status t ≠ RUNNING)) as [|Hr]; [apply objs_rel_refl|].
  simpl. intros k. destruct (decide (k = id)) as [->|Hne].
  - rewrite lookup_insert_eq, E. repeat split. intros; contradiction.
  - rewrite lookup_insert_ne by done. destruct (objects m !! k); [|done].
    by repeat split.
Qed.

Lemma objs_rel_id o o' :
  objs_rel o o' →
  (∀ k t, o !! k = Some t → task_id t = k) →
  (∀ k t, o' !! k = Some t → task_id t = k).
Proof.
  intros Hrel Hid k t' Hk. specialize (Hrel k). rewrite Hk in Hrel.
  destruct (o !! k) as [t|] eqn:E; [|done].
  destruct Hrel as (Ha & _). rewrite Ha. eauto.
Qed.

Lemma cancel_running_spec ids m :
  (∀ k t, objects m !! k = Some t → task_id t = k) →
  let m' := cancel_running m ids in
  objs_rel (objects m) (objects m') ∧
  executions m' = executions m ∧ tasks m' = tasks m ∧
  max_concurrent_tasks m' = max_concurrent_tasks m ∧
  running_tasks m' = running_tasks m ∧ cleanup_calls m' = cleanup_calls m.
Proof.
  revert m. induction ids as [|id ids IH]; intros m Hid; simpl.
  - split; [apply objs_rel_refl|done].
  - set (m1 := match objects m !! id with
               | Some t => if decide (status t = RUNNING)
                           then (cancel_task (task_id t) m).2 else m
               | None => m
               end).
    assert (objs_rel (objects m) (objects m1) ∧
            executions m1 = executions m ∧ tasks m1 = tasks m ∧
            max_concurrent_tasks m1 = max_concurrent_tasks m ∧
            running_tasks m1 = running_tasks m ∧ cleanup_calls m1 = cleanup_calls m)
      as (Hr & He & Ht & Hm & Hc & Hl).
    { subst m1. destruct (objects m !! id) as [t|]; [|split; [apply objs_rel_refl|done]].
      destruct (decide (status t = RUNNING)); [|split; [apply objs_rel_refl|done]].
      split; [by apply cancel_task_objs|apply cancel_task_frame]. }
    destruct (IH m1 (objs_rel_id _ _ Hr Hid)) as (Hr' & He' & Ht' & Hm' & Hc' & Hl').
    split; [eapply objs_rel_trans; eauto|].
    repeat split; congruence.
Qed.

Lemma cleanup_all_frame ids m :
  let m' := cleanup_all m ids in
  objects m' = objects m ∧ executions m' = executions m ∧ tasks m' = tasks m ∧
  max_concurrent_tasks m' = max_concurrent_tasks m ∧
  running_tasks m' = running_tasks m ∧
  shutdown_requested m' = shutdown_requested m.
Proof.
  revert m. induction ids as [|id ids IH]; intros m; simpl; [done|].
  set (m1 := match objects m !! id with Some t => _cleanup_task t m | None => m end).
  assert (objects m1 = objects m ∧ executions m1 = executions m ∧ tasks m1 = tasks m ∧
          max_concurrent_tasks m1 = max_concurrent_tasks m ∧
          running_tasks m1 = running_tasks m ∧
          shutdown_requested m1 = shutdown_requested m) as (H1 & H2 & H3 & H4 & H5 & H6).
  { subst m1. by destruct (objects m !! id). }
  destruct (IH m1) as (H1' & H2' & H3' & H4' & H5' & H6').
  repeat split; congruence.
Qed.

Lemma in_flight_insert_idle (E : gmap string Phase) id ph :
  ¬ is_awaiting (id, ph) →
  (∀ ph', E !! id = Some ph' → ¬ is_awaiting (id, ph')) →
  size (filter is_awaiting (<[id := ph]> E)) = size (filter is_awaiting E).
Proof. intros H1 H2. by rewrite map_filter_insert_not'. Qed.

Lemma in_flight_insert_admit (E : gmap string Phase) id t0 t1 :
  E !! id = Some (Scheduled t0) →
  size (filter is_awaiting (<[id := Awaiting t1]> E)) = S (size (filter is_awaiting E)).
Proof.
  intros HE. rewrite map_filter_insert_True by done.
  apply map_size_insert_None. apply map_lookup_filter_None. right.
  intros x Hx. rewrite HE in Hx. inversion Hx; subst. intros [].
Qed.

Lemma in_flight_insert_finish (E : gmap string Phase) id t0 :
  E !! id = Some (Awaiting t0) →
  S (size (filter is_awaiting (<[id := Ended]> E))) = size (filter is_awaiting E).
Proof.
  intros HE. rewrite map_filter_insert_False by (by intros []).
  rewrite map_filter_delete.
  assert (filter is_awaiting E !! id = Some (Awaiting t0)) as Hf.
  { by apply map_lookup_filter_Some. }
  rewrite map_size_delete_Some by eauto.
  assert (size (filter is_awaiting E) ≠ 0%nat); [|lia].
  intros Hz. apply map_size_empty_inv in Hz. rewrite Hz in Hf. by rewrite lookup_empty in Hf.
Qed.

Lemma objs_rel_is_Some o o' k : objs_rel o o' → is_Some (o !! k) → is_Some (o' !! k).
Proof.
  intros Hrel [t Ht]. specialize (Hrel k). rewrite Ht in Hrel.
  destruct (o' !! k); [eauto|done].
Qed.

Lemma shutdown_spec m :
  (∀ k t, objects m !! k = Some t → task_id t = k) →
  let m' := shutdown m in
  objs_rel (objects m) (objects m') ∧ executions m' = executions m ∧
  tasks m' = [] ∧ max_concurrent_tasks m' = max_concurrent_tasks m ∧
  running_tasks m' = running_tasks m.
Proof.
  intros Hid. unfold shutdown.
  destruct (cancel_running_spec (tasks m) m Hid) as (Hr & He & Ht & Hm & Hc & Hl).
  set (m1 := cancel_running m (tasks m)) in *.
  destruct (cleanup_all_frame (tasks (with_shutdown_requested true m1))
              (with_shutdown_requested true m1)) as (H1 & H2 & H3 & H4 & H5 & H6).
  simpl in *. rewrite H1, H2, H4, H5. by repeat split.
Qed.

Lemma set_fields_task_id s r e x y t :
  task_id (set_status s t) = task_id t ∧ task_id (set_result r t) = task_id t ∧
  task_id (set_error e t) = task_id t ∧ task_id (set_started_at x t) = task_id t ∧
  task_id (set_completed_at y t) = task_id t.
Proof. done. Qed.

Lemma apply_outcome_keeps timeout o t :
  task_id (apply_outcome timeout o t) = task_id t ∧
  cleanup_handlers (apply_outcome timeout o t) = cleanup_handlers t.
Proof. by destruct o. Qed.

Lemma wf_init c : wf (init c).
Proof.
  split; simpl.
  - intros k t Hk. by rewrite lookup_empty in Hk.
  - constructor.
  - intros k [x Hk]. by rewrite lookup_empty in Hk.
  - unfold in_flight. simpl. by rewrite map_filter_empty, map_size_empty.
Qed.

Lemma exec_event_wf m ev m' : wf m → exec_event ev m = Some m' → wf m'.
Proof.
  intros [Hid Hnd Hex Hcnt] Hev. destruct ev as [id nm hs to now|id now|id o now|id|now|];
    simpl in Hev.
  - (* create_task *)
    destruct (decide (id ∈ dom (objects m))) as [|Hfresh]; [done|].
    inversion Hev; subst m'; clear Hev. apply not_elem_of_dom in Hfresh.
    assert (executions m !! id = None) as HE.
    { destruct (executions m !! id) eqn:E; [|done].
      destruct (Hex id) as [x Hx]; [eauto|congruence]. }
    split; simpl.
    + intros k t Hk. destruct (decide (id = k)) as [->|Hne].
      * rewrite lookup_insert_eq in Hk. by inversion Hk.
      * rewrite lookup_insert_ne in Hk by done. eauto.
    + unfold dict_keys_set. destruct (decide (id ∈ tasks m)); [done|].
      apply NoDup_app. split; [done|]. split; [|apply NoDup_singleton].
      intros x Hx Hx'. apply list_elem_of_singleton in Hx'. by subst.
    + intros k Hk. destruct (decide (id = k)) as [->|Hne].
      * rewrite lookup_insert_eq. eauto.
      * rewrite lookup_insert_ne in Hk by done. rewrite lookup_insert_ne by done. eauto.
    + unfold in_flight; simpl. rewrite in_flight_insert_idle; [done|by intros []|].
      intros ph' Hph. congruence.
  - (* _execute_task: admission *)
    destruct (executions m !! id) as [[to| |]|] eqn:HE; try done.
    destruct (objects m !! id) as [t|] eqn:HO; [|done].
    destruct (decide (task_id t = id)) as [Ht|]; [|done].
    inversion Hev; subst m'; clear Hev. unfold execute_task_admit. rewrite Ht.
    destruct (decide (max_concurrent_tasks m ≤ running_tasks m)); split; simpl.
    + intros k t' Hk. destruct (decide (id = k)) as [->|Hne].
      * rewrite lookup_insert_eq in Hk. by inversion Hk.
      * rewrite lookup_insert_ne in Hk by done. eauto.
    + done.
    + intros k Hk. destruct (decide (id = k)) as [->|Hne].
      * rewrite lookup_insert_eq. eauto.
      * rewrite lookup_insert_ne in Hk by done. rewrite lookup_insert_ne by done. eauto.
    + unfold in_flight; simpl. rewrite in_flight_insert_idle; [done|by intros []|].
      intros ph' Hph. rewrite HE in Hph. inversion Hph. by intros [].
    + intros k t' Hk. destruct (decide (id = k)) as [->|Hne].
      * rewrite lookup_insert_eq in Hk. by inversion Hk.
      * rewrite lookup_insert_ne in Hk by done. eauto.
    + done.
    + intros k Hk. destruct (decide (id = k)) as [->|Hne].
      * rewrite lookup_insert_eq. eauto.
      * rewrite lookup_insert_ne in Hk by done. rewrite lookup_insert_ne by done. eauto.
    + unfold in_flight; simpl. rewrite (in_flight_insert_admit _ _ to) by done.
      unfold in_flight in Hcnt. lia.
  - (* _execute_task: end *)
    destruct (executions m !! id) as [[to|to|]|] eqn:HE; try done.
    destruct (objects m !! id) as [t|] eqn:HO; [|done].
    destruct (decide (task_id t = id)) as [Ht|]; [|done].
    inversion Hev; subst m'; clear Hev. unfold execute_task_finish. rewrite Ht.
    split; simpl.
    + intros k t' Hk. destruct (decide (id = k)) as [->|Hne].
      * rewrite lookup_insert_eq in Hk. inversion Hk. simpl.
        by rewrite (proj1 (apply_outcome_keeps _ _ _)).
      * rewrite lookup_insert_ne in Hk by done. eauto.
    + done.
    + intros k Hk. destruct (decide (id = k)) as [->|Hne].
      * rewrite lookup_insert_eq. eauto.
      * rewrite lookup_insert_ne in Hk by done. rewrite lookup_insert_ne by done. eauto.
    + unfold in_flight; simpl. pose proof (in_flight_insert_finish _ _ _ HE) as Hf.
      unfold in_flight in Hcnt. lia.
  - (* cancel_task *)
    inversion Hev; subst m'; clear Hev.
    destruct (cancel_task_frame id m) as (He & Ht & Hm & Hc & Hl).
    pose proof (cancel_task_objs id m Hid) as Hr.
    split.
    + eapply objs_rel_id; eauto.
    + by rewrite Ht.
    + intros k Hk. rewrite He in Hk. eapply objs_rel_is_Some; eauto.
    + unfold in_flight. by rewrite Hc, He.
  - (* _cleanup_stale_tasks *)
    inversion Hev; subst m'; clear Hev. split; simpl; try done.
    by apply NoDup_filter.
  - (* shutdown *)
    inversion Hev; subst m'; clear Hev.
    destruct (shutdown_spec m Hid) as (Hr & He & Ht & Hm & Hc).
    split.
    + eapply objs_rel_id; eauto.
    + rewrite Ht. constructor.
    + intros k Hk. rewrite He in Hk. eapply objs_rel_is_Some; eauto.
    + unfold in_flight. by rewrite Hc, He.
Qed.

Lemma reachable_wf c m : reachable c m → wf m.
Proof. apply reachable_ind; [apply wf_init|apply exec_event_wf]. Qed.



(** *** Fields of a record along its life *)

(** What the fields of a record are at each control point of its
    [_execute_task] coroutine. *)
Definition record_at (ph : option Phase) (t : BackgroundTask) : Prop :=
  match ph with
  | Some (Scheduled _) =>
      status t = PENDING ∧ result t = None ∧ error t = None ∧
      started_at t = None ∧ completed_at t = None
  | Some (Awaiting _) =>
      (status t = RUNNING ∧ error t = None ∨
       status t = CANCELLED ∧ error t = Some CancelledByUser) ∧
      result t = None ∧ is_Some (started_at t) ∧ completed_at t = None
  | Some Ended =>
      (status t = FAILED ∧ error t = Some MaxConcurrentReached ∧ result t = None ∧
       started_at t = None ∧ completed_at t = None) ∨
      (is_Some (started_at t) ∧ is_Some (completed_at t) ∧
       match status t with
       | PENDING => False
       | COMPLETED => error t = None ∨ error t = Some CancelledByUser
       | FAILED => result t = None ∧ ∃ e, error t = Some (Raised e)
       | TIMEOUT => result t = None ∧ ∃ to, error t = Some (TaskTimeout to)
       | RUNNING => result t = None ∧ error t = None
       | CANCELLED => result t = None ∧ error t = Some CancelledByUser
       end)
  | None => False
  end.

Definition records_ok (m : TaskManager) : Prop :=
  ∀ id t, objects m !! id = Some t → record_at (executions m !! id) t.

Lemma record_at_cancel ph t :
  record_at ph t → status t = RUNNING →
  record_at ph (set_error (Some CancelledByUser) (set_status CANCELLED t)).
Proof.
  destruct ph as [[to|to|]|]; simpl; [| | |done].
  - intros (Hs & _) Hr. congruence.
  - intros (Hs & Hres & Hst & Hc) _. split; [by right|done].
  - intros [(Hs & _)|(Hst & Hc & Hs)] Hr; [congruence|]. right.
    rewrite Hr in Hs. destruct Hs as [Hres _]. by repeat split.
Qed.

(** What [cancel_task] does to a task object, exactly. *)
Definition cancel_rel (t t' : BackgroundTask) : Prop :=
  t' = t ∨ (status t = RUNNING ∧
            t' = set_error (Some CancelledByUser) (set_status CANCELLED t)).

Definition objs_cancel_rel (o o' : gmap string BackgroundTask) : Prop :=
  ∀ k, match o !! k, o' !! k with
       | Some t, Some t' => cancel_rel t t'
       | None, None => True
       | _, _ => False
       end.

Lemma objs_cancel_rel_refl o : objs_cancel_rel o o.
Proof. intros k. destruct (o !! k); [by left|done]. Qed.

Lemma objs_cancel_rel_trans o1 o2 o3 :
  objs_cancel_rel o1 o2 → objs_cancel_rel o2 o3 → objs_cancel_rel o1 o3.
Proof.
  intros H12 H23 k. specialize (H12 k). specialize (H23 k).
  destruct (o1 !! k) as [t1|], (o2 !! k) as [t2|], (o3 !! k) as [t3|]; try done.
  destruct H12 as [->|[Hr ->]]; [done|].
  destruct H23 as [->|[Hr' _]]; [by right|done].
Qed.

Lemma cancel_task_cancel_rel id m :
  objs_cancel_rel (objects m) (objects (cancel_task id m).2).
Proof.
  unfold cancel_task, tasks_get.
  destruct (decide (id ∈ tasks m)); [|apply objs_cancel_rel_refl].
  destruct (objects m !! id) as [t|] eqn:E; [|apply objs_cancel_rel_refl].
  destruct (decide (status t ≠ RUNNING)) as [|Hr]; [apply objs_cancel_rel_refl|].
  apply dec_stable in Hr. simpl. intros k. destruct (decide (k = id)) as [->|Hne].
  - rewrite lookup_insert_eq, E. by right.
  - rewrite lookup_insert_ne by done. destruct (objects m !! k); [by left|done].
Qed.

Lemma cancel_running_cancel_rel ids m :
  objs_cancel_rel (objects m) (objects (cancel_running m ids)).
Proof.
  revert m. induction ids as [|id ids IH]; intros m; simpl.
  - apply objs_cancel_rel_refl.
  - eapply objs_cancel_rel_trans; [|apply IH].
    destruct (objects m !! id) as [t|]; [|apply objs_cancel_rel_refl].
    destruct (decide (status t = RUNNING)); [|apply objs_cancel_rel_refl].
    apply cancel_task_cancel_rel.
Qed.

Lemma shutdown_cancel_rel m : objs_cancel_rel (objects m) (objects (shutdown m)).
Proof.
  unfold shutdown.
  destruct (cleanup_all_frame
              (tasks (with_shutdown_requested true (cancel_running m (tasks m))))
              (with_shutdown_requested true (cancel_running m (tasks m))))
    as (H1 & _).
  simpl in *. rewrite H1. apply cancel_running_cancel_rel.
Qed.

Lemma records_ok_rel m m' :
  records_ok m → executions m' = executions m →
  objs_cancel_rel (objects m) (objects m') → records_ok m'.
Proof.
  intros Hok He Hrel id t' Ht'. specialize (Hrel id). rewrite Ht' in Hrel.
  destruct (objects m !! id) as [t|] eqn:Ht; [|done]. rewrite He.
  destruct Hrel as [->|[Hr ->]]; [by apply Hok|].
  apply record_at_cancel; [by apply Hok|done].
Qed.

Lemma exec_event_records_ok m ev m' :
  wf m → records_ok m → exec_event ev m = Some m' → records_ok m'.
Proof.
  intros [Hid Hnd Hex Hcnt] Hok Hev.
  destruct ev as [id nm hs to now|id now|id o now|id|now|]; simpl in Hev.
  - destruct (decide (id ∈ dom (objects m))) as [|Hfresh]; [done|].
    inversion Hev; subst m'; clear Hev. intros k t Hk. simpl in *.
    destruct (decide (id = k)) as [->|Hne].
    + rewrite lookup_insert_eq in Hk. inversion Hk. by rewrite lookup_insert_eq.
    + rewrite lookup_insert_ne in Hk by done. rewrite lookup_insert_ne by done.
      by apply Hok.
  - destruct (executions m !! id) as [[to| |]|] eqn:HE; try done.
    destruct (objects m !! id) as [t|] eqn:HO; [|done].
    destruct (decide (task_id t = id)) as [Ht|]; [|done].
    inversion Hev; subst m'; clear Hev. unfold execute_task_admit. rewrite Ht.
    pose proof (Hok id t HO) as Hrec. rewrite HE in Hrec. simpl in Hrec.
    destruct Hrec as (Hs & Hres & Herr & Hst & Hc).
    destruct (decide (max_concurrent_tasks m ≤ running_tasks m));
      intros k t' Hk; simpl in *;
      (destruct (decide (id = k)) as [->|Hne];
       [rewrite lookup_insert_eq in Hk; inversion Hk; rewrite lookup_insert_eq; simpl
       |rewrite lookup_insert_ne in Hk by done; rewrite lookup_insert_ne by done;
        by apply Hok]).
    + left. by repeat split.
    + split; [by left|]. by repeat split.
  - destruct (executions m !! id) as [[to|to|]|] eqn:HE; try done.
    destruct (objects m !! id) as [t|] eqn:HO; [|done].
    destruct (decide (task_id t = id)) as [Ht|]; [|done].
    inversion Hev; subst m'; clear Hev. unfold execute_task_finish. rewrite Ht.
    pose proof (Hok id t HO) as Hrec. rewrite HE in Hrec. simpl in Hrec.
    destruct Hrec as (Hs & Hres & Hst & Hc).
    intros k t' Hk; simpl in *. destruct (decide (id = k)) as [->|Hne].
    + rewrite lookup_insert_eq in Hk; inversion Hk; rewrite lookup_insert_eq; simpl.
      right. destruct o as [v| |e|]; simpl.
      * split; [done|]. split; [eauto|].
        destruct Hs as [[_ ->]|[_ ->]]; eauto.
      * split; [done|]. split; [eauto|]. eauto.
      * split; [done|]. split; [eauto|]. eauto.
      * split; [done|]. split; [eauto|].
        destruct Hs as [[-> ->]|[-> ->]]; done.
    + rewrite lookup_insert_ne in Hk by done; rewrite lookup_insert_ne by done.
      by apply Hok.
  - inversion Hev; subst m'; clear Hev.
    apply (records_ok_rel m); [done|apply cancel_task_frame|apply cancel_task_cancel_rel].
  - inversion Hev; subst m'; clear Hev. done.
  - inversion Hev; subst m'; clear Hev.
    apply (records_ok_rel m); [done|by apply shutdown_spec|apply shutdown_cancel_rel].
Qed.

Lemma reachable_records_ok c m : reachable c m → wf m ∧ records_ok m.
Proof.
  apply (reachable_ind c (λ m, wf m ∧ records_ok m)).
  - split; [apply wf_init|]. intros id t Ht. simpl in Ht. by rewrite lookup_empty in Ht.
  - intros m0 ev m' [Hwf Hok] Hev. split; [by eapply exec_event_wf|].
    by eapply exec_event_records_ok.
Qed.









(** *** cancel_task *)

(** A record that was submitted and whose execution has not started yet. *)
Definition pending_manager : TaskManager :=
  (create_task "t1" "job" ["h"] None 0 (init 10)).2.

(** C6, as stated, fails: a Pending record is not cancelled; [cancel_task]
    returns False and leaves it Pending. *)
Lemma cancel_pending_is_refused :
  status_of pending_manager "t1" = Some PENDING ∧
  cancel_task "t1" pending_manager = (false, pending_manager).
Proof. split; vm_compute; reflexivity. Qed.

(** C6, amended.  [cancel_task] returns True exactly when the id is
    registered and its record is Running; the record then becomes Cancelled
    with the cancellation error and nothing else in the manager changes.  In
    every other case (Pending, Completed, Failed, Cancelled, TimedOut, unknown
    id) it returns False and the manager, hence the record, is unchanged. *)
Theorem cancel_task_only_running (id : string) (m : TaskManager) :
  ((cancel_task id m).1 = true ↔
     ∃ t, tasks_get m id = Some t ∧ status t = RUNNING) ∧
  (∀ t, tasks_get m id = Some t → status t = RUNNING →
     cancel_task id m =
       (true, with_objects
                (<[id := set_error (Some CancelledByUser) (set_status CANCELLED t)]>
                   (objects m)) m)) ∧
  ((cancel_task id m).1 = false → (cancel_task id m).2 = m).
Proof.
  unfold cancel_task. destruct (tasks_get m id) as [t|] eqn:E.
  - destruct (decide (status t ≠ RUNNING)) as [Hs|Hs]; simpl.
    + split; [|split; [|done]].
      * split; [done|]. intros (t' & Ht' & Hr). congruence.
      * intros t' Ht' Hr. congruence.
    + apply dec_stable in Hs. split; [|split; [|done]].
      * split; [eauto|done].
      * intros t' Ht' Hr. congruence.
  - simpl. split; [|split; [|done]].
    + split; [done|]. intros (t' & Ht' & _). done.
    + intros t' Ht'. done.
Qed.

(** *** Admission *)






(** *** Terminal states and cleanup *)

Lemma calls_for_cleanup id t m :
  calls_for id (_cleanup_task t m)
  = (calls_for id m + if decide (task_id t = id) then length (cleanup_handlers t) else 0)%nat.
Proof.
  unfold calls_for, _cleanup_task. simpl. rewrite filter_app, length_app. f_equal.
  destruct (decide (task_id t = id)) as [He|Hne];
    induction (cleanup_handlers t) as [|h hs IH]; try done;
    rewrite fmap_cons, filter_cons; simpl.
  - rewrite decide_True by done. simpl. by rewrite IH.
  - by rewrite decide_False.
Qed.

Lemma cleanup_all_calls ids m id t :
  (∀ k t, objects m !! k = Some t → task_id t = k) →
  NoDup ids → objects m !! id = Some t →
  calls_for id (cleanup_all m ids)
  = (calls_for id m + if decide (id ∈ ids) then length (cleanup_handlers t) else 0)%nat.
Proof.
  revert m. induction ids as [|k ids IH]; intros m Hid Hnd HO; simpl.
  - lia.
  - apply NoDup_cons in Hnd as [Hk Hnd].
    set (m1 := match objects m !! k with Some t => _cleanup_task t m | None => m end).
    assert (objects m1 = objects m) as Hobj.
    { subst m1. by destruct (objects m !! k). }
    assert (calls_for id m1
            = (calls_for id m + if decide (k = id) then length (cleanup_handlers t) else 0)%nat)
      as Hc.
    { subst m1. destruct (objects m !! k) as [tk|] eqn:Ek.
      - rewrite calls_for_cleanup, (Hid _ _ Ek).
        destruct (decide (k = id)) as [->|]; [|done]. congruence.
      - destruct (decide (k = id)) as [->|]; [congruence|lia]. }
    fold (cleanup_all m1 ids). rewrite (IH m1); [|by rewrite Hobj|done|by rewrite Hobj].
    rewrite Hc. destruct (decide (k = id)) as [->|Hne].
    + rewrite decide_False by done. rewrite decide_True by apply list_elem_of_here. lia.
    + destruct (decide (id ∈ ids)) as [Hin|Hin].
      * rewrite decide_True by (by apply list_elem_of_further). lia.
      * rewrite decide_False; [lia|]. intros [->|?]%elem_of_cons; done.
Qed.

(** The handlers called so far for task [id], in the order of the calls. *)
Definition calls_of (id : string) (m : TaskManager) : list string :=
  (filter (λ c, c.1 = id) (cleanup_calls m)).*2.

Lemma calls_of_cleanup id t m :
  calls_of id (_cleanup_task t m)
  = calls_of id m ++ if decide (task_id t = id) then cleanup_handlers t else [].
Proof.
  unfold calls_of, _cleanup_task. simpl. rewrite filter_app, fmap_app. f_equal.
  destruct (decide (task_id t = id)) as [He|Hne];
    induction (cleanup_handlers t) as [|h hs IH]; try done;
    rewrite fmap_cons, filter_cons; simpl.
  - rewrite decide_True by done. rewrite fmap_cons. simpl. by rewrite IH.
  - by rewrite decide_False.
Qed.

Lemma cleanup_all_calls_of ids m id t :
  (∀ k t, objects m !! k = Some t → task_id t = k) →
  NoDup ids → objects m !! id = Some t →
  calls_of id (cleanup_all m ids)
  = calls_of id m ++ if decide (id ∈ ids) then cleanup_handlers t else [].
Proof.
  revert m. induction ids as [|k ids IH]; intros m Hid Hnd HO; simpl.
  - by rewrite app_nil_r.
  - apply NoDup_cons in Hnd as [Hk Hnd].
    set (m1 := match objects m !! k with Some t => _cleanup_task t m | None => m end).
    assert (objects m1 = objects m) as Hobj.
    { subst m1. by destruct (objects m !! k). }
    assert (calls_of id m1
            = calls_of id m ++ if decide (k = id) then cleanup_handlers t else []) as Hc.
    { subst m1. destruct (objects m !! k) as [tk|] eqn:Ek.
      - rewrite calls_of_cleanup, (Hid _ _ Ek).
        destruct (decide (k = id)) as [->|]; [|done]. congruence.
      - destruct (decide (k = id)) as [->|]; [congruence|by rewrite app_nil_r]. }
    fold (cleanup_all m1 ids). rewrite (IH m1); [|by rewrite Hobj|done|by rewrite Hobj].
    rewrite Hc. destruct (decide (k = id)) as [->|Hne].
    + rewrite decide_False by done. rewrite decide_True by apply list_elem_of_here.
      by rewrite app_nil_r.
    + rewrite app_nil_r. destruct (decide (id ∈ ids)) as [Hin|Hin].
      * by rewrite decide_True by (by apply list_elem_of_further).
      * rewrite decide_False; [done|]. intros [->|?]%elem_of_cons; done.
Qed.

(** How many times an event runs the cleanup handlers of task [id]: once
    when its execution ends, once at a shutdown that finds it registered. *)
Definition cleanup_rounds (ev : Event) (m : TaskManager) (id : string) : nat :=
  match ev with
  | EvFinish id' _ _ => if decide (id' = id) then 1 else 0
  | EvShutdown => if decide (id ∈ tasks m) then 1 else 0
  | _ => 0
  end.

(** A task cancelled while its unit of work is still running, which then
    returns; then the manager is shut down. *)
Definition cancelled_then_returned : list Event :=
  [EvCreate "t" "job" ["h"] None 0; EvAdmit "t" 1; EvCancel "t";
   EvFinish "t" (Returned (Some "r")) 2].

(** C2, as stated, fails.  A record that became Cancelled becomes Completed
    when its unit of work returns; a shutdown after the end of a task runs its
    cleanup handler a second time; a task turned away at admission is Failed
    without its handler having run. *)
Lemma terminal_status_overwritten_cleanup_repeated :
  (∃ m1 m2 m3,
     run_events (take 3 cancelled_then_returned) (init 10) = Some m1 ∧
     status_of m1 "t" = Some CANCELLED ∧
     run_events cancelled_then_returned (init 10) = Some m2 ∧
     status_of m2 "t" = Some COMPLETED ∧ calls_for "t" m2 = 1%nat ∧
     exec_event EvShutdown m2 = Some m3 ∧ calls_for "t" m3 = 2%nat) ∧
  (∃ m, run_events [EvCreate "t" "job" ["h"] None 0; EvAdmit "t" 1] (init 0) = Some m ∧
        status_of m "t" = Some FAILED ∧ calls_for "t" m = 0%nat).
Proof.
  split.
  - do 3 eexists. split; [vm_compute; reflexivity|]. split; [reflexivity|].
    split; [vm_compute; reflexivity|]. split; [reflexivity|].
    split; [reflexivity|]. split; [vm_compute; reflexivity|]. reflexivity.
  - eexists. split; [vm_compute; reflexivity|]. split; reflexivity.
Qed.

Lemma exec_event_final_and_count (ceiling : Z) (m m' : TaskManager)
    (ev : Event) (id : string) (t : BackgroundTask) :
  reachable ceiling m → exec_event ev m = Some m' → objects m !! id = Some t →
  (executions m !! id = Some Ended → is_terminal (status t) = true →
     objects m' !! id = Some t ∧ executions m' !! id = Some Ended) ∧
  calls_for id m'
  = (calls_for id m + cleanup_rounds ev m id * length (cleanup_handlers t))%nat.
Proof.
  intros Hr Hev HO. pose proof (reachable_wf _ _ Hr) as [Hid Hnd Hex Hcnt].
  assert (status t ≠ RUNNING ∨ status t = RUNNING) as Hdec
    by (destruct (status t); (by left) || (by right)).
  destruct ev as [id' nm hs to now|id' now|id' o now|id'|now|]; simpl in Hev.
  - (* create_task *)
    destruct (decide (id' ∈ dom (objects m))) as [|Hfresh]; [done|].
    inversion Hev; subst m'; clear Hev. apply not_elem_of_dom in Hfresh.
    assert (id' ≠ id) by congruence. simpl.
    split; [|unfold calls_for; simpl; lia].
    intros HE _. by rewrite !lookup_insert_ne.
  - (* admission *)
    destruct (executions m !! id') as [[to| |]|] eqn:HE'; try done.
    destruct (objects m !! id') as [t'|] eqn:HO'; [|done].
    destruct (decide (task_id t' = id')) as [Ht|]; [|done].
    inversion Hev; subst m'; clear Hev. unfold execute_task_admit. rewrite Ht.
    destruct (decide (max_concurrent_tasks m ≤ running_tasks m)); simpl;
      (split; [|unfold calls_for; simpl; lia]);
      intros HE _; assert (id' ≠ id) by congruence; by rewrite !lookup_insert_ne.
  - (* end of the execution *)
    destruct (executions m !! id') as [[to|to|]|] eqn:HE'; try done.
    destruct (objects m !! id') as [t'|] eqn:HO'; [|done].
    destruct (decide (task_id t' = id')) as [Ht|]; [|done].
    inversion Hev; subst m'; clear Hev. unfold execute_task_finish. split.
    + intros HE _. assert (id' ≠ id) by congruence. simpl.
      rewrite Ht. by rewrite !lookup_insert_ne.
    + rewrite calls_for_cleanup. simpl.
      rewrite (proj1 (apply_outcome_keeps _ _ _)), (proj2 (apply_outcome_keeps _ _ _)), Ht.
      unfold calls_for at 1. simpl. fold (calls_for id m).
      destruct (decide (id' = id)) as [->|]; [|lia].
      assert (t' = t) as -> by congruence. lia.
  - (* cancel_task *)
    inversion Hev; subst m'; clear Hev.
    destruct (cancel_task_frame id' m) as (He & Ht & Hm & Hc & Hl).
    pose proof (cancel_task_objs id' m Hid id) as Hrel. rewrite HO in Hrel.
    split; [|unfold calls_for; rewrite Hl; simpl; lia].
    intros HE Hterm. rewrite He. split; [|done].
    destruct (objects (cancel_task id' m).2 !! id) as [t2|]; [|done].
    destruct Hrel as (_ & _ & Hsame). rewrite Hsame; [done|].
    intros Hs. by rewrite Hs in Hterm.
  - (* _cleanup_stale_tasks *)
    inversion Hev; subst m'; clear Hev. simpl.
    split; [done|unfold calls_for; simpl; lia].
  - (* shutdown *)
    inversion Hev; subst m'; clear Hev.
    destruct (shutdown_spec m Hid) as (Hrel & He & _). split.
    + intros HE Hterm. rewrite He. split; [|done].
      specialize (Hrel id). rewrite HO in Hrel.
      destruct (objects (shutdown m) !! id) as [t2|]; [|done].
      destruct Hrel as (_ & _ & Hsame). rewrite Hsame; [done|].
      intros Hs. by rewrite Hs in Hterm.
    + unfold shutdown.
      destruct (cancel_running_spec (tasks m) m Hid) as (Hr1 & He1 & Ht1 & Hm1 & Hc1 & Hl1).
      set (m1 := cancel_running m (tasks m)) in *.
      pose proof (Hr1 id) as Hrid. rewrite HO in Hrid.
      destruct (objects m1 !! id) as [t1|] eqn:HO1; [|done].
      destruct Hrid as (_ & Hh & _).
      change (calls_for id (with_tasks [] ?x)) with (calls_for id x).
      simpl. rewrite (cleanup_all_calls _ _ id t1); simpl.
      * rewrite Ht1, Hh. unfold calls_for at 1. simpl. rewrite Hl1.
        fold (calls_for id m). destruct (decide (id ∈ tasks m)); lia.
      * eapply objs_rel_id; eauto.
      * by rewrite Ht1.
      * done.
Qed.

Lemma exec_event_calls_of (ceiling : Z) (m m' : TaskManager)
    (ev : Event) (id : string) (t : BackgroundTask) :
  reachable ceiling m → exec_event ev m = Some m' → objects m !! id = Some t →
  calls_of id m'
  = calls_of id m ++ match cleanup_rounds ev m id with
                     | O => []
                     | S _ => cleanup_handlers t
                     end.
Proof.
  intros Hr Hev HO. pose proof (reachable_wf _ _ Hr) as [Hid Hnd Hex Hcnt].
  destruct ev as [id' nm hs to now|id' now|id' o now|id'|now|]; simpl in Hev.
  - destruct (decide (id' ∈ dom (objects m))) as [|Hfresh]; [done|].
    inversion Hev; subst m'; clear Hev. unfold calls_of. simpl. by rewrite app_nil_r.
  - destruct (executions m !! id') as [[to| |]|] eqn:HE'; try done.
    destruct (objects m !! id') as [t'|] eqn:HO'; [|done].
    destruct (decide (task_id t' = id')) as [Ht|]; [|done].
    inversion Hev; subst m'; clear Hev. unfold execute_task_admit.
    destruct (decide (max_concurrent_tasks m ≤ running_tasks m));
      unfold calls_of; simpl; by rewrite app_nil_r.
  - destruct (executions m !! id') as [[to|to|]|] eqn:HE'; try done.
    destruct (objects m !! id') as [t'|] eqn:HO'; [|done].
    destruct (decide (task_id t' = id')) as [Ht|]; [|done].
    inversion Hev; subst m'; clear Hev. unfold execute_task_finish.
    rewrite calls_of_cleanup. simpl.
    rewrite (proj1 (apply_outcome_keeps _ _ _)), (proj2 (apply_outcome_keeps _ _ _)), Ht.
    unfold calls_of at 1. simpl. fold (calls_of id m).
    destruct (decide (id' = id)) as [->|]; [|done].
    by assert (t' = t) as -> by congruence.
  - inversion Hev; subst m'; clear Hev.
    destruct (cancel_task_frame id' m) as (He & Ht & Hm & Hc & Hl).
    unfold calls_of. rewrite Hl. simpl. by rewrite app_nil_r.
  - inversion Hev; subst m'; clear Hev. unfold calls_of. simpl. by rewrite app_nil_r.
  - inversion Hev; subst m'; clear Hev. unfold shutdown.
    destruct (cancel_running_spec (tasks m) m Hid) as (Hr1 & He1 & Ht1 & Hm1 & Hc1 & Hl1).
    set (m1 := cancel_running m (tasks m)) in *.
    pose proof (Hr1 id) as Hrid. rewrite HO in Hrid.
    destruct (objects m1 !! id) as [t1|] eqn:HO1; [|done].
    destruct Hrid as (_ & Hh & _).
    change (calls_of id (with_tasks [] ?x)) with (calls_of id x).
    simpl. rewrite (cleanup_all_calls_of _ _ id t1); simpl.
    + rewrite Ht1, Hh. unfold calls_of at 1. simpl. rewrite Hl1.
      fold (calls_of id m). by destruct (decide (id ∈ tasks m)).
    + eapply objs_rel_id; eauto.
    + by rewrite Ht1.
    + done.
Qed.

(** The status that the end of an execution leaves, by the outcome of the
    unit of work: a [BaseException] passes both [except] clauses. *)
Definition status_after (o : Outcome) (before : TaskStatus) : TaskStatus :=
  match o with
  | Returned _ => COMPLETED
  | RaisedTimeoutError => TIMEOUT
  | RaisedException _ => FAILED
  | RaisedBaseException => before
  end.

Lemma finish_sets_status (ceiling : Z) (m m' : TaskManager)
    (id : string) (o : Outcome) (now : Z) (t : BackgroundTask) :
  reachable ceiling m → exec_event (EvFinish id o now) m = Some m' →
  objects m !! id = Some t →
  status t ∈ [RUNNING; CANCELLED] ∧
  ∃ t', objects m' !! id = Some t' ∧ executions m' !! id = Some Ended ∧
        status t' = status_after o (status t) ∧ completed_at t' = Some now ∧
        running_tasks m' = running_tasks m - 1.
Proof.
  intros Hr Hev HO. destruct (reachable_records_ok _ _ Hr) as [[Hid _ _ _] Hok].
  simpl in Hev. destruct (executions m !! id) as [[to|to|]|] eqn:HE; try done.
  rewrite HO in Hev. destruct (decide (task_id t = id)) as [Ht|]; [|done].
  inversion Hev; subst m'; clear Hev.
  specialize (Hok id t HO). rewrite HE in Hok. destruct Hok as (Hs & _).
  split; [set_unfold; naive_solver|].
  unfold execute_task_finish. rewrite Ht. simpl. rewrite !lookup_insert_eq.
  eexists. split; [reflexivity|]. split; [done|]. by destruct o.
Qed.

(** C2, amended.  Once the execution of a task is over and its record is in
    a terminal state, no event changes the record again.  While the execution
    is in flight the record is Running or Cancelled, and a Cancelled status is
    not final: the end of the execution sets the status by the outcome of the
    unit of work (Completed on return, TimedOut on timeout, Failed on an
    exception), whatever the status was.  The cleanup handlers of a task are
    called, each once and in the order of the list, whatever the outcome, by
    the event that ends its execution after admission, and once more in the
    same way by every shutdown that finds the record registered; no other
    event calls them. *)
Theorem ended_record_is_final_cleanup_counted (ceiling : Z) (m m' : TaskManager)
    (ev : Event) (id : string) (t : BackgroundTask) :
  reachable ceiling m → exec_event ev m = Some m' → objects m !! id = Some t →
  (executions m !! id = Some Ended → is_terminal (status t) = true →
     objects m' !! id = Some t ∧ executions m' !! id = Some Ended) ∧
  calls_for id m'
  = (calls_for id m + cleanup_rounds ev m id * length (cleanup_handlers t))%nat ∧
  calls_of id m'
  = calls_of id m ++ match cleanup_rounds ev m id with
                     | O => []
                     | S _ => cleanup_handlers t
                     end ∧
  (∀ o now, ev = EvFinish id o now →
     status t ∈ [RUNNING; CANCELLED] ∧
     ∃ t', objects m' !! id = Some t' ∧ executions m' !! id = Some Ended ∧
           status t' = status_after o (status t) ∧ completed_at t' = Some now).
Proof.
  intros Hr Hev HO.
  destruct (exec_event_final_and_count ceiling m m' ev id t Hr Hev HO) as [Hfinal Hcount].
  split; [exact Hfinal|]. split; [exact Hcount|].
  split; [by apply (exec_event_calls_of ceiling)|].
  intros o now ->.
  destruct (finish_sets_status ceiling m m' id o now t Hr Hev HO)
    as (Hs & t' & Ht' & He' & Hst & Hc & _).
  split; [exact Hs|]. by exists t'.
Qed.

Lemma ended_record_is_final_cleanup_counted_witness :
  ∃ m m', run_events cancelled_then_returned (init 10) = Some m ∧
          exec_event EvShutdown m = Some m' ∧
          status_of m' "t" = Some COMPLETED ∧
          calls_for "t" m' = (calls_for "t" m + 1)%nat.
Proof.
  eexists. eexists. split; [vm_compute; reflexivity|].
  split; [vm_compute; reflexivity|].
  match goal with
  | |- status_of ?m' _ = _ ∧ calls_for _ _ = (calls_for _ ?m + _)%nat =>
      destruct (ended_record_is_final_cleanup_counted 10 m m' EvShutdown "t"
                  (mkTask "t" "job" COMPLETED (Some "r") (Some CancelledByUser)
                          0 (Some 1) (Some 2) ["h"]))
        as (Hfinal & Hcalls & _)
  end.
  - exists cancelled_then_returned. vm_compute; reflexivity.
  - vm_compute; reflexivity.
  - vm_compute; reflexivity.
  - destruct Hfinal as [Hobj _]; [vm_compute; reflexivity|reflexivity|].
    split; [unfold status_of; by rewrite Hobj|]. exact Hcalls.
Defined.

(** *** get_task_manager *)

Lemma get_task_manager_calls_set args p addr :
  _global_task_manager p = Some addr →
  get_task_manager_calls args p = (replicate (length args) addr, p).
Proof.
  intros Hg. induction args as [|a args IH]; simpl; [done|].
  unfold get_task_manager. rewrite Hg. fold (get_task_manager_calls args p).
  by rewrite IH.
Qed.

(** C10.  The first call of [get_task_manager] builds a manager with its
    argument as ceiling and stores it in the module global; every call made
    once the global is set returns the stored reference and changes nothing,
    whatever its argument.  So all the calls of a process return one and the
    same manager, whose ceiling is the argument of the first call. *)
Theorem get_task_manager_is_memoized (first : Z) (later : list Z) :
  (∀ max_concurrent p addr,
     _global_task_manager p = Some addr →
     get_task_manager max_concurrent p = (addr, p)) ∧
  (get_task_manager first process_start
   = (0%nat, mkProcess [init first] (Some 0%nat))) ∧
  (∃ addr p,
     get_task_manager_calls (first :: later) process_start
       = (replicate (S (length later)) addr, p) ∧
     _global_task_manager p = Some addr ∧
     managers p !! addr = Some (init first) ∧
     max_concurrent_tasks <$> managers p !! addr = Some first).
Proof.
  split; [|split].
  - intros mc p addr Hg. unfold get_task_manager. by rewrite Hg.
  - reflexivity.
  - exists 0%nat, (mkProcess [init first] (Some 0%nat)). simpl.
    rewrite (get_task_manager_calls_set later _ 0%nat) by done.
    by repeat split.
Qed.

End TaskManagerSpec.

(* ===================================================================== *)
(** ** Properties of the scheduler *)
(* ===================================================================== *)

Module OrchestratorSpec.
Import Orchestrator.

Section pydict.
Context {V : Type}.
Implicit Types d : list (string * V).

Lemma get_set_eq k v d : PyDict.get k (PyDict.set k v d) = Some v.
Proof.
  induction d as [|[k' v'] d IH]; simpl.
  - by rewrite decide_True.
  - destruct (decide (k' = k)); simpl.
    + by rewrite decide_True.
    + by rewrite decide_False.
Qed.

Lemma get_set_ne k k' v d : k ≠ k' → PyDict.get k' (PyDict.set k v d) = PyDict.get k' d.
Proof.
  intros Hne. induction d as [|[k0 v0] d IH]; simpl.
  - by rewrite decide_False.
  - destruct (decide (k0 = k)) as [->|]; simpl.
    + by rewrite !decide_False.
    + destruct (decide (k0 = k')); [done|apply IH].
Qed.

Lemma keys_set k v d :
  PyDict.keys (PyDict.set k v d)
  = if decide (k ∈ PyDict.keys d) then PyDict.keys d else PyDict.keys d ++ [k].
Proof.
  unfold PyDict.keys. induction d as [|[k0 v0] d IH]; csimpl; [done|].
  destruct (decide (k0 = k)) as [->|Hne]; csimpl.
  - rewrite decide_True by apply list_elem_of_here. done.
  - rewrite IH. destruct (decide (k ∈ d.*1)) as [Hin|Hin].
    + rewrite decide_True by (by apply list_elem_of_further). done.
    + rewrite decide_False; [done|]. intros [->|?]%elem_of_cons; done.
Qed.

Lemma get_is_Some k d : is_Some (PyDict.get k d) ↔ k ∈ PyDict.keys d.
Proof.
  unfold PyDict.keys. induction d as [|[k0 v0] d IH]; csimpl.
  - split; [by intros [? ?]|by intros ?%not_elem_of_nil].
  - destruct (decide (k0 = k)) as [->|Hne].
    + split; [intros _; apply list_elem_of_here|eauto].
    + rewrite IH. rewrite elem_of_cons. naive_solver.
Qed.
End pydict.

(** The keys of a dict filled from a list of keys, in insertion order. *)
Definition insert_key (ks : list string) (k : string) : list string :=
  if decide (k ∈ ks) then ks else ks ++ [k].

Lemma insert_key_NoDup ks k : NoDup ks → NoDup (insert_key ks k).
Proof.
  intros Hnd. unfold insert_key. destruct (decide (k ∈ ks)); [done|].
  apply NoDup_app. split; [done|]. split; [|apply NoDup_singleton].
  intros x Hx ->%list_elem_of_singleton. done.
Qed.

Lemma insert_key_elem ks k x : x ∈ insert_key ks k ↔ x ∈ ks ∨ x = k.
Proof.
  unfold insert_key. destruct (decide (k ∈ ks)).
  - naive_solver.
  - rewrite elem_of_app, list_elem_of_singleton. done.
Qed.

Lemma build_task_map_keys_from (tasks : list Task) (d : list (string * Task)) :
  PyDict.keys (foldl (λ d t, PyDict.set (get_task_id t) t d) d tasks)
  = foldl insert_key (PyDict.keys d) (get_task_id <$> tasks).
Proof.
  revert d. induction tasks as [|t tasks IH]; intros d; simpl; [done|].
  rewrite IH. by rewrite keys_set.
Qed.

Lemma build_task_map_keys tasks :
  PyDict.keys (build_task_map tasks) = foldl insert_key [] (get_task_id <$> tasks).
Proof. apply (build_task_map_keys_from tasks []). Qed.

Lemma foldl_insert_key_spec ids ks :
  NoDup ks →
  NoDup (foldl insert_key ks ids) ∧
  ∀ x, x ∈ foldl insert_key ks ids ↔ x ∈ ks ∨ x ∈ ids.
Proof.
  revert ks. induction ids as [|i ids IH]; intros ks Hnd; simpl.
  - split; [done|]. intros x. rewrite elem_of_nil. naive_solver.
  - destruct (IH (insert_key ks i) (insert_key_NoDup _ _ Hnd)) as [H1 H2].
    split; [done|]. intros x. rewrite H2, insert_key_elem, elem_of_cons. naive_solver.
Qed.

Lemma build_dependencies_dom_from (tasks : list Task) (m : gmap string (gset string)) k :
  is_Some (foldl (λ d t, <[get_task_id t :=
                             list_to_set (default [] (dependencies t))]> d) m tasks !! k)
  ↔ is_Some (m !! k) ∨ k ∈ get_task_id <$> tasks.
Proof.
  revert m. induction tasks as [|t tasks IH]; intros m; simpl.
  - rewrite elem_of_nil. naive_solver.
  - rewrite IH, elem_of_cons. destruct (decide (get_task_id t = k)) as [->|Hne].
    + rewrite lookup_insert_eq. naive_solver.
    + rewrite lookup_insert_ne by done. naive_solver.
Qed.

Lemma build_dependencies_dom tasks k :
  is_Some (build_dependencies tasks !! k) ↔ k ∈ get_task_id <$> tasks.
Proof.
  unfold build_dependencies. rewrite build_dependencies_dom_from, lookup_empty.
  split; [intros [[? ?]|?]; done|auto].
Qed.

(** The entries that a batch and its gathered results add to the context. *)
Definition failed_of (pairs : list (string * GatherResult)) : list FailedEntry :=
  omap (λ x, match x.2 with GException e => Some (mkFailed x.1 e) | GReturned _ => None end)
       pairs.

Definition completed_of (pairs : list (string * GatherResult)) : list Completed :=
  omap (λ x, match x.2 with GReturned r => Some r | GException _ => None end) pairs.

Lemma ready_tasks_filter deps ex pend ready :
  ready_tasks deps ex pend = Some ready →
  ready = filter (λ id, is_ready deps ex id = Some true) pend.
Proof.
  revert ready. induction pend as [|id pend IH]; intros ready Hr; simpl in Hr.
  - by inversion Hr.
  - rewrite filter_cons.
    destruct (is_ready deps ex id) as [[|]|]; [| |done];
      destruct (ready_tasks deps ex pend) as [r|]; try done;
      specialize (IH r eq_refl); inversion Hr as [Heq]; rewrite <- IH.
    + by rewrite decide_True.
    + by rewrite decide_False.
Qed.

Lemma ready_tasks_is_Some deps ex pend :
  (∀ id, id ∈ pend → is_Some (deps !! id)) → is_Some (ready_tasks deps ex pend).
Proof.
  induction pend as [|id pend IH]; intros Hd; simpl; [eauto|].
  destruct (Hd id) as [d Hdid]; [apply list_elem_of_here|].
  unfold is_ready at 1. rewrite Hdid. simpl.
  destruct IH as [r Hr]; [intros; apply Hd; by apply list_elem_of_further|].
  rewrite Hr. destruct (bool_decide (d ⊆ ex)); eauto.
Qed.

Lemma is_ready_true deps ex id :
  is_ready deps ex id = Some true ↔ ∃ d, deps !! id = Some d ∧ d ⊆ ex.
Proof.
  unfold is_ready. destruct (deps !! id) as [d|]; simpl.
  - split.
    + intros H. inversion H as [Hb]. apply bool_decide_eq_true in Hb. eauto.
    + intros (d' & Hd' & Hsub). inversion Hd'; subst. f_equal. by apply bool_decide_eq_true.
  - split; [done|]. by intros (d & ? & _).
Qed.

Lemma py_slice_to_take {A} (l : list A) stop : ∃ n, py_slice_to l stop = take n l.
Proof. unfold py_slice_to. destruct (decide (0 ≤ stop)); eauto. Qed.

Lemma select_batch_nonneg max_parallel ready :
  0 ≤ max_parallel →
  select_batch max_parallel ready = take (Z.to_nat max_parallel) ready.
Proof.
  intros Hm. unfold select_batch, py_slice_to. rewrite decide_True by lia.
  destruct (decide (Z.of_nat (length ready) ≤ max_parallel)).
  - rewrite Z.min_l by lia. rewrite Nat2Z.id.
    rewrite !take_ge; [done|lia|lia].
  - by rewrite Z.min_r by lia.
Qed.

Lemma select_batch_nonempty max_parallel ready :
  1 ≤ max_parallel → ready ≠ [] → select_batch max_parallel ready ≠ [].
Proof.
  intros Hm Hr. rewrite select_batch_nonneg by lia.
  destruct ready as [|x ready]; [done|].
  destruct (Z.to_nat max_parallel) eqn:E; [lia|done].
Qed.

Lemma process_result_fields st id r :
  let st' := process_result st (id, r) in
  executed st' = executed st ∪ {[id]} ∧
  pending st' = filter (λ p, p ≠ id) (pending st) ∧
  completed_tests (context st')
    = completed_tests (context st) ++ completed_of [(id, r)] ∧
  failed_tests (context st') = failed_tests (context st) ++ failed_of [(id, r)].
Proof. destruct r; simpl; by rewrite ?app_nil_r. Qed.

Lemma fold_process_result pairs st :
  let st' := foldl process_result st pairs in
  executed st' = executed st ∪ list_to_set pairs.*1 ∧
  pending st' = filter (λ p, p ∉ pairs.*1) (pending st) ∧
  completed_tests (context st') = completed_tests (context st) ++ completed_of pairs ∧
  failed_tests (context st') = failed_tests (context st) ++ failed_of pairs.
Proof.
  revert st. induction pairs as [|[id r] pairs IH]; intros st st'; subst st'.
  - simpl. split; [set_solver|]. split; [|by rewrite !app_nil_r].
    symmetry. induction (pending st) as [|x l IHl]; [done|].
    rewrite filter_cons, decide_True by apply not_elem_of_nil. by f_equal.
  - change (foldl process_result st ((id, r) :: pairs))
      with (foldl process_result (process_result st (id, r)) pairs).
    destruct (IH (process_result st (id, r))) as (He & Hp & Hc & Hf).
    destruct (process_result_fields st id r) as (He1 & Hp1 & Hc1 & Hf1).
    rewrite He, Hp, Hc, Hf, He1, Hp1, Hc1, Hf1. clear.
    rewrite fmap_cons. cbn [fst].
    split; [set_solver|]. split.
    + rewrite list_filter_filter. apply list_filter_iff. intros x.
      rewrite not_elem_of_cons. naive_solver.
    + unfold completed_of, failed_of. rewrite <- !app_assoc, <- !omap_app. done.
Qed.

Lemma outcome_count pairs :
  (length (completed_of pairs) + length (failed_of pairs))%nat = length pairs.
Proof.
  unfold completed_of, failed_of.
  induction pairs as [|[id [r|e]] pairs IH]; csimpl; lia.
Qed.

Lemma failed_of_ids pairs f : f ∈ failed_of pairs → f_task_id f ∈ pairs.*1.
Proof.
  unfold failed_of. rewrite list_elem_of_omap. intros ([id r] & Hin & Hf).
  destruct r as [r|e]; simpl in Hf; [done|]. inversion Hf; subst; simpl.
  by apply (list_elem_of_fmap_2 fst) in Hin.
Qed.

Section loop_facts.
Variable run_task : Task → Context → GatherResult.
Variable max_parallel : Z.
Variable task_map : list (string * Task).
Variable deps : gmap string (gset string).
Variable ids : list string.
Variable ctx0 : Context.

(** The loop invariant: [pending] and [executed] split the ids of the
    graph; a task is executed only after its dependencies; the context has
    grown by one entry per executed task. *)
Record inv (st : LoopState) : Prop := mkInv {
  inv_nodup : NoDup (pending st);
  inv_split : ∀ id, id ∈ ids ↔ id ∈ pending st ∨ id ∈ executed st;
  inv_disj : ∀ id, id ∈ pending st → id ∉ executed st;
  inv_known : ∀ id, id ∈ pending st →
                    is_Some (deps !! id) ∧ is_Some (PyDict.get id task_map);
  inv_closed : ∀ id d, id ∈ executed st → deps !! id = Some d → d ⊆ executed st;
  inv_ctx : ∃ nc nf,
      completed_tests (context st) = completed_tests ctx0 ++ nc ∧
      failed_tests (context st) = failed_tests ctx0 ++ nf ∧
      (length nc + length nf)%nat = size (executed st) ∧
      Forall (λ f, f_task_id f ∈ executed st) nf
}.

Lemma round_is_Some st ready :
  inv st → ready_tasks deps (executed st) (pending st) = Some ready →
  is_Some (round run_task max_parallel task_map st ready).
Proof.
  intros Hinv Hready. unfold round.
  set (f := λ id, t ← PyDict.get id task_map; Some (run_task t (context st))).
  destruct (mapM_is_Some_2 f (select_batch max_parallel ready)) as [rs Hrs].
  - apply Forall_forall. intros id Hid.
    destruct (py_slice_to_take ready
                (Z.min (Z.of_nat (length ready)) max_parallel)) as [n Hn].
    unfold select_batch in Hid. rewrite Hn in Hid.
    apply subseteq_take in Hid. rewrite (ready_tasks_filter _ _ _ _ Hready) in Hid.
    apply list_elem_of_filter in Hid as [_ Hid].
    destruct (inv_known _ Hinv id Hid) as [_ [t Ht]].
    subst f. simpl. rewrite Ht. simpl. eauto.
  - subst f. rewrite Hrs. simpl. eauto.
Qed.

Lemma round_spec st ready st' :
  round run_task max_parallel task_map st ready = Some st' →
  let batch := select_batch max_parallel ready in
  ∃ results,
    length results = length batch ∧
    Forall2 (λ id r, ∃ t, PyDict.get id task_map = Some t ∧
                          r = run_task t (context st)) batch results ∧
    executed st' = executed st ∪ list_to_set batch ∧
    pending st' = filter (λ p, p ∉ batch) (pending st) ∧
    completed_tests (context st')
      = completed_tests (context st) ++ completed_of (zip batch results) ∧
    failed_tests (context st')
      = failed_tests (context st) ++ failed_of (zip batch results).
Proof.
  intros Hround batch. unfold round in Hround. fold batch in Hround.
  destruct (mapM _ batch) as [results|] eqn:Hm; [|done].
  simpl in Hround. inversion Hround; subst st'; clear Hround.
  apply mapM_Some in Hm. pose proof (Forall2_length _ _ _ Hm) as Hlen.
  exists results. split; [done|]. split.
  { eapply Forall2_impl; [exact Hm|]. intros id r Hf. simpl in Hf.
    destruct (PyDict.get id task_map) as [t|]; [|done].
    simpl in Hf. inversion Hf. eauto. }
  destruct (fold_process_result (zip batch results) st) as (He & Hp & Hc & Hf).
  rewrite fst_zip in He, Hp by lia. done.
Qed.

Lemma round_inv st ready st' :
  inv st → ready_tasks deps (executed st) (pending st) = Some ready →
  round run_task max_parallel task_map st ready = Some st' →
  inv st' ∧
  (1 ≤ max_parallel → ready ≠ [] → (length (pending st') < length (pending st))%nat).
Proof.
  intros Hinv Hready Hround.
  destruct (round_spec _ _ _ Hround)
    as (results & Hlen & HF & He & Hp & Hc & Hf).
  set (batch := select_batch max_parallel ready) in *.
  pose proof (ready_tasks_filter _ _ _ _ Hready) as Hfilter.
  assert (∀ id, id ∈ batch → id ∈ ready) as Hbr.
  { intros id Hid. subst batch. unfold select_batch in Hid.
    destruct (py_slice_to_take ready
                (Z.min (Z.of_nat (length ready)) max_parallel)) as [n Hn].
    rewrite Hn in Hid. by apply subseteq_take in Hid. }
  assert (∀ id, id ∈ ready ↔
                id ∈ pending st ∧ is_ready deps (executed st) id = Some true) as Hrd.
  { intros id. rewrite Hfilter, list_elem_of_filter. naive_solver. }
  assert (NoDup batch) as Hndb.
  { subst batch. unfold select_batch.
    destruct (py_slice_to_take ready
                (Z.min (Z.of_nat (length ready)) max_parallel)) as [n ->].
    eapply sublist_NoDup; [|apply sublist_take].
    rewrite Hfilter. apply NoDup_filter, Hinv. }
  destruct Hinv as [Hnd Hsplit Hdisj Hknown Hclosed (nc & nf & Hcc & Hff & Hcount & Hall)].
  split.
  - split.
    + rewrite Hp. by apply NoDup_filter.
    + intros id. rewrite Hsplit, Hp, He, list_elem_of_filter, elem_of_union,
        elem_of_list_to_set.
      destruct (decide (id ∈ batch)) as [Hin|Hin]; [|naive_solver].
      split; [naive_solver|]. intros _. left. by apply Hrd, Hbr.
    + intros id. rewrite Hp, He, list_elem_of_filter, elem_of_union, elem_of_list_to_set.
      intros [Hnb Hpend] [Hex|Hb]; [by eapply Hdisj|done].
    + intros id. rewrite Hp, list_elem_of_filter. intros [_ Hpend]. by apply Hknown.
    + intros id d. rewrite He, elem_of_union, elem_of_list_to_set.
      intros [Hex|Hb] Hd.
      * specialize (Hclosed id d Hex Hd). set_solver.
      * apply Hbr, Hrd in Hb as [_ Hb]. apply is_ready_true in Hb as (d' & Hd' & Hsub).
        assert (d' = d) as -> by congruence. set_solver.
    + exists (nc ++ completed_of (zip batch results)),
             (nf ++ failed_of (zip batch results)).
      rewrite Hc, Hf, Hcc, Hff, <- !app_assoc. split; [done|]. split; [done|]. split.
      * rewrite He, size_union.
        -- rewrite size_list_to_set by done. rewrite !length_app.
           pose proof (outcome_count (zip batch results)) as Hoc.
           rewrite length_zip in Hoc. lia.
        -- intros id Hex Hb. apply elem_of_list_to_set in Hb.
           apply Hbr, Hrd in Hb as [Hb _]. by eapply Hdisj.
      * apply Forall_app. split.
        -- eapply Forall_impl; [exact Hall|]. intros f Hfe. rewrite He. set_solver.
        -- apply Forall_forall. intros f Hfe. apply failed_of_ids in Hfe.
           rewrite fst_zip in Hfe by lia. rewrite He. set_solver.
  - intros Hmax Hne. pose proof (select_batch_nonempty _ _ Hmax Hne) as Hbne.
    fold batch in Hbne. destruct batch as [|b batch'] eqn:Eb; [done|].
    rewrite Hp. apply (length_filter_lt _ _ b).
    + apply Hrd, Hbr, list_elem_of_here.
    + intros Hnot. apply Hnot, list_elem_of_here.
Qed.

Lemma inv_log st lg :
  inv st → inv (mkLoop (executed st) (pending st) (context st) lg).
Proof. intros [H1 H2 H3 H4 H5 H6]. by split. Qed.

(** With a ceiling of at least one, every round takes a task out of
    [pending]: the loop is over after at most [length pending] rounds, and
    it ends either with [pending] empty or at the [break]. *)
Lemma loop_ends fuel st :
  inv st → 1 ≤ max_parallel → (length (pending st) < fuel)%nat →
  ∃ st', inv st' ∧
    ((loop run_task max_parallel task_map deps fuel st = Drained st' ∧
      pending st' = []) ∨
     (loop run_task max_parallel task_map deps fuel st = Stalled st' ∧
      pending st' ≠ [] ∧
      (∀ id, id ∈ pending st' → is_ready deps (executed st') id ≠ Some true) ∧
      ∃ lg, log st' = lg ++ [no_ready_msg])).
Proof.
  intros Hinv Hmax. revert st Hinv.
  induction fuel as [|fuel IH]; intros st Hinv Hfuel; [lia|].
  simpl. destruct (pending st) as [|p ps] eqn:Hpend.
  - exists st. split; [done|]. by left.
  - rewrite <- Hpend in *.
    destruct (ready_tasks_is_Some deps (executed st) (pending st)) as [ready Hready].
    { intros id Hid. by apply (inv_known _ Hinv). }
    rewrite Hready. destruct ready as [|r ready'] eqn:Hr.
    + eexists. split; [by apply inv_log|]. right. simpl.
      split; [done|]. split; [by rewrite Hpend|]. split; [|eauto].
      intros id Hid Hrd. apply ready_tasks_filter in Hready.
      assert (id ∈ filter (λ id, is_ready deps (executed st) id = Some true) (pending st))
        as Hin by (by apply list_elem_of_filter).
      rewrite <- Hready in Hin. by apply not_elem_of_nil in Hin.
    + rewrite <- Hr in *.
      destruct (round_is_Some _ _ Hinv Hready) as [st1 Hround]. rewrite Hround.
      destruct (round_inv _ _ _ Hinv Hready Hround) as [Hinv1 Hlt].
      apply IH; [done|]. assert (ready ≠ []) as Hne by (by rewrite Hr).
      specialize (Hlt Hmax Hne). lia.
Qed.

End loop_facts.

Lemma foldl_insert_key_length ids ks :
  (length (foldl insert_key ks ids) ≤ length ks + length ids)%nat.
Proof.
  revert ks. induction ids as [|i ids IH]; intros ks; simpl; [lia|].
  etrans; [apply IH|]. unfold insert_key. destruct (decide (i ∈ ks)); [lia|].
  rewrite length_app. simpl. lia.
Qed.

Lemma foldl_insert_key_elem ids ks x :
  x ∈ foldl insert_key ks ids ↔ x ∈ ks ∨ x ∈ ids.
Proof.
  revert ks. induction ids as [|i ids IH]; intros ks; simpl.
  - rewrite elem_of_nil. naive_solver.
  - rewrite IH, insert_key_elem, elem_of_cons. naive_solver.
Qed.

Lemma get_build_task_map tasks k :
  is_Some (PyDict.get k (build_task_map tasks)) ↔ k ∈ get_task_id <$> tasks.
Proof.
  rewrite get_is_Some, build_task_map_keys, foldl_insert_key_elem, elem_of_nil.
  naive_solver.
Qed.

(** *** Example graphs and runners *)

Definition node (id : string) (deps : list string) (prio : Z) : Task :=
  mkTask (Some id) (Some "NavigationAgent") (Some id) (Some prio) (Some deps).

(** A runner whose tasks all return. *)
Definition all_return (t : Task) (ctx : Context) : GatherResult :=
  GReturned (Dict (mkResult (agent t) (task t) true (Some (text_of "done")) None
                     (task_id t))).

(** A runner for which [gather] reports an exception for task [bad]. *)
Definition raises_for (bad : string) (t : Task) (ctx : Context) : GatherResult :=
  if decide (task_id t = Some bad) then GException "boom" else all_return t ctx.


Definition insertion_order (keys : list string) : list string := keys.

Definition empty_context : Context := mkContext [] [].


Definition cycle_AB : list Task :=
  [node "X" [] 1; node "A" ["B"] 1; node "B" ["A"] 1].

Definition cycle_CD : list Task :=
  [node "X" [] 1; node "C" ["D"] 1; node "D" ["C"] 1].

(** *** Failed tasks and their dependents *)





(** *** The stall *)

(** C5, as stated, fails.  Two graphs that stall on different pending sets
    leave the same context and the same log: one fixed error line that names
    no task.  The pending tasks are in neither [completed_tests] nor
    [failed_tests]; the outcome of X, run before the stall, is kept. *)
Lemma stalled_tasks_are_dropped_without_report :
  ∃ st1 st2,
    _execute_tasks_with_parallel insertion_order all_return 4 10
      cycle_AB empty_context = Stalled st1 ∧
    _execute_tasks_with_parallel insertion_order all_return 4 10
      cycle_CD empty_context = Stalled st2 ∧
    pending st1 = ["A"; "B"] ∧ pending st2 = ["C"; "D"] ∧
    context st1 = context st2 ∧ log st1 = log st2 ∧
    log st1 = [no_ready_msg] ∧
    failed_tests (context st1) = [] ∧
    dict_get r_task_id <$> completed_tests (context st1) = [Some (Some "X")].
Proof.
  do 2 eexists. split; [vm_compute; reflexivity|]. split; [vm_compute; reflexivity|].
  repeat split; reflexivity.
Qed.

(** C5, amended.  With a ceiling of at least one, the loop is over after at
    most one round per task.  It ends with [pending] empty, or at a round that
    finds no ready task: then one fixed error line is logged and the loop is
    left.  Either way, every task outside the remaining pending set has been
    dispatched exactly once and its outcome is in the context, after the
    entries that were there before; the remaining pending tasks are exactly
    those with a dependency that was never dispatched (still pending or absent
    from the graph), and they are recorded nowhere in the context. *)
Theorem stall_breaks_loop_keeps_outcomes (set_iter : list string → list string)
    (run_task : Task → Context → GatherResult) (max_parallel : Z) (fuel : nat)
    (tasks : list Task) (ctx : Context) :
  (∀ l, NoDup l → set_iter l ≡ₚ l) → 1 ≤ max_parallel → (length tasks < fuel)%nat →
  ∃ st,
    ((_execute_tasks_with_parallel set_iter run_task max_parallel fuel tasks ctx
        = Drained st ∧ pending st = []) ∨
     (_execute_tasks_with_parallel set_iter run_task max_parallel fuel tasks ctx
        = Stalled st ∧ pending st ≠ [] ∧ ∃ lg, log st = lg ++ [no_ready_msg])) ∧
    (∀ id, id ∈ get_task_id <$> tasks ↔ id ∈ pending st ∨ id ∈ executed st) ∧
    (∀ id, id ∈ pending st → id ∉ executed st) ∧
    (∀ id, id ∈ pending st ↔
           id ∈ get_task_id <$> tasks ∧
           ∃ d, build_dependencies tasks !! id = Some d ∧ ¬ d ⊆ executed st) ∧
    ∃ nc nf,
      completed_tests (context st) = completed_tests ctx ++ nc ∧
      failed_tests (context st) = failed_tests ctx ++ nf ∧
      (length nc + length nf)%nat = size (executed st) ∧
      Forall (λ f, f_task_id f ∈ executed st) nf.
Proof.
  intros Hperm Hmax Hfuel. unfold _execute_tasks_with_parallel.
  set (task_map := build_task_map tasks). set (deps := build_dependencies tasks).
  set (ids := get_task_id <$> tasks).
  set (st0 := mkLoop ∅ (set_iter (PyDict.keys task_map)) ctx []).
  assert (NoDup (PyDict.keys task_map)) as Hnd.
  { subst task_map. rewrite build_task_map_keys.
    apply foldl_insert_key_spec. constructor. }
  pose proof (Hperm _ Hnd) as Hp.
  assert (∀ id, id ∈ pending st0 ↔ id ∈ ids) as Hmem.
  { intros id. simpl. rewrite Hp. subst task_map ids.
    rewrite build_task_map_keys, foldl_insert_key_elem, elem_of_nil. naive_solver. }
  assert (inv task_map deps ids ctx st0) as Hinv.
  { split.
    - simpl. by rewrite Hp.
    - intros id. rewrite Hmem. simpl. set_solver.
    - intros id _. simpl. set_solver.
    - intros id Hid. apply Hmem in Hid. split.
      + by apply build_dependencies_dom.
      + by apply get_build_task_map.
    - intros id d Hid. simpl in Hid. set_solver.
    - exists [], []. simpl. rewrite !app_nil_r. by repeat split. }
  assert (length (pending st0) < fuel)%nat as Hlen.
  { simpl. rewrite Hp. subst task_map. rewrite build_task_map_keys.
    pose proof (foldl_insert_key_length (get_task_id <$> tasks) []) as Hl.
    rewrite length_fmap in Hl. simpl in Hl. lia. }
  destruct (loop_ends run_task max_parallel task_map deps ids ctx fuel st0 Hinv Hmax Hlen)
    as (st & [Hnd' Hsplit Hdisj Hknown Hclosed Hctx] & Hend).
  exists st. split; [|split; [done|split; [done|split; [|done]]]].
  - destruct Hend as [[Hrun Hpend]|(Hrun & Hpend & _ & Hlog)]; [by left|by right].
  - intros id. split.
    + intros Hid. split; [apply Hsplit; by left|].
      destruct (Hknown id Hid) as [[d Hd] _]. exists d. split; [done|].
      destruct Hend as [[_ Hpend]|(_ & _ & Hnr & _)].
      * rewrite Hpend in Hid. by apply not_elem_of_nil in Hid.
      * intros Hsub. apply (Hnr id Hid). apply is_ready_true. eauto.
    + intros [Hid (d & Hd & Hnsub)]. apply Hsplit in Hid as [Hid|Hid]; [done|].
      destruct Hnsub. by eapply Hclosed.
Qed.

Lemma stall_breaks_loop_keeps_outcomes_witness :
  ∃ st,
    ((_execute_tasks_with_parallel insertion_order all_return 4 10 cycle_AB empty_context
        = Drained st ∧ pending st = []) ∨
     (_execute_tasks_with_parallel insertion_order all_return 4 10 cycle_AB empty_context
        = Stalled st ∧ pending st ≠ [] ∧ ∃ lg, log st = lg ++ [no_ready_msg])) ∧
    (∀ id, id ∈ pending st → id ∉ executed st).
Proof.
  destruct (stall_breaks_loop_keeps_outcomes insertion_order all_return 4 10
              cycle_AB empty_context) as (st & Hend & _ & Hdisj & _).
  - intros l _. reflexivity.
  - lia.
  - simpl. lia.
  - exists st. split; [exact Hend|exact Hdisj].
Defined.

(** *** Batch selection *)

(** Two task lists with the same ids and dependencies, entry by entry. *)
Definition same_shape (t t' : Task) : Prop :=
  task_id t = task_id t' ∧ dependencies t = dependencies t'.

Lemma same_shape_ids tasks tasks' :
  Forall2 same_shape tasks tasks' → get_task_id <$> tasks = get_task_id <$> tasks'.
Proof.
  induction 1 as [|t t' tasks tasks' [Hid _] _ IH]; [done|].
  rewrite !fmap_cons. f_equal; [|done]. unfold get_task_id. by rewrite Hid.
Qed.

Lemma same_shape_dependencies tasks tasks' :
  Forall2 same_shape tasks tasks' → build_dependencies tasks = build_dependencies tasks'.
Proof.
  unfold build_dependencies. generalize (∅ : gmap string (gset string)) as m.
  intros m HF. revert m.
  induction HF as [|t t' tasks tasks' [Hid Hd] _ IH]; intros m; simpl; [done|].
  rewrite <- IH. do 2 f_equal; [unfold get_task_id|]; congruence.
Qed.

Lemma first_batch_same_shape set_iter max_parallel tasks tasks' :
  Forall2 same_shape tasks tasks' →
  first_batch set_iter max_parallel tasks = first_batch set_iter max_parallel tasks'.
Proof.
  intros HF. unfold first_batch.
  by rewrite !build_task_map_keys, (same_shape_ids _ _ HF), (same_shape_dependencies _ _ HF).
Qed.

Definition priorities_2_1 : list Task := [node "a" [] 2; node "b" [] 1].
Definition priorities_1_2 : list Task := [node "a" [] 1; node "b" [] 2].

(** C9, as stated, fails.  With a ceiling of one and tasks a (priority 2) and
    b (priority 1), a pending set iterated in insertion order gives the batch
    [a], where ascending priority asks for [b].  And whatever the iteration
    order of the set is, the batch is the same when the two priorities are
    swapped: it cannot be the one of lowest priority in both graphs. *)
Lemma batch_is_not_ordered_by_priority :
  first_batch insertion_order 1 priorities_2_1 = Some ["a"] ∧
  spec_batch priorities_2_1 1 ["a"; "b"] = ["b"] ∧
  ¬ ∃ set_iter,
      first_batch set_iter 1 priorities_2_1
        = Some (spec_batch priorities_2_1 1 ["a"; "b"]) ∧
      first_batch set_iter 1 priorities_1_2
        = Some (spec_batch priorities_1_2 1 ["a"; "b"]).
Proof.
  split; [vm_compute; reflexivity|]. split; [vm_compute; reflexivity|].
  intros (set_iter & H1 & H2).
  rewrite (first_batch_same_shape set_iter 1 priorities_2_1 priorities_1_2) in H1.
  - rewrite H1 in H2. vm_compute in H2. discriminate.
  - repeat constructor.
Qed.

(** C9, amended.  In every round the ready list is the pending set, in the
    order in which the set is iterated, restricted to the tasks whose
    dependencies are all in [executed]; with a ceiling that is not negative
    the batch is its first [max_parallel] elements, so at most [max_parallel]
    tasks.  Priorities are not consulted: two graphs with the same ids and
    dependencies get the same first batch. *)
Theorem batch_is_prefix_of_ready_list (set_iter : list string → list string)
    (max_parallel : Z) (deps : gmap string (gset string)) (executed : gset string)
    (pending ready : list string) (tasks tasks' : list Task) :
  0 ≤ max_parallel →
  ready_tasks deps executed pending = Some ready →
  ready = filter (λ id, is_ready deps executed id = Some true) pending ∧
  select_batch max_parallel ready = take (Z.to_nat max_parallel) ready ∧
  (length (select_batch max_parallel ready) ≤ Z.to_nat max_parallel)%nat ∧
  (Forall2 same_shape tasks tasks' →
   first_batch set_iter max_parallel tasks = first_batch set_iter max_parallel tasks').
Proof.
  intros Hmax Hready. split; [by apply ready_tasks_filter|].
  split; [by apply select_batch_nonneg|]. split.
  - rewrite select_batch_nonneg by done. rewrite length_take. lia.
  - apply first_batch_same_shape.
Qed.

Lemma batch_is_prefix_of_ready_list_witness :
  select_batch 2 ["A"; "B"; "C"] = ["A"; "B"] ∧
  (length (select_batch 2 ["A"; "B"; "C"]) ≤ 2)%nat.
Proof.
  destruct (batch_is_prefix_of_ready_list insertion_order 2
              (build_dependencies [node "A" [] 3; node "B" [] 2; node "C" [] 1]) ∅
              ["A"; "B"; "C"] ["A"; "B"; "C"] [] [])
    as (_ & Hb & Hl & _).
  - lia.
  - vm_compute; reflexivity.
  - split; [exact Hb|exact Hl].
Defined.

End OrchestratorSpec.

(* ===================================================================== *)
(** ** Properties of the merge *)
(* ===================================================================== *)

Module MergingSpec.
Import Merging.

(** A key met for the first time takes the incoming value, whatever its kind. *)
Lemma merge_key_fresh md key v :
  md !! key = None → merge_key md key v = Ok (<[key := v]> md).
Proof.
  intros Hk. unfold merge_key. rewrite Hk.
  destruct v; rewrite ?lookup_insert_eq, ?insert_insert_eq; try done.
  by rewrite (right_id_L ∅ (∪)).
Qed.

Lemma merge_payload_fresh (p : list (string * value)) md :
  NoDup p.*1 → (∀ k, k ∈ p.*1 → md !! k = None) →
  merge_payload md p = Ok (payload_map p ∪ md).
Proof.
  unfold payload_map. revert md.
  induction p as [|[k v] p IH]; intros md Hnd Hfresh; csimpl.
  - by rewrite (left_id_L ∅ (∪)).
  - apply NoDup_cons in Hnd as [Hk Hnd].
    rewrite merge_key_fresh by (apply Hfresh, list_elem_of_here).
    rewrite IH; [|done|].
    + f_equal. rewrite <- insert_union_l.
      by rewrite insert_union_r by (by apply not_elem_of_list_to_map_1).
    + intros k' Hk'. rewrite lookup_insert_ne by (intros ->; done).
      by apply Hfresh, list_elem_of_further.
Qed.

Lemma merge_results_conflicts now a r a' :
  merge_results now a = Ok (r, a') →
  conflicts a' = conflicts a ∧ total_conflicts r = length (conflicts a) ∧
  agent_results a' = agent_results a ∧ merged_results a' = Some r.
Proof.
  unfold merge_results. destruct (merge_agents ∅ (agent_results a)) as [md|]; [|done].
  intros H. by inversion H.
Qed.

(** *** Values of mixed kinds *)

Definition A_x1_B_x2 : MergingAgent :=
  collect_agent_results "B" [("x", VInt 2)] 1
    (collect_agent_results "A" [("x", VInt 1)] 0 (new_agent "s")).

Definition A_x1_B_xlist : MergingAgent :=
  collect_agent_results "B" [("x", VList [VInt 2])] 1
    (collect_agent_results "A" [("x", VInt 1)] 0 (new_agent "s")).

(** C3, as stated, fails.  Merging {A:{x:1}} and {B:{x:2}} gives x:2 and no
    conflict record at all; and when the later value is a list and the earlier
    one is not, the merge raises. *)
Lemma merge_records_no_conflict :
  (∃ r a', merge_results 2 A_x1_B_x2 = Ok (r, a') ∧
           merged_data r !! "x" = Some (VInt 2) ∧
           total_conflicts r = 0%nat ∧ conflicts a' = []) ∧
  merge_results 2 A_x1_B_xlist = AttributeError.
Proof.
  split; [|vm_compute; reflexivity].
  do 2 eexists. split; [vm_compute; reflexivity|]. by repeat split.
Qed.

(** C3, amended.  Whenever the existing merged value for a key and the
    incoming value are neither both list-like nor both map-like, and the
    incoming value is not list-like, the later arrival overwrites the earlier
    one.  The merge itself never makes a conflict record: the conflict list is
    what it was before, it is only extended by an explicit call of
    [resolve_conflicts], and the merged dict reports its length. *)
Theorem later_value_overwrites_no_conflict_recorded (md : gmap string value)
    (key : string) (e v : value) (now : Z) (a : MergingAgent) :
  md !! key = Some e →
  ¬ both_list_like e v → ¬ both_map_like e v → ¬ list_like v →
  merge_key md key v = Ok (<[key := v]> md) ∧
  (∀ r a', merge_results now a = Ok (r, a') →
           conflicts a' = conflicts a ∧ total_conflicts r = length (conflicts a)) ∧
  (∀ name res t, conflicts (collect_agent_results name res t a) = conflicts a) ∧
  (∀ cid t ctype a1 a2 dtl,
     conflicts (resolve_conflicts cid t ctype a1 a2 dtl a)
     = conflicts a ++ [mkConflict cid t ctype [a1; a2] dtl None None]).
Proof.
  intros Hk Hl Hm Hv. split; [|split; [|done]].
  - unfold merge_key. rewrite Hk.
    destruct v as [| | | |l|d]; try done.
    rewrite Hk. destruct e as [| | | |l'|d']; try (destruct Hm; exact I);
      by rewrite lookup_insert_eq, insert_insert_eq, (right_id_L ∅ (∪)).
  - intros r a' Hmerge. by destruct (merge_results_conflicts _ _ _ _ Hmerge) as (? & ? & _).
Qed.

Lemma later_value_overwrites_no_conflict_recorded_witness :
  merge_key {["x" := VInt 1]} "x" (VInt 2) = Ok (<["x" := VInt 2]> {["x" := VInt 1]}).
Proof.
  refine (proj1 (later_value_overwrites_no_conflict_recorded
                   {["x" := VInt 1]} "x" (VInt 1) (VInt 2) 0 (new_agent "s") _ _ _ _)).
  - reflexivity.
  - simpl. intros [].
  - simpl. intros [].
  - simpl. intros [].
Defined.

(** *** Disjoint payloads *)

(** C8.  Two outcomes collected from different sources, whose payloads have
    disjoint key sets, merge into the key-wise union of the payloads; no
    conflict is recorded; and the merged data are the same whichever of the
    two was collected first. *)
Theorem disjoint_payloads_merge_to_union (sid A B : string)
    (pa pb : list (string * value)) (ta tb ta' tb' now : Z) :
  A ≠ B → NoDup pa.*1 → NoDup pb.*1 → (∀ k, k ∈ pa.*1 → k ∉ pb.*1) →
  ∃ r1 a1 r2 a2,
    merge_results now
      (collect_agent_results B pb tb (collect_agent_results A pa ta (new_agent sid)))
      = Ok (r1, a1) ∧
    merge_results now
      (collect_agent_results A pa ta' (collect_agent_results B pb tb' (new_agent sid)))
      = Ok (r2, a2) ∧
    merged_data r1 = payload_map pa ∪ payload_map pb ∧
    merged_data r2 = merged_data r1 ∧
    total_conflicts r1 = 0%nat ∧ total_conflicts r2 = 0%nat ∧
    conflicts a1 = [] ∧ conflicts a2 = [].
Proof.
  intros Hne Hnda Hndb Hdisj.
  assert (payload_map pa ##ₘ payload_map pb) as Hmd.
  { apply map_disjoint_alt. intros k. destruct (decide (k ∈ pa.*1)) as [Hin|Hin].
    - right. by apply not_elem_of_list_to_map_1, Hdisj.
    - left. by apply not_elem_of_list_to_map_1. }
  unfold merge_results, collect_agent_results, new_agent. simpl.
  rewrite !decide_False by done. simpl.
  rewrite (merge_payload_fresh pa ∅) by (done || (intros; apply lookup_empty)).
  rewrite (merge_payload_fresh pb ∅) by (done || (intros; apply lookup_empty)).
  rewrite !(right_id_L ∅ (∪)).
  rewrite (merge_payload_fresh pb (payload_map pa)); [|done|].
  2: { intros k Hk. apply not_elem_of_list_to_map_1. intros Hin. by apply (Hdisj k). }
  rewrite (merge_payload_fresh pa (payload_map pb)); [|done|].
  2: { intros k Hk. by apply not_elem_of_list_to_map_1, Hdisj. }
  do 4 eexists. split; [reflexivity|]. split; [reflexivity|]. simpl.
  split; [symmetry; by apply map_union_comm|].
  split; [by apply map_union_comm|]. by repeat split.
Qed.

Lemma disjoint_payloads_merge_to_union_witness :
  ∃ r1 a1,
    merge_results 2
      (collect_agent_results "B" [("y", VInt 2)] 1
         (collect_agent_results "A" [("x", VInt 1)] 0 (new_agent "s")))
      = Ok (r1, a1) ∧
    merged_data r1 = payload_map [("x", VInt 1)] ∪ payload_map [("y", VInt 2)] ∧
    total_conflicts r1 = 0%nat.
Proof.
  destruct (disjoint_payloads_merge_to_union "s" "A" "B"
              [("x", VInt 1)] [("y", VInt 2)] 0 1 1 0 2)
    as (r1 & a1 & _ & _ & H1 & _ & Hd & _ & Hc & _).
  - discriminate.
  - apply (bool_decide_unpack _). vm_compute. exact I.
  - apply (bool_decide_unpack _). vm_compute. exact I.
  - intros k Hk. apply list_elem_of_singleton in Hk as ->.
    intros Hy. apply list_elem_of_singleton in Hy. discriminate.
  - exists r1, a1. by repeat split.
Defined.

End MergingSpec.

(* ===================================================================== *)
(** ** Further properties of the task manager *)
(* ===================================================================== *)

Module TaskManagerMore.
Import TaskManager TaskManagerSpec.

(** *** Fields of a record along its life *)

(** X1.  In every state the manager can reach, a record has a result only
    when it is Completed (a Completed record has none when its unit of work
    returned [None]), is Completed only once its execution is over, is Pending
    exactly when its execution has not started, has a completion time only
    once its execution is over, and carries an error whenever it is Failed,
    TimedOut or Cancelled; a Completed record carries either no error or the
    error of a cancellation. *)
Theorem record_fields_follow_lifecycle (ceiling : Z) (m : TaskManager)
    (id : string) (t : BackgroundTask) :
  reachable ceiling m → objects m !! id = Some t →
  (is_Some (result t) → status t = COMPLETED) ∧
  (status t = COMPLETED →
     executions m !! id = Some Ended ∧ is_Some (completed_at t)) ∧
  (status t = PENDING ↔ ∃ to, executions m !! id = Some (Scheduled to)) ∧
  (is_Some (completed_at t) → executions m !! id = Some Ended) ∧
  (status t ∈ [FAILED; TIMEOUT; CANCELLED] → is_Some (error t)) ∧
  (status t = COMPLETED → error t = None ∨ error t = Some CancelledByUser).
Proof.
  intros Hr Ht. destruct (reachable_records_ok _ _ Hr) as [_ Hok].
  specialize (Hok id t Ht).
  destruct t as [tid nm st res err cr sa ca hs]; simpl in *.
  destruct (executions m !! id) as [[to|to|]|]; simpl in Hok; [| | |done];
    destruct st; unfold is_Some in *; set_unfold;
    (split; [|split; [|split; [|split; [|split]]]]); naive_solver.
Qed.

(** A task cancelled while running, whose unit of work then returns. *)
Definition cancel_then_return : list Event :=
  [EvCreate "t" "job" ["h"] None 0; EvAdmit "t" 1; EvCancel "t";
   EvFinish "t" (Returned (Some "r")) 2].

Lemma record_fields_follow_lifecycle_witness :
  ∃ m t, run_events cancel_then_return (init 10) = Some m ∧
         objects m !! "t" = Some t ∧ result t = Some "r" ∧
         error t = Some CancelledByUser ∧ status t = COMPLETED.
Proof.
  eexists. eexists. split; [vm_compute; reflexivity|]. split; [vm_compute; reflexivity|].
  split; [reflexivity|]. split; [reflexivity|].
  match goal with
  | |- status ?t = _ =>
      refine (proj1 (record_fields_follow_lifecycle 10 _ "t" t _ _) _)
  end.
  - exists cancel_then_return. vm_compute; reflexivity.
  - vm_compute; reflexivity.
  - vm_compute. eauto.
Defined.

Lemma filter_none {A} (P : A → Prop) `{∀ x, Decision (P x)} (l : list A) :
  (∀ x, x ∈ l → ¬ P x) → filter P l = [].
Proof.
  induction l as [|x l IH]; intros Hl; [done|].
  rewrite filter_cons, decide_False by (apply Hl, list_elem_of_here).
  apply IH. intros y Hy. by apply Hl, list_elem_of_further.
Qed.

Lemma filter_all {A} (P : A → Prop) `{∀ x, Decision (P x)} (l : list A) :
  (∀ x, x ∈ l → P x) → filter P l = l.
Proof.
  induction l as [|x l IH]; intros Hl; [done|].
  rewrite filter_cons, decide_True by (apply Hl, list_elem_of_here).
  f_equal. apply IH. intros y Hy. by apply Hl, list_elem_of_further.
Qed.

(** *** Reaping *)

(** A record that [_cleanup_stale_tasks] drops at time [now]. *)
Definition stale (now : Z) (m : TaskManager) (id : string) : Prop :=
  ∃ t c, objects m !! id = Some t ∧ status t ∈ [COMPLETED; FAILED; CANCELLED] ∧
         completed_at t = Some c ∧ c < now - 3600.

Lemma is_stale_spec now t :
  is_stale now t = true ↔
  status t ∈ [COMPLETED; FAILED; CANCELLED] ∧ ∃ c, completed_at t = Some c ∧ c < now - 3600.
Proof.
  unfold is_stale. rewrite andb_true_iff, bool_decide_eq_true.
  destruct (completed_at t) as [c|]; [rewrite bool_decide_eq_true|]; naive_solver.
Qed.

Lemma stale_lookup now m id :
  from_option (is_stale now) false (objects m !! id) = true ↔ stale now m id.
Proof.
  unfold stale. destruct (objects m !! id) as [t|]; simpl.
  - rewrite is_stale_spec. naive_solver.
  - naive_solver.
Qed.

Lemma reap_tasks now m id :
  id ∈ tasks (_cleanup_stale_tasks now m) ↔ id ∈ tasks m ∧ ¬ stale now m id.
Proof.
  unfold _cleanup_stale_tasks. simpl.
  rewrite !list_elem_of_filter, stale_lookup. naive_solver.
Qed.

(** X2.  [_cleanup_stale_tasks] keeps, in their order, exactly the registered
    records that are not Completed, Failed or Cancelled with a completion time
    more than an hour old: a Pending, Running or TimedOut record is never
    dropped, whatever its age.  Task objects and the counter are untouched,
    and reaping twice at the same time is reaping once. *)
Theorem reap_drops_only_old_finished_records (now : Z) (m : TaskManager) :
  (∀ id, id ∈ tasks (_cleanup_stale_tasks now m) ↔ id ∈ tasks m ∧ ¬ stale now m id) ∧
  (∀ id t, id ∈ tasks m → objects m !! id = Some t →
           status t ∈ [PENDING; RUNNING; TIMEOUT] →
           id ∈ tasks (_cleanup_stale_tasks now m)) ∧
  tasks (_cleanup_stale_tasks now m) `sublist_of` tasks m ∧
  objects (_cleanup_stale_tasks now m) = objects m ∧
  running_tasks (_cleanup_stale_tasks now m) = running_tasks m ∧
  _cleanup_stale_tasks now (_cleanup_stale_tasks now m) = _cleanup_stale_tasks now m.
Proof.
  split; [apply reap_tasks|]. split; [|split; [|split; [done|split; [done|]]]].
  - intros id t Hin Ht Hs. apply reap_tasks. split; [done|].
    intros (t' & c & Ht' & Hs' & _). assert (t' = t) as -> by congruence.
    destruct (status t); set_solver.
  - apply sublist_filter.
  - set (kept := tasks (_cleanup_stale_tasks now m)).
    set (P := λ id, from_option (is_stale now) false (objects m !! id) = true).
    assert (filter P kept = []) as Hnone.
    { apply filter_none. intros id Hid Hst. subst kept.
      apply reap_tasks in Hid as [_ Hns]. apply Hns. by apply stale_lookup. }
    change (_cleanup_stale_tasks now (_cleanup_stale_tasks now m))
      with (with_tasks (filter (λ id, id ∉ filter P kept) kept)
                       (_cleanup_stale_tasks now m)).
    rewrite Hnone, filter_all by (intros x _; apply not_elem_of_nil). done.
Qed.

(** X3.  In every state the manager can reach, a record that the reaper drops
    is one whose execution is over: a record whose unit of work has not
    started or is still running stays in the registry, also when it was
    cancelled. *)
Theorem reaped_record_has_ended (ceiling now : Z) (m : TaskManager) (id : string) :
  reachable ceiling m → id ∈ tasks m → id ∉ tasks (_cleanup_stale_tasks now m) →
  executions m !! id = Some Ended ∧
  ∃ t, objects m !! id = Some t ∧ status t ∈ [COMPLETED; FAILED; CANCELLED].
Proof.
  intros Hr Hin Hout.
  destruct (decide (from_option (is_stale now) false (objects m !! id) = true))
    as [Hst|Hst].
  - apply stale_lookup in Hst as (t & c & Ht & Hs & Hc & _). split; [|eauto].
    destruct (reachable_records_ok _ _ Hr) as [_ Hok]. specialize (Hok id t Ht).
    destruct (executions m !! id) as [[to|to|]|]; simpl in Hok; [| |done|done].
    + destruct Hok as (_ & _ & _ & _ & Hc'). congruence.
    + destruct Hok as (_ & _ & _ & Hc'). congruence.
  - destruct Hout. apply reap_tasks. split; [done|]. by rewrite <- stale_lookup.
Qed.

(** A task the reaper drops: completed at time 2, reaped at time 4000. *)
Definition returned_long_ago : list Event :=
  [EvCreate "t" "job" [] None 0; EvAdmit "t" 1; EvFinish "t" (Returned (Some "r")) 2].

Lemma reaped_record_has_ended_witness :
  ∃ m, run_events returned_long_ago (init 10) = Some m ∧
       tasks (_cleanup_stale_tasks 4000 m) = [] ∧
       executions m !! "t" = Some Ended.
Proof.
  eexists. split; [vm_compute; reflexivity|]. split; [vm_compute; reflexivity|].
  refine (proj1 (reaped_record_has_ended 10 4000 _ "t" _ _ _)).
  - exists returned_long_ago. vm_compute; reflexivity.
  - apply (bool_decide_unpack _). vm_compute. exact I.
  - apply (bool_decide_unpack _). vm_compute. exact I.
Defined.

(** *** Shutdown *)

Definition cancelled (t : BackgroundTask) : BackgroundTask :=
  set_error (Some CancelledByUser) (set_status CANCELLED t).

Lemma cancel_task_registered_running id m t :
  id ∈ tasks m → objects m !! id = Some t → status t = RUNNING →
  objects (cancel_task id m).2 !! id = Some (cancelled t).
Proof.
  intros Hin Ht Hr. unfold cancel_task, tasks_get. rewrite decide_True by done.
  rewrite Ht. rewrite decide_False by (intros Hne; by apply Hne).
  simpl. by rewrite lookup_insert_eq.
Qed.

Lemma cancel_task_other id k m :
  k ≠ id → objects (cancel_task id m).2 !! k = objects m !! k.
Proof.
  intros Hne. unfold cancel_task. destruct (tasks_get m id) as [t|]; [|done].
  destruct (decide (status t ≠ RUNNING)); [done|]. simpl. by rewrite lookup_insert_ne.
Qed.

Lemma cancel_running_step_frame m id :
  let m1 := match objects m !! id with
            | Some t => if decide (status t = RUNNING)
                        then (cancel_task (task_id t) m).2 else m
            | None => m
            end in
  tasks m1 = tasks m ∧ objs_cancel_rel (objects m) (objects m1).
Proof.
  destruct (objects m !! id) as [t|]; [|split; [done|apply objs_cancel_rel_refl]].
  destruct (decide (status t = RUNNING)); [|split; [done|apply objs_cancel_rel_refl]].
  split; [apply cancel_task_frame|apply cancel_task_cancel_rel].
Qed.

Lemma objs_cancel_rel_id o o' :
  objs_cancel_rel o o' →
  (∀ k t, o !! k = Some t → task_id t = k) → (∀ k t, o' !! k = Some t → task_id t = k).
Proof.
  intros Hrel Hid k t' Hk. specialize (Hrel k). rewrite Hk in Hrel.
  destruct (o !! k) as [t|] eqn:E; [|done].
  destruct Hrel as [->|[_ ->]]; [eauto|]. simpl. eauto.
Qed.

Lemma cancel_running_other ids m k :
  (∀ i t, objects m !! i = Some t → task_id t = i) →
  k ∉ ids → objects (cancel_running m ids) !! k = objects m !! k.
Proof.
  revert m. induction ids as [|i ids IH]; intros m Hid Hk; simpl; [done|].
  apply not_elem_of_cons in Hk as [Hne Hk].
  destruct (cancel_running_step_frame m i) as [Ht Hrel].
  fold (cancel_running
          (match objects m !! i with
           | Some t => if decide (status t = RUNNING)
                       then (cancel_task (task_id t) m).2 else m
           | None => m
           end) ids).
  rewrite IH; [|by eapply objs_cancel_rel_id|done].
  destruct (objects m !! i) as [t|] eqn:E; [|done].
  destruct (decide (status t = RUNNING)); [|done].
  apply cancel_task_other. rewrite (Hid _ _ E). done.
Qed.

Lemma cancel_running_done ids m k t' :
  (∀ i t, objects m !! i = Some t → task_id t = i) →
  (∀ i, i ∈ ids → i ∈ tasks m) → k ∈ ids →
  objects (cancel_running m ids) !! k = Some t' → status t' ≠ RUNNING.
Proof.
  revert m. induction ids as [|i ids IH]; intros m Hid Hreg Hk Hfin.
  - by apply elem_of_nil in Hk.
  - simpl in Hfin. destruct (cancel_running_step_frame m i) as [Ht Hrel].
    set (m1 := match objects m !! i with
               | Some t => if decide (status t = RUNNING)
                           then (cancel_task (task_id t) m).2 else m
               | None => m
               end) in *.
    fold (cancel_running m1 ids) in Hfin.
    assert (∀ j t, objects m1 !! j = Some t → task_id t = j) as Hid1
      by (by eapply objs_cancel_rel_id).
    destruct (decide (k ∈ ids)) as [Hin|Hnin].
    + apply (IH m1); [done| |done|done]. intros j Hj. rewrite Ht. apply Hreg.
      by apply list_elem_of_further.
    + apply elem_of_cons in Hk as [->|?]; [|done].
      rewrite cancel_running_other in Hfin by done.
      subst m1. destruct (objects m !! i) as [t|] eqn:E; [|congruence].
      destruct (decide (status t = RUNNING)) as [Hr|Hr]; [|congruence].
      rewrite (Hid _ _ E) in Hfin.
      rewrite (cancel_task_registered_running i m t) in Hfin;
        [|apply Hreg, list_elem_of_here|done|done].
      inversion Hfin. done.
Qed.

Lemma shutdown_done m :
  tasks m = [] → shutdown_requested m = true → shutdown m = m.
Proof. destruct m as [o e t mx r sr c]. simpl. intros -> ->. reflexivity. Qed.

(** X4.  [shutdown] empties the registry and sets the stop flag; every
    record that was registered and Running becomes Cancelled with the
    cancellation error, every other task object is left as it is.  It frees no
    slot: the counter and the executions in flight are unchanged.  A second
    shutdown changes nothing. *)
Theorem shutdown_cancels_registered_running (ceiling : Z) (m : TaskManager)
    (id : string) (t : BackgroundTask) :
  reachable ceiling m → objects m !! id = Some t →
  objects (shutdown m) !! id
    = Some (if decide (id ∈ tasks m ∧ status t = RUNNING) then cancelled t else t) ∧
  tasks (shutdown m) = [] ∧ shutdown_requested (shutdown m) = true ∧
  running_tasks (shutdown m) = running_tasks m ∧
  executions (shutdown m) = executions m ∧
  shutdown (shutdown m) = shutdown m.
Proof.
  intros Hr Ht. pose proof (reachable_wf _ _ Hr) as [Hid Hnd Hex Hcnt].
  assert (tasks (shutdown m) = [] ∧ shutdown_requested (shutdown m) = true) as [Htk Hfl].
  { unfold shutdown.
    destruct (cleanup_all_frame
                (tasks (with_shutdown_requested true (cancel_running m (tasks m))))
                (with_shutdown_requested true (cancel_running m (tasks m))))
      as (_ & _ & _ & _ & _ & H6).
    simpl in *. by rewrite H6. }
  destruct (shutdown_spec m Hid) as (_ & He & _ & _ & Hc).
  split; [|by rewrite (shutdown_done _ Htk Hfl)].
  assert (objects (shutdown m) = objects (cancel_running m (tasks m))) as Hobj.
  { unfold shutdown.
    destruct (cleanup_all_frame
                (tasks (with_shutdown_requested true (cancel_running m (tasks m))))
                (with_shutdown_requested true (cancel_running m (tasks m))))
      as (H1 & _).
    simpl in *. by rewrite H1. }
  rewrite Hobj. pose proof (cancel_running_cancel_rel (tasks m) m id) as Hrel.
  rewrite Ht in Hrel.
  destruct (objects (cancel_running m (tasks m)) !! id) as [t'|] eqn:Ht'; [|done].
  destruct (decide (id ∈ tasks m ∧ status t = RUNNING)) as [[Hin Hrun]|Hno].
  - destruct Hrel as [->|[_ ->]]; [|done].
    by destruct (cancel_running_done (tasks m) m id t Hid (λ _ H, H) Hin Ht').
  - destruct Hrel as [->|[Hrun ->]]; [done|].
    destruct (decide (id ∈ tasks m)) as [Hin|Hnin]; [by destruct Hno|].
    rewrite cancel_running_other in Ht' by done. rewrite Ht in Ht'. by symmetry.
Qed.

(** One task running, then cancelled by the shutdown. *)
Definition one_running : list Event :=
  [EvCreate "t" "job" ["h"] None 0; EvAdmit "t" 1].

Lemma shutdown_cancels_registered_running_witness :
  ∃ m, run_events one_running (init 10) = Some m ∧
       status_of (shutdown m) "t" = Some CANCELLED ∧
       running_tasks (shutdown m) = 1 ∧ tasks (shutdown m) = [].
Proof.
  eexists. split; [vm_compute; reflexivity|].
  match goal with
  | |- status_of (shutdown ?m) _ = _ ∧ _ =>
      destruct (shutdown_cancels_registered_running 10 m "t"
                  (mkTask "t" "job" RUNNING None None 0 (Some 1) None ["h"]))
        as (Hobj & Htk & _ & Hrun & _)
  end.
  - exists one_running. vm_compute; reflexivity.
  - vm_compute; reflexivity.
  - split; [unfold status_of; rewrite Hobj; vm_compute; reflexivity|].
    split; [rewrite Hrun; reflexivity|exact Htk].
Defined.

(** *** Statistics *)

Lemma exec_event_registered m ev m' :
  wf m → (∀ k, k ∈ tasks m → is_Some (objects m !! k)) →
  exec_event ev m = Some m' → ∀ k, k ∈ tasks m' → is_Some (objects m' !! k).
Proof.
  intros Hwf Hreg Hev.
  destruct ev as [id nm hs to now|id now|id o now|id|now|]; simpl in Hev.
  - destruct (decide (id ∈ dom (objects m))); [done|]. inversion Hev; subst; simpl.
    intros k Hk. destruct (decide (id = k)) as [->|Hne].
    + rewrite lookup_insert_eq. eauto.
    + rewrite lookup_insert_ne by done. apply Hreg. unfold dict_keys_set in Hk.
      destruct (decide (id ∈ tasks m)); [done|].
      apply elem_of_app in Hk as [?|Hk]; [done|].
      apply list_elem_of_singleton in Hk. congruence.
  - destruct (executions m !! id) as [[to| |]|]; try done.
    destruct (objects m !! id) as [t|] eqn:HO; [|done].
    destruct (decide (task_id t = id)) as [Ht|]; [|done]. inversion Hev; subst m'.
    unfold execute_task_admit. rewrite Ht.
    destruct (decide (max_concurrent_tasks m ≤ running_tasks m)); simpl;
      intros k Hk; (destruct (decide (id = k)) as [->|Hne];
                    [rewrite lookup_insert_eq; eauto
                    |rewrite lookup_insert_ne by done; by apply Hreg]).
  - destruct (executions m !! id) as [[to|to|]|]; try done.
    destruct (objects m !! id) as [t|] eqn:HO; [|done].
    destruct (decide (task_id t = id)) as [Ht|]; [|done]. inversion Hev; subst m'.
    unfold execute_task_finish. rewrite Ht. simpl.
    intros k Hk. destruct (decide (id = k)) as [->|Hne].
    + rewrite lookup_insert_eq; eauto.
    + rewrite lookup_insert_ne by done; by apply Hreg.
  - inversion Hev; subst m'. destruct (cancel_task_frame id m) as (_ & Ht & _).
    intros k Hk. rewrite Ht in Hk.
    eapply objs_rel_is_Some; [apply cancel_task_objs, Hwf|by apply Hreg].
  - inversion Hev; subst m'. intros k Hk. apply reap_tasks in Hk as [Hk _]. by apply Hreg.
  - inversion Hev; subst m'. destruct (shutdown_spec m (wf_id _ Hwf)) as (_ & _ & Ht & _).
    intros k Hk. rewrite Ht in Hk. by apply elem_of_nil in Hk.
Qed.

Lemma reachable_registered c m :
  reachable c m → ∀ k, k ∈ tasks m → is_Some (objects m !! k).
Proof.
  intros Hr.
  assert (wf m ∧ ∀ k, k ∈ tasks m → is_Some (objects m !! k)) as [_ H]; [|done].
  revert m Hr. apply reachable_ind.
  - split; [apply wf_init|]. intros k Hk. by apply elem_of_nil in Hk.
  - intros m0 ev m' [Hwf Hreg] Hev. split; [by eapply exec_event_wf|].
    by eapply exec_event_registered.
Qed.

Lemma status_value_inj s s' : status_value s = status_value s' → s = s'.
Proof. destruct s, s'; simpl; intros H; (done || discriminate). Qed.

(** The body of the counting loop of [get_stats]. *)
Definition count_step (m : TaskManager) (counts : gmap string nat) (id : string)
    : gmap string nat :=
  match objects m !! id with
  | Some t =>
      let st := status_value (status t) in
      <[st := (default 0%nat (counts !! st) + 1)%nat]> counts
  | None => counts
  end.

Lemma count_fold m ids counts st :
  default 0%nat (foldl (count_step m) counts ids !! status_value st)
  = (default 0%nat (counts !! status_value st)
     + length (filter (λ id, status_of m id = Some st) ids))%nat.
Proof.
  revert counts. induction ids as [|id ids IH]; intros counts; simpl; [lia|].
  rewrite IH, filter_cons. unfold count_step.
  destruct (objects m !! id) as [t|] eqn:E.
  - destruct (decide (status t = st)) as [<-|Hne].
    + rewrite decide_True by (unfold status_of; by rewrite E).
      rewrite lookup_insert_eq. simpl. lia.
    + rewrite decide_False by (unfold status_of; rewrite E; simpl; congruence).
      rewrite lookup_insert_ne; [done|]. by intros Hv%status_value_inj.
  - rewrite decide_False by (unfold status_of; by rewrite E). done.
Qed.

Lemma status_partition m ids :
  (∀ k, k ∈ ids → is_Some (objects m !! k)) →
  (length (filter (λ id, status_of m id = Some PENDING) ids)
   + length (filter (λ id, status_of m id = Some RUNNING) ids)
   + length (filter (λ id, status_of m id = Some COMPLETED) ids)
   + length (filter (λ id, status_of m id = Some FAILED) ids)
   + length (filter (λ id, status_of m id = Some CANCELLED) ids)
   + length (filter (λ id, status_of m id = Some TIMEOUT) ids))%nat = length ids.
Proof.
  induction ids as [|id ids IH]; intros Hreg; [done|].
  rewrite !filter_cons. simpl.
  specialize (IH (λ k Hk, Hreg k (list_elem_of_further _ _ _ Hk))).
  destruct (Hreg id) as [t Ht]; [apply list_elem_of_here|].
  assert (status_of m id = Some (status t)) as Hs by (unfold status_of; by rewrite Ht).
  destruct (status t); repeat case_decide; try congruence; simpl; lia.
Qed.

(** X5.  In every state the manager can reach, [get_stats] reports the size
    of the registry as total, and for each status the number of registered
    records in that status; the six counts add up to the total.  The reported
    running figure is the counter, not the count of Running records. *)
Theorem get_stats_counts_partition_registry (ceiling : Z) (m : TaskManager) :
  reachable ceiling m →
  let s := get_stats m in
  let count := λ st, default 0%nat (stat_status_counts s !! status_value st) in
  stat_total_tasks s = length (tasks m) ∧
  stat_running_tasks s = running_tasks m ∧
  stat_max_concurrent s = max_concurrent_tasks m ∧
  (∀ st, count st = length (filter (λ id, status_of m id = Some st) (tasks m))) ∧
  (count PENDING + count RUNNING + count COMPLETED + count FAILED
   + count CANCELLED + count TIMEOUT)%nat = stat_total_tasks s.
Proof.
  intros Hr s count. split; [done|]. split; [done|]. split; [done|].
  assert (∀ st, count st = length (filter (λ id, status_of m id = Some st) (tasks m)))
    as Hcount.
  { intros st. subst count s. unfold get_stats. simpl.
    change (foldl _ ∅ (tasks m)) with (foldl (count_step m) ∅ (tasks m)).
    rewrite count_fold, lookup_empty. simpl. lia. }
  split; [done|]. rewrite !Hcount. simpl.
  apply status_partition. by eapply reachable_registered.
Qed.

(** Ceiling 1: one task admitted, one turned away. *)
Definition one_admitted_one_rejected : list Event :=
  [EvCreate "a" "first" [] None 0; EvCreate "b" "second" [] None 0;
   EvAdmit "a" 1; EvAdmit "b" 1].

Lemma get_stats_counts_partition_registry_witness :
  ∃ m, run_events one_admitted_one_rejected (init 1) = Some m ∧
       stat_total_tasks (get_stats m) = 2%nat ∧
       stat_status_counts (get_stats m) !! "running" = Some 1%nat ∧
       stat_status_counts (get_stats m) !! "failed" = Some 1%nat.
Proof.
  eexists. split; [vm_compute; reflexivity|].
  match goal with
  | |- stat_total_tasks (get_stats ?m) = _ ∧ _ =>
      destruct (get_stats_counts_partition_registry 1 m) as (Htot & _)
  end.
  - exists one_admitted_one_rejected. vm_compute; reflexivity.
  - split; [rewrite Htot; reflexivity|]. split; vm_compute; reflexivity.
Defined.

End TaskManagerMore.

(* ===================================================================== *)
(** ** Further properties of the scheduler *)
(* ===================================================================== *)

Module OrchestratorMore.
Import Orchestrator OrchestratorSpec.

(** *** One agent task *)

(** X6.  [_run_agent_task_async], for a task whose agent field is a string
    or absent, never ends with an [Exception]: [gather] gets from it either a
    dict, or the [BaseException] that the agent's think/execute/learn sequence
    raised, and the latter exactly when the agent is known and that sequence
    raised one.  A dict names the agent asked for; it has success True exactly
    when the agent is known and the sequence returned, and then carries the
    task id (["unknown"] when the task has none), the task description and
    the first 200 code points of the result; with success False it carries an
    error and no result.  The coroutine logs one error line when it returns a
    dict with success False, and nothing otherwise. *)
Theorem run_agent_task_returns_or_is_cancelled (agents : gmap string Agent)
    (t : Task) (ctx : Context) :
  let id := default "unknown" (task_id t) in
  let desc := default "" (task t) in
  let known := agent t ≫= (λ n, agents !! n) in
  let run := _run_agent_task_async agents t ctx in
  (∀ e, run.1 ≠ GException e) ∧
  (∀ e, run.1 = GReturned (BaseExceptionObject e) ↔
        ∃ a, known = Some a ∧ a ctx desc id = AgentRaisedBase e) ∧
  (∀ r, run.1 = GReturned (Dict r) →
        r_agent r = agent t ∧
        (r_success r = true ↔
           ∃ a result, known = Some a ∧ a ctx desc id = AgentOk result) ∧
        (∀ a result, known = Some a → a ctx desc id = AgentOk result →
           r_task_id r = Some id ∧ r_task r = Some desc ∧
           r_result r = Some (take 200 result) ∧ r_error r = None) ∧
        (r_success r = false → is_Some (r_error r) ∧ r_result r = None)) ∧
  (run.2 = [] ↔ ¬ ∃ r, run.1 = GReturned (Dict r) ∧ r_success r = false) ∧
  (length run.2 ≤ 1)%nat.
Proof.
  intros id desc known run. subst run. unfold _run_agent_task_async.
  fold id desc known.
  destruct known as [a|] eqn:Ha.
  - destruct (a ctx desc id) as [result|e|e] eqn:Hrun; simpl.
    + split; [done|]. split.
      { intros e. split; [done|]. intros (a' & Ha' & Hr). congruence. }
      split.
      { intros r Hr. inversion Hr; subst r; clear Hr. simpl.
        split; [done|]. split; [split; eauto|]. split; [|done].
        intros a' res Ha' Hres. assert (a' = a) as -> by congruence.
        assert (res = result) as -> by congruence. done. }
      split; [|lia]. split; [|done]. intros _ (r & Hr & Hs).
      inversion Hr; subst r. done.
    + split; [done|]. split.
      { intros e'. split; [done|]. intros (a' & Ha' & Hr). congruence. }
      split.
      { intros r Hr. inversion Hr; subst r; clear Hr. simpl.
        split; [done|]. split.
        { split; [done|]. intros (a' & res & Ha' & Hres). congruence. }
        split; [|eauto]. intros a' res Ha' Hres. congruence. }
      split; [|lia]. split; [done|]. intros Hn. destruct Hn. eauto.
    + split; [done|]. split.
      { intros e'. split.
        - intros He. inversion He; subst e'. eauto.
        - intros (a' & Ha' & Hr). assert (a' = a) as -> by congruence. congruence. }
      split; [done|]. split; [|lia]. split; [|done]. by intros _ (r & Hr & _).
  - simpl. split; [done|]. split.
    { intros e. split; [done|]. by intros (a' & Ha' & _). }
    split.
    { intros r Hr. inversion Hr; subst r; clear Hr. simpl.
      split; [done|]. split.
      { split; [done|]. by intros (a' & res & Ha' & _). }
      split; [done|eauto]. }
    split; [|lia]. split; [done|]. intros Hn. destruct Hn. eauto.
Qed.

(** *** The scheduler with this runner *)

Lemma run_agent_task_returns agents t ctx :
  ∃ d, gathered agents t ctx = GReturned d.
Proof.
  unfold gathered, _run_agent_task_async.
  destruct (agent t ≫= (λ n, agents !! n)) as [a|]; [|simpl; eauto].
  destruct (a ctx (default "" (task t)) (default "unknown" (task_id t))); simpl; eauto.
Qed.

Lemma failed_of_returned batch results :
  Forall (λ r, ∃ d, r = GReturned d) results → failed_of (zip batch results) = [].
Proof.
  intros Hall. revert batch. induction Hall as [|r results [d ->] _ IH]; intros batch.
  - by destruct batch.
  - destruct batch as [|b batch]; [done|]. unfold failed_of in *. csimpl. apply IH.
Qed.

Lemma completed_of_returned batch results :
  Forall (λ r, ∃ d, r = GReturned d) results →
  length (completed_of (zip batch results)) = length (zip batch results).
Proof.
  intros Hall. pose proof (outcome_count (zip batch results)) as Hc.
  rewrite failed_of_returned in Hc by done. simpl in Hc. lia.
Qed.

Lemma loop_keeps_failed_tests run_task max_parallel task_map deps fuel st st' :
  (∀ t c, ∃ d, run_task t c = GReturned d) →
  final_state (loop run_task max_parallel task_map deps fuel st) = Some st' →
  failed_tests (context st') = failed_tests (context st) ∧
  ∃ lg, log st' = log st ++ lg ∧ (lg = [] ∨ lg = [no_ready_msg]).
Proof.
  intros Hret. revert st. induction fuel as [|fuel IH]; intros st Hfin; [done|].
  simpl in Hfin. destruct (pending st) as [|p ps] eqn:Hp.
  - simpl in Hfin. inversion Hfin; subst. split; [done|]. exists []. rewrite app_nil_r. eauto.
  - rewrite <- Hp in Hfin.
    destruct (ready_tasks deps (executed st) (pending st)) as [[|r ready]|] eqn:Hr;
      [| |done].
    + simpl in Hfin. inversion Hfin; subst; simpl. split; [done|]. eauto.
    + destruct (round run_task max_parallel task_map st (r :: ready)) as [st1|] eqn:Hround;
        [|done].
      destruct (IH st1 Hfin) as (Hf & lg & Hlog & Hlg).
      destruct (round_spec _ _ _ _ _ _ Hround) as (results & _ & HF & _ & _ & _ & Hf1).
      assert (Forall (λ r, ∃ d, r = GReturned d) results) as Hall.
      { clear -HF Hret. induction HF as [|id res ids ress (t & _ & ->) _ IHF]; [done|].
        constructor; [apply Hret|done]. }
      rewrite failed_of_returned in Hf1 by done. rewrite app_nil_r in Hf1.
      assert (log st1 = log st) as Hl1.
      { unfold round in Hround.
        destruct (mapM _ (select_batch max_parallel (r :: ready))) as [rs|] eqn:Hm; [|done].
        simpl in Hround. inversion Hround as [Hst1].
        apply mapM_Some in Hm.
        assert (Forall (λ r, ∃ d, r = GReturned d) rs) as Hall'.
        { clear -Hm Hret. induction Hm as [|id res ids ress Hf _ IHF]; [done|].
          constructor; [|done]. simpl in Hf.
          destruct (PyDict.get id task_map); [|done]. simpl in Hf. inversion Hf.
          apply Hret. }
        clear -Hall'. generalize (select_batch max_parallel (r :: ready)) as batch.
        revert st. induction Hall' as [|x rs [d ->] _ IHr]; intros st batch.
        - by destruct batch.
        - destruct batch as [|b batch]; [done|]. simpl. rewrite IHr. done. }
      split; [congruence|]. exists lg. by rewrite Hlog, Hl1.
Qed.

Lemma entry_inv set_iter tasks ctx :
  (∀ l, NoDup l → set_iter l ≡ₚ l) →
  let st0 := mkLoop ∅ (set_iter (PyDict.keys (build_task_map tasks))) ctx [] in
  inv (build_task_map tasks) (build_dependencies tasks) (get_task_id <$> tasks) ctx st0 ∧
  (length (pending st0) ≤ length tasks)%nat.
Proof.
  intros Hperm st0.
  assert (NoDup (PyDict.keys (build_task_map tasks))) as Hnd.
  { rewrite build_task_map_keys. apply foldl_insert_key_spec. constructor. }
  pose proof (Hperm _ Hnd) as Hp.
  assert (∀ id, id ∈ pending st0 ↔ id ∈ get_task_id <$> tasks) as Hmem.
  { intros id. simpl. rewrite Hp.
    rewrite build_task_map_keys, foldl_insert_key_elem, elem_of_nil. naive_solver. }
  split.
  - split.
    + simpl. by rewrite Hp.
    + intros id. rewrite Hmem. simpl. set_solver.
    + intros id _. simpl. set_solver.
    + intros id Hid. apply Hmem in Hid. split.
      * by apply build_dependencies_dom.
      * by apply get_build_task_map.
    + intros id d Hid. simpl in Hid. set_solver.
    + exists [], []. simpl. rewrite !app_nil_r. by repeat split.
  - simpl. rewrite Hp, build_task_map_keys.
    pose proof (foldl_insert_key_length (get_task_id <$> tasks) []) as Hl.
    rewrite length_fmap in Hl. simpl in Hl. lia.
Qed.

Lemma loop_final_inv run_task max_parallel task_map deps ids ctx0 fuel st st' :
  inv task_map deps ids ctx0 st →
  final_state (loop run_task max_parallel task_map deps fuel st) = Some st' →
  inv task_map deps ids ctx0 st'.
Proof.
  revert st. induction fuel as [|fuel IH]; intros st Hinv Hfin; [done|].
  simpl in Hfin. destruct (pending st) as [|p ps] eqn:Hp.
  - simpl in Hfin. by inversion Hfin; subst.
  - rewrite <- Hp in Hfin.
    destruct (ready_tasks deps (executed st) (pending st)) as [[|r ready]|] eqn:Hr;
      [| |done].
    + simpl in Hfin. inversion Hfin; subst. by apply inv_log.
    + destruct (round run_task max_parallel task_map st (r :: ready)) as [st1|] eqn:Hround;
        [|done].
      apply (IH st1); [|done].
      by destruct (round_inv run_task max_parallel task_map deps ids ctx0 _ _ _
                     Hinv Hr Hround).
Qed.

(** X7.  When the tasks (whose agent field is a string or absent) are run by
    [_run_agent_task_async], a run of [_execute_tasks_with_parallel] that ends
    never adds to [failed_tests]: every dispatched task, also one whose agent
    raised or is unknown, leaves its one entry in [completed_tests]. *)
Theorem agent_failures_never_reach_failed_tests (set_iter : list string → list string)
    (agents : gmap string Agent) (max_parallel : Z) (fuel : nat)
    (tasks : list Task) (ctx : Context) (st : LoopState) :
  (∀ l, NoDup l → set_iter l ≡ₚ l) →
  final_state (_execute_tasks_with_parallel set_iter (gathered agents)
                 max_parallel fuel tasks ctx) = Some st →
  failed_tests (context st) = failed_tests ctx ∧
  ∃ nc, completed_tests (context st) = completed_tests ctx ++ nc ∧
        length nc = size (executed st).
Proof.
  intros Hperm Hfin. unfold _execute_tasks_with_parallel in Hfin.
  destruct (entry_inv set_iter tasks ctx Hperm) as [Hinv _].
  pose proof (loop_final_inv _ _ _ _ _ _ _ _ _ Hinv Hfin) as Hinv'.
  apply loop_keeps_failed_tests in Hfin as (Hf & _);
    [|intros t c; apply run_agent_task_returns].
  simpl in Hf. split; [done|].
  destruct (inv_ctx _ _ _ _ _ Hinv') as (nc & nf & Hc & Hf' & Hcount & _).
  exists nc. split; [done|].
  assert (nf = []) as ->.
  { rewrite Hf in Hf'. rewrite <- (app_nil_r (failed_tests ctx)) in Hf' at 1.
    by apply app_inv_head in Hf'. }
  simpl in Hcount. lia.
Qed.

(** Two tasks in a chain; the agent raises on the first. *)
Definition chain_AB : list Task := [node "A" [] 1; node "B" ["A"] 1].

Definition raising_on_A : gmap string Agent :=
  {["NavigationAgent" := (λ ctx desc id, if decide (id = "A") then AgentRaised "boom"
                                          else AgentOk (text_of "done")) : Agent]}.

Lemma agent_failures_never_reach_failed_tests_witness :
  ∃ st, _execute_tasks_with_parallel insertion_order (gathered raising_on_A)
          4 10 chain_AB empty_context = Drained st ∧
        dict_get r_success <$> completed_tests (context st) = [Some false; Some true] ∧
        failed_tests (context st) = [].
Proof.
  eexists. split; [vm_compute; reflexivity|]. split; [reflexivity|].
  match goal with
  | |- failed_tests (context ?st) = _ =>
      refine (proj1 (agent_failures_never_reach_failed_tests insertion_order raising_on_A
                       4 10 chain_AB empty_context st _ _))
  end.
  - intros l _. reflexivity.
  - vm_compute; reflexivity.
Defined.

(** *** Tasks that share an id *)

(** X8.  When several tasks of the list carry the same id, the task map and
    the dependency table both keep the last of them: that task is the one the
    scheduler runs, with its dependencies, and the id is scheduled once. *)
Theorem last_task_with_an_id_wins (tasks : list Task) (id : string) :
  let same_id := filter (λ t, get_task_id t = id) tasks in
  PyDict.get id (build_task_map tasks) = last same_id ∧
  build_dependencies tasks !! id
    = (λ t, list_to_set (default [] (dependencies t))) <$> last same_id ∧
  NoDup (PyDict.keys (build_task_map tasks)).
Proof.
  simpl. split; [|split].
  - unfold build_task_map. induction tasks as [|t tasks IH] using rev_ind; [done|].
    rewrite foldl_snoc, filter_app, last_app, filter_cons.
    destruct (decide (get_task_id t = id)) as [<-|Hne]; simpl.
    + apply get_set_eq.
    + by rewrite get_set_ne.
  - unfold build_dependencies. induction tasks as [|t tasks IH] using rev_ind; [done|].
    rewrite foldl_snoc, filter_app, last_app, filter_cons.
    destruct (decide (get_task_id t = id)) as [<-|Hne]; simpl.
    + by rewrite lookup_insert_eq.
    + by rewrite lookup_insert_ne.
  - rewrite build_task_map_keys. apply foldl_insert_key_spec. constructor.
Qed.

(** *** Graphs without a cycle *)


Lemma build_dependencies_origin tasks id dset :
  build_dependencies tasks !! id = Some dset →
  ∃ t, t ∈ tasks ∧ get_task_id t = id ∧
       dset = list_to_set (default [] (dependencies t)).
Proof.
  unfold build_dependencies. induction tasks as [|t tasks IH] using rev_ind; [done|].
  rewrite foldl_snoc. destruct (decide (get_task_id t = id)) as [<-|Hne].
  - rewrite lookup_insert_eq. intros H. inversion H. exists t.
    split; [apply elem_of_app; right; apply list_elem_of_here|done].
  - rewrite lookup_insert_ne by done. intros H. destruct (IH H) as (t' & Hin & Hrest).
    exists t'. split; [apply elem_of_app; by left|done].
Qed.

Lemma least_rank (rank : string → nat) (l : list string) :
  l ≠ [] → ∃ x, x ∈ l ∧ ∀ y, y ∈ l → (rank x ≤ rank y)%nat.
Proof.
  induction l as [|a l IH]; [done|]. intros _. destruct l as [|b l].
  - exists a. split; [apply list_elem_of_here|].
    intros y ->%list_elem_of_singleton. lia.
  - destruct IH as (x & Hx & Hmin); [done|].
    destruct (decide (rank a ≤ rank x)%nat).
    + exists a. split; [apply list_elem_of_here|].
      intros y [->|Hy]%elem_of_cons; [lia|]. specialize (Hmin y Hy). lia.
    + exists x. split; [by apply list_elem_of_further|].
      intros y [->|Hy]%elem_of_cons; [lia|]. by apply Hmin.
Qed.

(** A graph in which every declared dependency names a task of the graph and
    has a smaller rank than the task that declares it. *)
Definition well_ranked (rank : string → nat) (tasks : list Task) : Prop :=
  Forall (λ t, Forall (λ d, d ∈ get_task_id <$> tasks ∧
                            (rank d < rank (get_task_id t))%nat)
                      (default [] (dependencies t))) tasks.

(** X9.  For a graph without a cycle whose dependencies all name tasks of the
    graph, and a ceiling of at least one, the scheduler never stalls: the loop
    ends with [pending] empty, every id of the graph has been dispatched, and
    the context has grown by exactly one entry per id. *)
Theorem acyclic_graph_is_drained (set_iter : list string → list string)
    (run_task : Task → Context → GatherResult) (max_parallel : Z) (fuel : nat)
    (tasks : list Task) (ctx : Context) (rank : string → nat) :
  (∀ l, NoDup l → set_iter l ≡ₚ l) → 1 ≤ max_parallel → (length tasks < fuel)%nat →
  well_ranked rank tasks →
  ∃ st,
    _execute_tasks_with_parallel set_iter run_task max_parallel fuel tasks ctx
      = Drained st ∧
    pending st = [] ∧
    (∀ id, id ∈ executed st ↔ id ∈ get_task_id <$> tasks) ∧
    ∃ nc nf,
      completed_tests (context st) = completed_tests ctx ++ nc ∧
      failed_tests (context st) = failed_tests ctx ++ nf ∧
      (length nc + length nf)%nat = size (executed st).
Proof.
  intros Hperm Hmax Hfuel Hrank. unfold _execute_tasks_with_parallel.
  destruct (entry_inv set_iter tasks ctx Hperm) as [Hinv Hlen].
  destruct (loop_ends run_task max_parallel (build_task_map tasks)
              (build_dependencies tasks) (get_task_id <$> tasks) ctx fuel _ Hinv Hmax)
    as (st & [Hnd Hsplit Hdisj Hknown Hclosed Hctx] & Hend); [lia|].
  exists st. destruct Hend as [[Hrun Hpend]|(Hrun & Hpend & Hnr & _)].
  - split; [done|]. split; [done|]. split.
    + intros id. rewrite Hsplit, Hpend, elem_of_nil. naive_solver.
    + destruct Hctx as (nc & nf & ? & ? & ? & _). eauto.
  - exfalso. destruct (least_rank rank (pending st) Hpend) as (x & Hx & Hmin).
    apply (Hnr x Hx). apply is_ready_true.
    destruct (Hknown x Hx) as [[dset Hd] _]. exists dset. split; [done|].
    intros d Hdin.
    destruct (build_dependencies_origin _ _ _ Hd) as (t & Ht & Hid & ->).
    apply elem_of_list_to_set in Hdin.
    unfold well_ranked in Hrank. rewrite Forall_forall in Hrank.
    specialize (Hrank t Ht). rewrite Forall_forall in Hrank.
    destruct (Hrank d Hdin) as [Hdid Hlt]. rewrite Hid in Hlt.
    apply Hsplit in Hdid as [Hdp|Hde]; [|done].
    specialize (Hmin d Hdp). lia.
Qed.

(** A diamond: D after B and C, both after A. *)
Definition diamond : list Task :=
  [node "D" ["B"; "C"] 1; node "B" ["A"] 1; node "C" ["A"] 1; node "A" [] 1].

Definition diamond_rank (id : string) : nat :=
  if decide (id = "A") then 0 else if decide (id = "D") then 2 else 1.

Lemma acyclic_graph_is_drained_witness :
  ∃ st, _execute_tasks_with_parallel insertion_order all_return 2 10 diamond empty_context
          = Drained st ∧
        pending st = [] ∧
        dict_get r_task_id <$> completed_tests (context st)
          = [Some (Some "A"); Some (Some "B"); Some (Some "C"); Some (Some "D")].
Proof.
  destruct (acyclic_graph_is_drained insertion_order all_return 2 10 diamond
              empty_context diamond_rank) as (st & Hrun & Hpend & _).
  - intros l _. reflexivity.
  - lia.
  - simpl. lia.
  - unfold well_ranked. apply (bool_decide_unpack _). vm_compute. exact I.
  - exists st. split; [exact Hrun|]. split; [exact Hpend|].
    assert (Drained st = _execute_tasks_with_parallel insertion_order all_return 2 10
                           diamond empty_context) as Heq by (by rewrite Hrun).
    vm_compute in Heq. inversion Heq. reflexivity.
Defined.

(** *** A ceiling of zero *)

Lemma loop_zero_ceiling run_task task_map deps fuel st r ready :
  ready_tasks deps (executed st) (pending st) = Some (r :: ready) →
  loop run_task 0 task_map deps fuel st = OutOfFuel.
Proof.
  intros Hready. induction fuel as [|fuel IH]; [done|]. simpl.
  destruct (pending st) as [|p ps] eqn:Hp; [by simpl in Hready|].
  rewrite Hready.
  assert (round run_task 0 task_map st (r :: ready) = Some st) as ->; [|done].
  unfold round. rewrite select_batch_nonneg by lia. done.
Qed.

(** X10.  With [max_parallel] zero, the batch of every round is empty: as
    soon as some task of the graph is ready, the loop goes round without
    dispatching anything and never ends, whatever the number of rounds. *)
Theorem zero_ceiling_never_ends (set_iter : list string → list string)
    (run_task : Task → Context → GatherResult) (fuel : nat)
    (tasks : list Task) (ctx : Context) (id : string) :
  (∀ l, NoDup l → set_iter l ≡ₚ l) →
  build_dependencies tasks !! id = Some ∅ →
  _execute_tasks_with_parallel set_iter run_task 0 fuel tasks ctx = OutOfFuel.
Proof.
  intros Hperm Hid. unfold _execute_tasks_with_parallel.
  destruct (entry_inv set_iter tasks ctx Hperm) as [Hinv _].
  set (st0 := mkLoop ∅ (set_iter (PyDict.keys (build_task_map tasks))) ctx []) in *.
  assert (id ∈ pending st0) as Hin.
  { destruct (inv_split _ _ _ _ _ Hinv id) as [Hs _].
    destruct Hs as [?|Hex]; [by apply build_dependencies_dom|done|].
    simpl in Hex. set_solver. }
  destruct (ready_tasks_is_Some (build_dependencies tasks) (executed st0) (pending st0))
    as [ready Hready].
  { intros k Hk. by apply (inv_known _ _ _ _ _ Hinv). }
  assert (id ∈ ready) as Hr.
  { rewrite (ready_tasks_filter _ _ _ _ Hready). apply list_elem_of_filter.
    split; [|done]. apply is_ready_true. eauto. }
  destruct ready as [|r ready']; [by apply elem_of_nil in Hr|].
  by eapply loop_zero_ceiling.
Qed.

Lemma zero_ceiling_never_ends_witness :
  _execute_tasks_with_parallel insertion_order all_return 0 1000 diamond empty_context
  = OutOfFuel.
Proof.
  apply (zero_ceiling_never_ends insertion_order all_return 1000 diamond empty_context "A").
  - intros l _. reflexivity.
  - vm_compute; reflexivity.
Defined.

(** *** Parallel groups *)

Lemma length_omap_le {A B} (f : A → option B) (l : list A) :
  (length (omap f l) ≤ length l)%nat.
Proof. induction l as [|x l IH]; csimpl; [done|]. destruct (f x); simpl; lia. Qed.

Lemma process_group_results_count pairs st :
  let st' := foldl process_group_result st pairs in
  (length (completed_tests st'.1) + length (failed_tests st'.1)
   = length (completed_tests st.1) + length (failed_tests st.1) + length pairs)%nat.
Proof.
  revert st. induction pairs as [|[id r] pairs IH]; intros [ctx lg]; simpl; [lia|].
  rewrite IH. destruct r; simpl; rewrite length_app; simpl; lia.
Qed.

(** Number of ids of the groups that name a task of [context["tasks"]]. *)
Definition found_count (context_tasks : option (list Task)) (groups : list (list string))
    : nat :=
  sum_list ((λ g, length (omap (find_task context_tasks) g)) <$> groups).

Lemma groups_count run_task context_tasks groups st :
  let st' := foldl (run_group run_task context_tasks) st groups in
  (length (completed_tests st'.1) + length (failed_tests st'.1)
   = length (completed_tests st.1) + length (failed_tests st.1)
     + found_count context_tasks groups)%nat.
Proof.
  unfold found_count. revert st.
  induction groups as [|g groups IH]; intros st; simpl; [lia|].
  rewrite IH. unfold run_group.
  rewrite process_group_results_count, length_zip, length_fmap.
  rewrite Nat.min_r by apply length_omap_le. by rewrite <- Nat.add_assoc.
Qed.

(** X11.  [_execute_parallel_groups] looks its tasks up in
    [context["tasks"]]: when the context has no such entry, no task of any
    group is run and context and log are left as they are.  In general the
    context grows by one entry for each id of a group that names a task
    there. *)
Theorem parallel_groups_run_only_context_tasks
    (run_task : Task → Context → GatherResult) (context_tasks : option (list Task))
    (groups : list (list string)) (ctx : Context) :
  _execute_parallel_groups run_task None groups ctx = (ctx, []) ∧
  let ctx' := (_execute_parallel_groups run_task context_tasks groups ctx).1 in
  (length (completed_tests ctx') + length (failed_tests ctx')
   = length (completed_tests ctx) + length (failed_tests ctx)
     + found_count context_tasks groups)%nat.
Proof.
  split.
  - unfold _execute_parallel_groups. generalize (@nil string) as lg.
    induction groups as [|g groups IH]; intros lg; simpl; [done|].
    assert (run_group run_task None (ctx, lg) g = (ctx, lg)) as ->; [|apply IH].
    unfold run_group.
    assert (omap (find_task None) g = []) as ->; [|by destruct g].
    induction g as [|id g IHg]; csimpl; [done|]. by rewrite IHg.
  - apply (groups_count run_task context_tasks groups (ctx, [])).
Qed.

(** X12.  The results of a group are paired with the ids of the group by
    position: when the first id of a group names no task and the second names
    a task for which [gather] reports an exception, the failure is recorded
    under the first id, and nothing is recorded under the second. *)
Theorem group_failure_is_recorded_under_another_id
    (run_task : Task → Context → GatherResult) (context_tasks : option (list Task))
    (ctx : Context) (lg : list string) (missing id e : string) (t : Task) :
  find_task context_tasks missing = None →
  find_task context_tasks id = Some t →
  run_task t ctx = GException e →
  run_group run_task context_tasks (ctx, lg) [missing; id]
  = (mkContext (completed_tests ctx) (failed_tests ctx ++ [mkFailed missing e]),
     lg ++ ["Group task " +:+ missing +:+ " failed: " +:+ e]).
Proof.
  intros Hm Hi Hrun. unfold run_group. csimpl. rewrite Hm, Hi. csimpl.
  by rewrite Hrun.
Qed.

Lemma group_failure_is_recorded_under_another_id_witness :
  run_group (raises_for "B") (Some [node "B" [] 1]) (empty_context, []) ["ghost"; "B"]
  = (mkContext [] [mkFailed "ghost" "boom"], ["Group task ghost failed: boom"]).
Proof.
  apply (group_failure_is_recorded_under_another_id (raises_for "B")
           (Some [node "B" [] 1]) empty_context [] "ghost" "B" "boom" (node "B" [] 1));
    reflexivity.
Defined.

End OrchestratorMore.

(* ===================================================================== *)
(** ** Properties of the sequential orchestrator *)
(* ===================================================================== *)

Module SequentialSpec.
Import Sequential.

Definition by_priority (t u : Orchestrator.Task) : Prop :=
  priority_key t ≤ priority_key u.

Lemma insert_task_perm t l : insert_task t l ≡ₚ t :: l.
Proof.
  induction l as [|u l IH]; simpl; [done|].
  destruct (decide (priority_key t ≤ priority_key u)); [done|].
  rewrite IH. apply Permutation_swap.
Qed.

Lemma insert_task_sorted t l :
  StronglySorted by_priority l → StronglySorted by_priority (insert_task t l).
Proof.
  induction 1 as [|u l Hs IH Hall]; simpl.
  - repeat constructor.
  - destruct (decide (priority_key t ≤ priority_key u)) as [Hle|Hgt].
    + constructor; [by constructor|]. constructor; [done|].
      eapply Forall_impl; [exact Hall|]. intros v Hv. unfold by_priority in *. lia.
    + constructor; [done|]. rewrite insert_task_perm. constructor; [|done].
      unfold by_priority. lia.
Qed.

Lemma insert_task_stable k t l :
  filter (λ u, priority_key u = k) (insert_task t l)
  = filter (λ u, priority_key u = k) (t :: l).
Proof.
  induction l as [|u l IH]; simpl; [done|].
  destruct (decide (priority_key t ≤ priority_key u)) as [Hle|Hgt]; [done|].
  rewrite filter_cons, IH, !filter_cons.
  destruct (decide (priority_key u = k)), (decide (priority_key t = k)); try done. lia.
Qed.

Lemma sorted_by_priority_perm tasks : sorted_by_priority tasks ≡ₚ tasks.
Proof.
  unfold sorted_by_priority. induction tasks as [|t tasks IH]; simpl; [done|].
  by rewrite insert_task_perm, IH.
Qed.

(** X13.  [_execute_tasks] goes through the tasks by ascending priority (0
    for a task without one), tasks of equal priority in the order of the
    input list: the list it iterates is a sorted permutation of the input that
    keeps the relative order of equal priorities. *)
Theorem tasks_are_run_by_ascending_priority (tasks : list Orchestrator.Task) :
  sorted_by_priority tasks ≡ₚ tasks ∧
  StronglySorted by_priority (sorted_by_priority tasks) ∧
  ∀ k, filter (λ u, priority_key u = k) (sorted_by_priority tasks)
       = filter (λ u, priority_key u = k) tasks.
Proof.
  unfold sorted_by_priority. induction tasks as [|t tasks (Hp & Hs & Hst)]; simpl.
  - split; [done|]. split; [constructor|done].
  - split; [by rewrite insert_task_perm, Hp|].
    split; [by apply insert_task_sorted|].
    intros k. by rewrite insert_task_stable, !filter_cons, Hst.
Qed.

(** A task whose agent is one of [self.agents]. *)
Definition known (agents : gmap string Agent) (t : Orchestrator.Task) : Prop :=
  is_Some (Orchestrator.agent t ≫= (λ n, agents !! n)).

#[global] Instance known_dec agents t : Decision (known agents t).
Proof. unfold known. apply _. Defined.

(** The call of the agent of some task of [l] that ended as [o]. *)
Definition agent_call (agents : gmap string Agent) (l : list Orchestrator.Task)
    (name desc : string) (o : Orchestrator.AgentOutcome) : Prop :=
  ∃ t a c, t ∈ l ∧ Orchestrator.agent t = Some name ∧ agents !! name = Some a ∧
           desc = default "" (Orchestrator.task t) ∧ a c desc = o.

(** An entry of [completed_tests] made for a task of [l] whose agent
    returned, and an entry of [failed_tests] made for one whose agent raised. *)
Definition filed_returned (agents : gmap string Agent) (l : list Orchestrator.Task)
    (r : Orchestrator.ResultDict) : Prop :=
  ∃ name desc result,
    agent_call agents l name desc (Orchestrator.AgentOk result) ∧
    r = Orchestrator.mkResult (Some name) (Some desc) true (Some (take 200 result))
          None None.

Definition filed_raised (agents : gmap string Agent) (l : list Orchestrator.Task)
    (r : Orchestrator.ResultDict) : Prop :=
  ∃ name desc e,
    agent_call agents l name desc (Orchestrator.AgentRaised e) ∧
    r = Orchestrator.mkResult (Some name) None false None (Some e) None.

Lemma agent_call_cons agents t l name desc o :
  agent_call agents l name desc o → agent_call agents (t :: l) name desc o.
Proof.
  intros (u & a & c & Hu & H). exists u, a, c. split; [by apply list_elem_of_further|done].
Qed.

Lemma filed_returned_cons agents t l r :
  filed_returned agents l r → filed_returned agents (t :: l) r.
Proof. intros (n & d & res & H & ->). exists n, d, res. eauto using agent_call_cons. Qed.

Lemma filed_raised_cons agents t l r :
  filed_raised agents l r → filed_raised agents (t :: l) r.
Proof. intros (n & d & e & H & ->). exists n, d, e. eauto using agent_call_cons. Qed.

Lemma agent_call_perm agents l l' name desc o :
  l ≡ₚ l' → agent_call agents l name desc o → agent_call agents l' name desc o.
Proof.
  intros Hp (u & a & c & Hu & H). exists u, a, c. split; [by rewrite <- Hp|done].
Qed.

(** What the loop leaves, for every list of tasks, context and log. *)
Definition run_spec (agents : gmap string Agent) (l : list Orchestrator.Task)
    (ctx : Context) (lg : list string) (run : Run) : Prop :=
  ∃ nc nf nl,
    completed_tests (final_context run) = completed_tests ctx ++ nc ∧
    failed_tests (final_context run) = failed_tests ctx ++ nf ∧
    run_log run = lg ++ nl ∧
    Forall (filed_returned agents l) nc ∧ Forall (filed_raised agents l) nf ∧
    length nl = length nf ∧
    (length nc + length nf ≤ length (filter (known agents) l))%nat ∧
    (propagated run = None →
       (length nc + length nf)%nat = length (filter (known agents) l)) ∧
    (∀ e, propagated run = Some e →
          ∃ name desc, agent_call agents l name desc (Orchestrator.AgentRaisedBase e)).

Lemma run_spec_cons agents t l ctx lg ctx1 lg1 run nc1 nf1 nl1 (k : nat) :
  completed_tests ctx1 = completed_tests ctx ++ nc1 →
  failed_tests ctx1 = failed_tests ctx ++ nf1 →
  lg1 = lg ++ nl1 →
  Forall (filed_returned agents (t :: l)) nc1 →
  Forall (filed_raised agents (t :: l)) nf1 →
  length nl1 = length nf1 →
  (length nc1 + length nf1)%nat = k →
  length (filter (known agents) (t :: l)) = (k + length (filter (known agents) l))%nat →
  run_spec agents l ctx1 lg1 run → run_spec agents (t :: l) ctx lg run.
Proof.
  intros Hc1 Hf1 -> Hok1 Hko1 Hl1 Hk Hlen
    (nc & nf & nl & Hc & Hf & Hl & Hok & Hko & Hln & Hle & Heq & Hprop).
  exists (nc1 ++ nc), (nf1 ++ nf), (nl1 ++ nl).
  rewrite Hc, Hf, Hl, Hc1, Hf1, <- !app_assoc, !length_app.
  split; [done|]. split; [done|]. split; [done|]. split.
  { apply Forall_app. split; [done|].
    eapply Forall_impl; [exact Hok|]. intros r. apply filed_returned_cons. }
  split.
  { apply Forall_app. split; [done|].
    eapply Forall_impl; [exact Hko|]. intros r. apply filed_raised_cons. }
  split; [lia|]. split; [lia|]. split.
  - intros Hn. specialize (Heq Hn). lia.
  - intros e He. destruct (Hprop e He) as (n & d & H). eauto using agent_call_cons.
Qed.

Lemma run_tasks_spec agents l ctx lg : run_spec agents l ctx lg (run_tasks agents l ctx lg).
Proof.
  revert ctx lg. induction l as [|t l IH]; intros ctx lg.
  - exists [], [], []. simpl. rewrite !app_nil_r. by repeat split.
  - cbn [run_tasks].
    destruct (Orchestrator.agent t) as [n|] eqn:En; simpl.
    2:{ apply (run_spec_cons _ _ _ _ _ ctx lg _ [] [] [] 0); try done;
          rewrite ?app_nil_r; try done.
        rewrite filter_cons, decide_False; [done|].
        unfold known. rewrite En. by intros [? ?]. }
    destruct (agents !! n) as [a|] eqn:Ea; simpl.
    2:{ apply (run_spec_cons _ _ _ _ _ ctx lg _ [] [] [] 0); try done;
          rewrite ?app_nil_r; try done.
        rewrite filter_cons, decide_False; [done|].
        unfold known. rewrite En. simpl. rewrite Ea. by intros [? ?]. }
    assert (known agents t) as Hk.
    { unfold known. rewrite En. simpl. rewrite Ea. eauto. }
    assert (∀ o, a ctx (default "" (Orchestrator.task t)) = o →
                 agent_call agents (t :: l) n (default "" (Orchestrator.task t)) o) as Hcall.
    { intros o Ho. exists t, a, ctx. split; [apply list_elem_of_here|done]. }
    unfold _run_agent_task.
    destruct (a ctx (default "" (Orchestrator.task t))) as [res|e|e] eqn:Eo; simpl.
    + refine (run_spec_cons agents t l ctx lg _ _ _
                [Orchestrator.mkResult (Some n) (Some (default "" (Orchestrator.task t)))
                   true (Some (take 200 res)) None None] [] [] 1
                _ _ _ _ _ _ _ _ (IH _ _)); simpl; rewrite ?app_nil_r; try done.
      * constructor; [|done]. exists n, (default "" (Orchestrator.task t)), res.
        split; [by apply Hcall|done].
      * by rewrite filter_cons, decide_True.
    + refine (run_spec_cons agents t l ctx lg _ _ _
                [] [Orchestrator.mkResult (Some n) None false None (Some e) None]
                ["Agent " +:+ n +:+ " error: " +:+ e] 1
                _ _ _ _ _ _ _ _ (IH _ _)); simpl; rewrite ?app_nil_r; try done.
      * constructor; [|done]. exists n, (default "" (Orchestrator.task t)), e.
        split; [by apply Hcall|done].
      * by rewrite filter_cons, decide_True.
    + exists [], [], []. simpl. rewrite !app_nil_r.
      split; [done|]. split; [done|]. split; [done|]. split; [done|]. split; [done|].
      split; [done|]. split; [lia|]. split; [done|].
      intros e' He'. inversion He'; subst e'.
      exists n, (default "" (Orchestrator.task t)). by apply Hcall.
Qed.

(** X14.  [_execute_tasks] files each task it runs by the outcome of its
    agent.  It adds to [completed_tests] only dicts with success True, each
    made for a task of the list whose agent is known and returned, with the
    first 200 code points of the result; it adds to [failed_tests] only dicts
    with success False, each made for a task whose known agent raised, with
    the error, and logs one line for each; the entries that were there stay
    in front.  A task with an unknown or missing agent leaves no entry.  When
    no [BaseException] leaves the loop, every task with a known agent has left
    exactly one entry; a [BaseException] that leaves it was raised by the
    agent of a task of the list. *)
Theorem sequential_run_records_known_agents_only (agents : gmap string Agent)
    (tasks : list Orchestrator.Task) (ctx : Context) :
  let run := _execute_tasks agents tasks ctx in
  ∃ nc nf,
    completed_tests (final_context run) = completed_tests ctx ++ nc ∧
    failed_tests (final_context run) = failed_tests ctx ++ nf ∧
    Forall (filed_returned agents tasks) nc ∧
    Forall (filed_raised agents tasks) nf ∧
    length (run_log run) = length nf ∧
    (length nc + length nf ≤ length (filter (known agents) tasks))%nat ∧
    (propagated run = None →
       (length nc + length nf)%nat = length (filter (known agents) tasks)) ∧
    (∀ e, propagated run = Some e →
          ∃ name desc, agent_call agents tasks name desc (Orchestrator.AgentRaisedBase e)).
Proof.
  simpl. unfold _execute_tasks.
  destruct (run_tasks_spec agents (sorted_by_priority tasks) ctx [])
    as (nc & nf & nl & Hc & Hf & Hl & Hok & Hko & Hln & Hle & Heq & Hprop).
  pose proof (sorted_by_priority_perm tasks) as Hperm.
  assert (length (filter (known agents) (sorted_by_priority tasks))
          = length (filter (known agents) tasks)) as Hlen
    by (by apply Permutation_length, filter_Permutation).
  exists nc, nf. split; [done|]. split; [done|]. split.
  { eapply Forall_impl; [exact Hok|]. intros r (n & d & res & H & ->).
    exists n, d, res. split; [by eapply agent_call_perm|done]. }
  split.
  { eapply Forall_impl; [exact Hko|]. intros r (n & d & e & H & ->).
    exists n, d, e. split; [by eapply agent_call_perm|done]. }
  split; [rewrite Hl; simpl; exact Hln|]. split; [lia|]. split.
  - intros Hn. rewrite <- Hlen. by apply Heq.
  - intros e He. destruct (Hprop e He) as (n & d & H). exists n, d.
    by eapply agent_call_perm.
Qed.

End SequentialSpec.

(* ===================================================================== *)
(** ** Further properties of the merge *)
(* ===================================================================== *)

Module MergingMore.
Import Merging MergingSpec OrchestratorSpec.

(** *** Collecting *)

(** X15.  [collect_agent_results] keeps one entry per agent name: collecting
    again under a name replaces the results and the collection time of that
    agent and leaves its place and every other agent as they are; a new name
    goes last.  Conflicts and the last merged result are not touched. *)
Theorem collect_keeps_one_entry_per_agent (name name' : string)
    (res : list (string * value)) (now : Z) (a : MergingAgent) :
  let a' := collect_agent_results name res now a in
  PyDict.get name' (agent_results a')
    = (if decide (name = name') then Some (mkAgentData res now "collected")
       else PyDict.get name' (agent_results a)) ∧
  PyDict.keys (agent_results a')
    = (if decide (name ∈ PyDict.keys (agent_results a))
       then PyDict.keys (agent_results a)
       else PyDict.keys (agent_results a) ++ [name]) ∧
  (NoDup (PyDict.keys (agent_results a)) → NoDup (PyDict.keys (agent_results a'))) ∧
  conflicts a' = conflicts a ∧ merged_results a' = merged_results a.
Proof.
  simpl. split; [|split; [apply keys_set|split; [|done]]].
  - destruct (decide (name = name')) as [->|Hne].
    + apply get_set_eq.
    + by apply get_set_ne.
  - intros Hnd. rewrite keys_set. by apply insert_key_NoDup.
Qed.

(** *** Payloads without lists *)

Definition scalar (v : value) : Prop :=
  match v with VList _ | VDict _ => False | _ => True end.

Lemma merge_key_scalar md k v : scalar v → merge_key md k v = Ok (<[k := v]> md).
Proof.
  intros Hs. unfold merge_key.
  destruct (md !! k); destruct v; try done; by rewrite insert_insert_eq.
Qed.

Lemma merge_key_not_list md k v :
  ¬ list_like v → ∃ md', merge_key md k v = Ok md'.
Proof.
  intros Hl. unfold merge_key. destruct v as [| | | |l|d]; eauto.
  - destruct Hl. exact I.
  - set (md1 := match md !! k with Some _ => md | None => <[k:=VList []]> md end).
    destruct (md1 !! k) as [[| | | |l'|d']|] eqn:E; rewrite ?E, ?lookup_insert_eq; eauto.
Qed.

Lemma merge_payload_not_list md (p : list (string * value)) :
  (∀ k v, (k, v) ∈ p → ¬ list_like v) → ∃ md', merge_payload md p = Ok md'.
Proof.
  revert md. induction p as [|[k v] p IH]; intros md Hp; simpl; [eauto|].
  destruct (merge_key_not_list md k v) as [md1 ->]; [apply (Hp k v), list_elem_of_here|].
  apply IH. intros k' v' Hin. by apply (Hp k' v'), list_elem_of_further.
Qed.

Lemma merge_agents_not_list md (ars : list (string * AgentData)) :
  (∀ name data k v, (name, data) ∈ ars → (k, v) ∈ results data → ¬ list_like v) →
  ∃ md', merge_agents md ars = Ok md'.
Proof.
  revert md. induction ars as [|[n d] ars IH]; intros md Hp; simpl; [eauto|].
  destruct (merge_payload_not_list md (results d)) as [md1 ->].
  { intros k v Hin. eapply (Hp n d k v); [apply list_elem_of_here|done]. }
  apply IH. intros n' d' k v Hin. apply (Hp n' d' k v). by apply list_elem_of_further.
Qed.

(** X16.  When no collected payload holds a list value, [merge_results]
    never raises: it returns a merged dict for the agents collected. *)
Theorem merge_without_lists_never_raises (now : Z) (a : MergingAgent) :
  (∀ name data k v, (name, data) ∈ agent_results a → (k, v) ∈ results data →
                    ¬ list_like v) →
  ∃ r a', merge_results now a = Ok (r, a') ∧
          agents_participated r = PyDict.keys (agent_results a) ∧
          merged_results a' = Some r.
Proof.
  intros Hp. unfold merge_results.
  destruct (merge_agents_not_list ∅ (agent_results a) Hp) as [md ->]. eauto.
Qed.

Definition two_scalar_sources : MergingAgent :=
  collect_agent_results "B" [("x", VInt 2); ("d", VDict {["k" := VInt 1]})] 1
    (collect_agent_results "A" [("x", VStr "one")] 0 (new_agent "s")).

Lemma merge_without_lists_never_raises_witness :
  ∃ r a', merge_results 2 two_scalar_sources = Ok (r, a') ∧
          agents_participated r = ["A"; "B"].
Proof.
  destruct (merge_without_lists_never_raises 2 two_scalar_sources)
    as (r & a' & Hm & Hk & _).
  - intros name data k v Hin Hkv. simpl in Hin.
    repeat (apply elem_of_cons in Hin as [Hin|Hin];
            [inversion Hin; subst; simpl in Hkv;
             repeat (apply elem_of_cons in Hkv as [Hkv|Hkv];
                     [inversion Hkv; subst; simpl; tauto|]);
             by apply elem_of_nil in Hkv|]).
    by apply elem_of_nil in Hin.
  - exists r, a'. split; [exact Hm|]. rewrite Hk. reflexivity.
Defined.

(** *** The last source *)

Lemma merge_agents_app md ars1 ars2 :
  merge_agents md (ars1 ++ ars2)
  = match merge_agents md ars1 with
    | Ok md' => merge_agents md' ars2
    | AttributeError => AttributeError
    end.
Proof.
  revert md. induction ars1 as [|[n d] ars1 IH]; intros md; simpl; [done|].
  destruct (merge_payload md (results d)); [apply IH|done].
Qed.

Lemma merge_key_other md k k' v md' :
  merge_key md k' v = Ok md' → k ≠ k' → md' !! k = md !! k.
Proof.
  unfold merge_key. intros Hm Hne.
  set (md1 := match md !! k' with Some _ => md | None => <[k':=VList []]> md end) in *.
  assert (md1 !! k = md !! k) as H1.
  { subst md1. destruct (md !! k'); [done|]. by rewrite lookup_insert_ne. }
  destruct v as [| | | |l|d].
  1-4: inversion Hm; subst; by rewrite lookup_insert_ne.
  - destruct (md1 !! k') as [[| | | |e|e]|]; try done.
    inversion Hm; subst. by rewrite lookup_insert_ne.
  - set (md2 := match md1 !! k' with
                | Some (VDict _) => md1
                | _ => <[k':=VDict ∅]> md1
                end) in *.
    assert (md2 !! k = md1 !! k) as H2.
    { subst md2. destruct (md1 !! k') as [[| | | |e|e]|]; try done;
        by rewrite lookup_insert_ne. }
    destruct (md2 !! k') as [[| | | |e|e]|]; try done.
    inversion Hm; subst. rewrite lookup_insert_ne by done. congruence.
Qed.

Lemma merge_payload_other md (p : list (string * value)) k md' :
  merge_payload md p = Ok md' → k ∉ p.*1 → md' !! k = md !! k.
Proof.
  revert md. induction p as [|[k0 v0] p IH]; intros md Hm Hk; simpl in Hm.
  - by inversion Hm.
  - destruct (merge_key md k0 v0) as [md1|] eqn:E; [|done].
    apply not_elem_of_cons in Hk as [Hne Hk]. rewrite (IH md1 Hm Hk).
    by eapply merge_key_other.
Qed.

Lemma merge_payload_scalar md (p : list (string * value)) k v md' :
  NoDup p.*1 → (k, v) ∈ p → scalar v → merge_payload md p = Ok md' →
  md' !! k = Some v.
Proof.
  revert md. induction p as [|[k0 v0] p IH]; intros md Hnd Hin Hs Hm.
  - by apply elem_of_nil in Hin.
  - simpl in Hm. destruct (merge_key md k0 v0) as [md1|] eqn:E; [|done].
    apply NoDup_cons in Hnd as [Hk0 Hnd]. simpl in Hk0.
    apply elem_of_cons in Hin as [Heq|Hin].
    + inversion Heq; subst. rewrite (merge_payload_other _ _ _ _ Hm Hk0).
      rewrite merge_key_scalar in E by done. inversion E. by rewrite lookup_insert_eq.
    + by apply (IH md1).
Qed.

(** X17.  Later arrivals win: a key to which the source collected last gives
    a value that is neither a list nor a dict has that value in the merged
    data, whatever the other sources gave for it. *)
Theorem last_source_scalar_value_wins (now : Z) (a a' : MergingAgent)
    (ars : list (string * AgentData)) (name : string) (data : AgentData)
    (k : string) (v : value) (r : MergedResults) :
  agent_results a = ars ++ [(name, data)] →
  NoDup (results data).*1 → (k, v) ∈ results data → scalar v →
  merge_results now a = Ok (r, a') →
  merged_data r !! k = Some v.
Proof.
  intros Har Hnd Hin Hs Hm. unfold merge_results in Hm.
  rewrite Har, merge_agents_app in Hm.
  destruct (merge_agents ∅ ars) as [md|]; [|done]. simpl in Hm.
  destruct (merge_payload md (results data)) as [md'|] eqn:E; [|done].
  inversion Hm; subst; simpl. by eapply merge_payload_scalar.
Qed.

Lemma last_source_scalar_value_wins_witness :
  ∃ r a', merge_results 2 two_scalar_sources = Ok (r, a') ∧
          merged_data r !! "x" = Some (VInt 2).
Proof.
  destruct (merge_results 2 two_scalar_sources) as [[r a']|] eqn:E.
  - exists r, a'. split; [done|].
    apply (last_source_scalar_value_wins 2 two_scalar_sources a'
             [("A", mkAgentData [("x", VStr "one")] 0 "collected")] "B"
             (mkAgentData [("x", VInt 2); ("d", VDict {["k" := VInt 1]})] 1 "collected")
             "x" (VInt 2) r).
    + reflexivity.
    + apply (bool_decide_unpack _). vm_compute. exact I.
    + apply list_elem_of_here.
    + exact I.
    + exact E.
  - vm_compute in E. discriminate.
Defined.

(** *** Lists *)

(** The lists that the sources give for key [k], in collection order. *)
Definition contributions (k : string) (ars : list (string * AgentData))
    : list (list value) :=
  omap (λ x, match payload_map (results x.2) !! k with
             | Some (VList l) => Some l
             | _ => None
             end) ars.

Definition all_lists (md : gmap string value) : Prop :=
  ∀ k v, md !! k = Some v → list_like v.

Definition list_payload (p : list (string * value)) : Prop :=
  NoDup p.*1 ∧ ∀ k v, (k, v) ∈ p → list_like v.

Lemma merge_key_list md k l :
  all_lists md →
  ∃ e, merge_key md k (VList l) = Ok (<[k := VList (e ++ l)]> md) ∧
       e = match md !! k with Some (VList e) => e | _ => [] end.
Proof.
  intros Hall. unfold merge_key. destruct (md !! k) as [v|] eqn:E.
  - specialize (Hall k v E). destruct v; try done. rewrite E. eauto.
  - rewrite lookup_insert_eq, insert_insert_eq. eauto.
Qed.

Lemma all_lists_insert md k l : all_lists md → all_lists (<[k := VList l]> md).
Proof.
  intros Hall k' v. destruct (decide (k = k')) as [->|Hne].
  - rewrite lookup_insert_eq. by intros [= <-].
  - rewrite lookup_insert_ne by done. apply Hall.
Qed.

Lemma merge_payload_lists md (p : list (string * value)) :
  all_lists md → list_payload p →
  ∃ md', merge_payload md p = Ok md' ∧ all_lists md' ∧
         ∀ k, md' !! k
              = match payload_map p !! k with
                | Some (VList l) =>
                    Some (VList (match md !! k with Some (VList e) => e | _ => [] end ++ l))
                | _ => md !! k
                end.
Proof.
  unfold payload_map. revert md. induction p as [|[k0 v0] p IH]; intros md Hall [Hnd Hl].
  - exists md. split; [done|]. split; [done|]. intros k. simpl. by rewrite lookup_empty.
  - apply NoDup_cons in Hnd as [Hk0 Hnd]. change ((k0, v0).1) with k0 in Hk0.
    assert (list_like v0) as Hv0 by (apply (Hl k0), list_elem_of_here).
    destruct v0 as [| | | |l0|]; try done. cbn [merge_payload].
    destruct (merge_key_list md k0 l0 Hall) as (e & -> & He).
    destruct (IH (<[k0 := VList (e ++ l0)]> md)) as (md' & Hm & Hall' & Hlk).
    { by apply all_lists_insert. }
    { split; [done|]. intros k v Hin. by apply (Hl k), list_elem_of_further. }
    exists md'. split; [done|]. split; [done|]. intros k. rewrite Hlk.
    destruct (decide (k0 = k)) as [->|Hne].
    + rewrite (not_elem_of_list_to_map_1 p k) by done.
      by rewrite list_to_map_cons, !lookup_insert_eq, He.
    + by rewrite list_to_map_cons, !lookup_insert_ne.
Qed.

Lemma merge_agents_lists md (ars : list (string * AgentData)) :
  all_lists md → (∀ x, x ∈ ars → list_payload (results x.2)) →
  ∃ md', merge_agents md ars = Ok md' ∧
         ∀ k, md' !! k
              = match md !! k, contributions k ars with
                | Some (VList e), cs => Some (VList (e ++ concat cs))
                | Some v, _ => Some v
                | None, [] => None
                | None, cs => Some (VList (concat cs))
                end.
Proof.
  revert md. induction ars as [|[n d] ars IH]; intros md Hall Hp.
  - exists md. split; [done|]. intros k. simpl.
    destruct (md !! k) as [[| | | |e|]|]; try done. by rewrite app_nil_r.
  - simpl. destruct (merge_payload_lists md (results d) Hall) as (md1 & -> & Hall1 & Hlk1).
    { apply (Hp (n, d)), list_elem_of_here. }
    destruct (IH md1 Hall1) as (md' & Hm & Hlk).
    { intros x Hx. by apply Hp, list_elem_of_further. }
    exists md'. split; [done|]. intros k. rewrite Hlk, Hlk1. unfold contributions. csimpl.
    set (C := omap _ ars). clearbody C.
    destruct (payload_map (results d) !! k) as [[| | | |l|]|];
      destruct (md !! k) as [[| | | |e|]|] eqn:Emk; simpl;
      try (exfalso; exact (Hall _ _ Emk)); try done;
      rewrite <- ?app_assoc; try done; by destruct C.
Qed.

(** X18.  When every value of every collected payload is a list, the merge
    does not raise, and for each key the merged value is the concatenation, in
    collection order, of the lists the sources give for that key; a key that
    no source gives is absent. *)
Theorem list_values_are_concatenated (now : Z) (a : MergingAgent) :
  (∀ x, x ∈ agent_results a → list_payload (results x.2)) →
  ∃ r a', merge_results now a = Ok (r, a') ∧
          ∀ k, merged_data r !! k
               = match contributions k (agent_results a) with
                 | [] => None
                 | cs => Some (VList (concat cs))
                 end.
Proof.
  intros Hp. unfold merge_results.
  destruct (merge_agents_lists ∅ (agent_results a)) as (md & -> & Hlk).
  - intros k v Hk. by rewrite lookup_empty in Hk.
  - done.
  - do 2 eexists. split; [done|]. intros k. simpl. rewrite Hlk, lookup_empty. done.
Qed.

Definition two_list_sources : MergingAgent :=
  collect_agent_results "B" [("actions", VList [VInt 3])] 1
    (collect_agent_results "A" [("actions", VList [VInt 1; VInt 2])] 0 (new_agent "s")).

Lemma list_values_are_concatenated_witness :
  ∃ r a', merge_results 2 two_list_sources = Ok (r, a') ∧
          merged_data r !! "actions" = Some (VList [VInt 1; VInt 2; VInt 3]).
Proof.
  destruct (list_values_are_concatenated 2 two_list_sources) as (r & a' & Hm & Hk).
  - intros x Hx. simpl in Hx.
    repeat (apply elem_of_cons in Hx as [->|Hx];
            [split; [apply (bool_decide_unpack _); vm_compute; exact I|];
             intros k v Hkv; simpl in Hkv;
             apply list_elem_of_singleton in Hkv; inversion Hkv; exact I|]).
    by apply elem_of_nil in Hx.
  - exists r, a'. split; [exact Hm|]. rewrite Hk. vm_compute. reflexivity.
Defined.

(** *** Prioritizing *)

Section prioritize.
Variable ar : list (string * AgentData).

(** The bodies of the two loops of [prioritize_results]. *)
Definition put_listed (fr : list (string * list (string * value))) (agent : string)
    : list (string * list (string * value)) :=
  match PyDict.get agent ar with
  | Some data => PyDict.set agent (results data) fr
  | None => fr
  end.

Definition put_unlisted (order : list string)
    (fr : list (string * list (string * value))) (x : string * AgentData)
    : list (string * list (string * value)) :=
  if decide (x.1 ∈ order) then fr
  else match PyDict.get x.1 ar with
       | Some data => PyDict.set x.1 (results data) fr
       | None => fr
       end.

Lemma put_listed_step fr n k :
  PyDict.get k (put_listed fr n)
  = if decide (n = k ∧ is_Some (PyDict.get k ar))
    then results <$> PyDict.get k ar else PyDict.get k fr.
Proof.
  unfold put_listed. destruct (decide (n = k)) as [->|Hne].
  - destruct (PyDict.get k ar) as [data|] eqn:E.
    + rewrite get_set_eq. case_decide as H; [done|]. destruct H. eauto.
    + case_decide as H; [|done]. by destruct H as [_ [? ?]].
  - case_decide as H; [by destruct H|].
    destruct (PyDict.get n ar); [by rewrite get_set_ne|done].
Qed.

Lemma put_listed_get order fr k :
  PyDict.get k (foldl put_listed fr order)
  = if decide (k ∈ order ∧ is_Some (PyDict.get k ar))
    then results <$> PyDict.get k ar else PyDict.get k fr.
Proof.
  revert fr. induction order as [|n order IH]; intros fr.
  - cbn [foldl fmap list_fmap]. destruct (decide _) as [[H _]|]; [by apply elem_of_nil in H|done].
  - cbn [foldl]. rewrite IH, put_listed_step.
    repeat case_decide; try done; exfalso; set_solver.
Qed.

Lemma put_unlisted_step order fr n d k :
  PyDict.get k (put_unlisted order fr (n, d))
  = if decide (n = k ∧ (k ∉ order) ∧ is_Some (PyDict.get k ar))
    then results <$> PyDict.get k ar else PyDict.get k fr.
Proof.
  unfold put_unlisted. simpl. destruct (decide (n = k)) as [->|Hne].
  - destruct (decide (k ∈ order)) as [Ho|Ho].
    + case_decide as H; [|done]. by destruct H as (_ & ? & _).
    + destruct (PyDict.get k ar) as [data|] eqn:E.
      * rewrite get_set_eq. case_decide as H; [done|]. destruct H. eauto.
      * case_decide as H; [|done]. by destruct H as (_ & _ & [? ?]).
  - destruct (decide (n = k ∧ _ ∧ _)) as [H|H]; [by destruct H|].
    destruct (decide (n ∈ order)); [done|].
    destruct (PyDict.get n ar); [by rewrite get_set_ne|done].
Qed.

Lemma put_unlisted_get order l fr k :
  PyDict.get k (foldl (put_unlisted order) fr l)
  = if decide (k ∈ l.*1 ∧ (k ∉ order) ∧ is_Some (PyDict.get k ar))
    then results <$> PyDict.get k ar else PyDict.get k fr.
Proof.
  revert fr. induction l as [|[n d] l IH]; intros fr.
  - cbn [foldl fmap list_fmap]. destruct (decide _) as [[H _]|]; [by apply elem_of_nil in H|done].
  - cbn [foldl]. rewrite IH, put_unlisted_step, fmap_cons. cbn [fst].
    repeat case_decide; try done; exfalso; set_solver.
Qed.

Lemma put_listed_keys_step fr n :
  PyDict.keys (put_listed fr n)
  = if decide (n ∈ PyDict.keys ar) then insert_key (PyDict.keys fr) n else PyDict.keys fr.
Proof.
  unfold put_listed. destruct (PyDict.get n ar) as [data|] eqn:E.
  - rewrite decide_True by (apply get_is_Some; eauto). by rewrite keys_set.
  - rewrite decide_False; [done|]. intros [? ?]%get_is_Some. congruence.
Qed.

Lemma put_listed_keys order fr :
  PyDict.keys (foldl put_listed fr order)
  = foldl insert_key (PyDict.keys fr) (filter (λ n, n ∈ PyDict.keys ar) order).
Proof.
  revert fr. induction order as [|n order IH]; intros fr; [done|].
  cbn [foldl]. rewrite IH, put_listed_keys_step, filter_cons.
  by destruct (decide (n ∈ PyDict.keys ar)).
Qed.

Lemma put_unlisted_keys_step order fr n d :
  n ∈ PyDict.keys ar →
  PyDict.keys (put_unlisted order fr (n, d))
  = if decide (n ∉ order) then insert_key (PyDict.keys fr) n else PyDict.keys fr.
Proof.
  intros [data Hd]%get_is_Some. unfold put_unlisted. simpl.
  destruct (decide (n ∈ order)) as [Ho|Ho].
  - rewrite decide_False; [done|]. by intros ?.
  - rewrite decide_True by done. by rewrite Hd, keys_set.
Qed.

Lemma put_unlisted_keys order l fr :
  (∀ x, x ∈ l → x.1 ∈ PyDict.keys ar) →
  PyDict.keys (foldl (put_unlisted order) fr l)
  = foldl insert_key (PyDict.keys fr) (filter (λ n, n ∉ order) l.*1).
Proof.
  revert fr. induction l as [|[n d] l IH]; intros fr Hl; [done|].
  cbn [foldl]. rewrite IH by (intros x Hx; by apply Hl, list_elem_of_further).
  rewrite put_unlisted_keys_step by (apply (Hl (n, d)), list_elem_of_here).
  rewrite fmap_cons, filter_cons. cbn [fst].
  by destruct (decide (n ∉ order)).
Qed.
End prioritize.

Lemma foldl_insert_key_fresh new ks :
  NoDup new → (∀ x, x ∈ new → x ∉ ks) → foldl insert_key ks new = ks ++ new.
Proof.
  revert ks. induction new as [|n new IH]; intros ks Hnd Hfresh; simpl.
  - by rewrite app_nil_r.
  - apply NoDup_cons in Hnd as [Hn Hnd]. unfold insert_key at 2.
    rewrite decide_False by (apply Hfresh, list_elem_of_here).
    rewrite IH; [by rewrite <- app_assoc|done|].
    intros x Hx [Hin|Hs]%elem_of_app.
    + by apply (Hfresh x); [apply list_elem_of_further|].
    + apply list_elem_of_singleton in Hs as ->. done.
Qed.

(** X19.  [prioritize_results] loses and invents no agent: its final results
    hold, for every agent collected, that agent's results, and nothing else.
    With a priority list without repetition, the agents it names come first,
    in the order of the list, followed by the other agents in the order in
    which they were collected. *)
Theorem prioritize_keeps_every_agent (order : list string) (now : Z)
    (a : MergingAgent) :
  NoDup (PyDict.keys (agent_results a)) → NoDup order →
  let p := prioritize_results order now a in
  (∀ k, PyDict.get k (final_results p) = results <$> PyDict.get k (agent_results a)) ∧
  PyDict.keys (final_results p)
    = filter (λ n, n ∈ PyDict.keys (agent_results a)) order
      ++ filter (λ n, n ∉ order) (PyDict.keys (agent_results a)).
Proof.
  intros Hnd Hord. simpl. unfold prioritize_results. simpl.
  change (foldl _ (foldl _ [] order) (agent_results a))
    with (foldl (put_unlisted (agent_results a) order)
                (foldl (put_listed (agent_results a)) [] order) (agent_results a)).
  split.
  - intros k. rewrite put_unlisted_get, put_listed_get. simpl.
    destruct (PyDict.get k (agent_results a)) as [data|] eqn:E.
    + assert (k ∈ (agent_results a).*1) as Hk by (apply get_is_Some; eauto).
      destruct (decide (k ∈ order)) as [Ho|Ho].
      * rewrite decide_False by (by intros (_ & ? & _)).
        rewrite decide_True; [done|]. split; [done|eauto].
      * rewrite decide_True; [done|]. split; [done|]. split; [done|eauto].
    + rewrite decide_False by (by intros (_ & _ & [? ?])).
      rewrite decide_False by (by intros (_ & [? ?])). done.
  - rewrite put_unlisted_keys, put_listed_keys.
    + simpl. rewrite (foldl_insert_key_fresh _ []);
        [|by apply NoDup_filter|intros x _; apply not_elem_of_nil]. simpl.
      apply foldl_insert_key_fresh; [by apply NoDup_filter|].
      intros x [Hno _]%list_elem_of_filter [_ Ho]%list_elem_of_filter. done.
    + intros x Hx. by apply (list_elem_of_fmap_2 fst).
Qed.

Definition three_sources : MergingAgent :=
  collect_agent_results "C" [("z", VInt 3)] 2
    (collect_agent_results "B" [("y", VInt 2)] 1
       (collect_agent_results "A" [("x", VInt 1)] 0 (new_agent "s"))).

Lemma prioritize_keeps_every_agent_witness :
  PyDict.keys (final_results (prioritize_results ["C"; "ghost"; "A"] 3 three_sources))
  = ["C"; "A"; "B"].
Proof.
  destruct (prioritize_keeps_every_agent ["C"; "ghost"; "A"] 3 three_sources) as [_ Hk].
  - apply (bool_decide_unpack _). vm_compute. exact I.
  - apply (bool_decide_unpack _). vm_compute. exact I.
  - rewrite Hk. vm_compute. reflexivity.
Defined.

(** *** Merging again *)

(** X20.  A merged dict reports as many agents as it lists and never more
    resolved conflicts than conflicts.  Merging a second time, with nothing
    collected in between, starts from empty merged data: it succeeds and gives
    the same merged data again, lists are not appended twice. *)
Theorem merging_again_gives_the_same_data (now now' : Z) (a a' : MergingAgent)
    (r : MergedResults) :
  merge_results now a = Ok (r, a') →
  total_agents r = length (agents_participated r) ∧
  (conflicts_resolved r ≤ total_conflicts r)%nat ∧
  ∃ r' a'', merge_results now' a' = Ok (r', a'') ∧
            merged_data r' = merged_data r ∧
            agents_participated r' = agents_participated r ∧
            merged_at r' = now'.
Proof.
  unfold merge_results. destruct (merge_agents ∅ (agent_results a)) as [md|] eqn:E; [|done].
  intros H. inversion H; subst; simpl.
  split; [unfold PyDict.keys; by rewrite length_fmap|]. split; [apply length_filter|].
  rewrite E. eauto 10.
Qed.

Lemma merging_again_gives_the_same_data_witness :
  ∃ r a' r' a'',
    merge_results 2 two_list_sources = Ok (r, a') ∧
    merge_results 3 a' = Ok (r', a'') ∧
    merged_data r' !! "actions" = Some (VList [VInt 1; VInt 2; VInt 3]).
Proof.
  destruct (merge_results 2 two_list_sources) as [[r a']|] eqn:E.
  - destruct (merging_again_gives_the_same_data 2 3 two_list_sources a' r E)
      as (_ & _ & r' & a'' & Hm & Hd & _).
    exists r, a', r', a''. split; [done|]. split; [exact Hm|]. rewrite Hd.
    vm_compute in E. inversion E. vm_compute. reflexivity.
  - vm_compute in E. discriminate.
Defined.

End MergingMore.
